(** * GoCache: an in-memory key-value cache with TTL and LRU eviction

    Shallow embedding of [internal/cache/cache.go] and
    [internal/cache/maintenance.go], and the properties of the cache engine
    proved over it.

    Modelling decisions.
    - The Go heap is explicit.  Byte slices are references into a heap of
      backing arrays ([Heap]); list elements ([*list.Element], each with the
      [*entry] it carries) are references into the cache's private store
      ([nodes]).  The index map and the recency list both hold element
      references, so an in-place update of an entry is seen through both.
    - [time.Time] is an integer instant and [time.Duration] an integer;
      [Time.Add] is addition and [Time.After] is [>].  The saturation of
      [time.Time] at the ends of its range is outside the model.
    - The lock makes every critical section atomic, so a critical section
      is a function on states and an execution is a sequence of them.  Set,
      Delete, Len, Keys, the locked part of Close and a tick of the worker
      are one critical section each; Get is two, [GetRLocked] and
      [GetLocked].  [time.Now()] is a parameter [now].
    - A loop that the source cannot leave is a result [None]. *)

From stdpp Require Import base option list strings gmap sorting.
From Stdlib Require Import ZArith Lia.

Open Scope Z_scope.

(** * Part I: the program *)

(** ** The Go heap: byte slices *)

Definition loc := nat.

(** A [[]byte] is [nil] or a reference to its backing array.  The cache
    never re-slices, so the array stands for the bytes the slice shows. *)
Definition slice := option loc.

Abbreviation Heap := (gmap loc (list Byte.byte)).

(** [len(b)] bytes of [b], read through the heap. *)
Definition contents (h : Heap) (b : slice) : list Byte.byte :=
  match b with
  | None => []
  | Some l => default [] (h !! l)
  end.

(** [make([]byte, n)]: a reference no live array has. *)
Definition new_array (h : Heap) : loc := fresh (dom h).

(** [cloneBytes]: [nil] stays [nil]; otherwise a new array with the same
    bytes. *)
Definition cloneBytes (b : slice) (h : Heap) : slice * Heap :=
  match b with
  | None => (None, h)
  | Some l =>
      let out := new_array h in
      (Some out, <[out := default [] (h !! l)]> h)
  end.

(** A caller overwriting the array behind a slice it holds. *)
Definition caller_write (l : loc) (bs : list Byte.byte) (h : Heap) : Heap :=
  <[l := bs]> h.

(** ** Entries and the cache *)

Record entry := Entry {
  key : string;
  value : slice;
  expiresAt : Z;
  hasExpiry : bool
}.

(** The zero [time.Time]. *)
Definition zeroTime : Z := 0.

Definition zeroEntry : entry :=
  {| key := ""; value := None; expiresAt := zeroTime; hasExpiry := false |}.

Record Config := { MaxEntries : Z; CleanupInterval : Z }.

Record Cache := MkCache {
  maxEntries : Z;
  items : gmap string loc;     (* map[string]*list.Element *)
  lru : list loc;              (* the list, Front first *)
  nodes : gmap loc entry;      (* the entry behind each element *)
  cleanupEvery : Z;
  closed : bool
}.

Inductive error := ErrClosed.

Definition with_items (m : gmap string loc) (c : Cache) : Cache :=
  MkCache (maxEntries c) m (lru c) (nodes c) (cleanupEvery c) (closed c).
Definition with_lru (l : list loc) (c : Cache) : Cache :=
  MkCache (maxEntries c) (items c) l (nodes c) (cleanupEvery c) (closed c).
Definition with_nodes (n : gmap loc entry) (c : Cache) : Cache :=
  MkCache (maxEntries c) (items c) (lru c) n (cleanupEvery c) (closed c).
Definition with_closed (b : bool) (c : Cache) : Cache :=
  MkCache (maxEntries c) (items c) (lru c) (nodes c) (cleanupEvery c) b.

(** The entry an element carries: its [Value], asserted to be an entry. *)
Definition entryOf (c : Cache) (el : loc) : entry :=
  default zeroEntry (nodes c !! el).

(** ** container/list, on the order of the elements *)

Definition PushFront (el : loc) (l : list loc) : list loc := el :: l.

Definition Remove (el : loc) (l : list loc) : list loc :=
  filter (λ x, x ≠ el) l.

Definition MoveToFront (el : loc) (l : list loc) : list loc :=
  if decide (el ∈ l) then el :: filter (λ x, x ≠ el) l else l.

Definition Back (l : list loc) : option loc := last l.

(** ** The cache engine *)

Definition New (cfg : Config) : Cache :=
  {| maxEntries := MaxEntries cfg;
     items := ∅;
     lru := [];
     nodes := ∅;
     cleanupEvery := CleanupInterval cfg;
     closed := false |}.

(** [e.hasExpiry && !e.expiresAt.After(now)] *)
Definition expired (now : Z) (e : entry) : bool :=
  hasExpiry e && negb (now <? expiresAt e).

Definition Close (c : Cache) : option error * Cache :=
  if closed c then (None, c) else (None, with_closed true c).

Definition deleteLocked (k : string) (c : Cache) : Cache :=
  match items c !! k with
  | None => c
  | Some el => with_lru (Remove el (lru c)) (with_items (delete k (items c)) c)
  end.

Definition deleteIfExpiredLocked (k : string) (now : Z) (c : Cache)
  : bool * Cache :=
  match items c !! k with
  | None => (false, c)
  | Some el =>
      if expired now (entryOf c el) then (true, deleteLocked k c)
      else (false, c)
  end.

(** One iteration of the [range c.items] loop of [deleteExpiredLocked]. *)
Definition sweepStep (now : Z) (st : nat * Cache) (kv : string * loc)
  : nat * Cache :=
  let '(removed, c) := st in
  if expired now (entryOf c kv.2)
  then (S removed,
        with_lru (Remove kv.2 (lru c)) (with_items (delete kv.1 (items c)) c))
  else (removed, c).

(** The loop over the pairs of the map in the order [order]: Go leaves the
    order of a map range open, and a pair is visited once since the body
    deletes no key but the current one. *)
Definition deleteExpiredOver (order : list (string * loc)) (now : Z)
  (c : Cache) : nat * Cache :=
  fold_left (sweepStep now) order (0%nat, c).

Definition deleteExpiredLocked (now : Z) (c : Cache) : nat * Cache :=
  deleteExpiredOver (map_to_list (items c)) now c.

(** The [for len(c.items) > c.maxEntries] loop.  An iteration whose
    [deleteLocked] finds no key leaves the state as it was, so the source
    loops for ever: the fuel then runs out and the result is [None].
    Every other iteration removes one key, so [size (items c)] iterations
    are enough fuel. *)
Fixpoint evictLoop (fuel : nat) (c : Cache) : option Cache :=
  if maxEntries c <? Z.of_nat (size (items c)) then
    match fuel with
    | O => None
    | S fuel' =>
        match Back (lru c) with
        | None => Some c
        | Some el => evictLoop fuel' (deleteLocked (key (entryOf c el)) c)
        end
    end
  else Some c.

Definition evictIfNeededLocked (now : Z) (c : Cache) : option Cache :=
  if maxEntries c <=? 0 then Some c
  else
    let c1 := (deleteExpiredLocked now c).2 in
    evictLoop (size (items c1)) c1.

Definition Set_ (k : string) (v : slice) (ttl : Z) (now : Z)
  (h : Heap) (c : Cache) : option (option error * Heap * Cache) :=
  if closed c then Some (Some ErrClosed, h, c)
  else
    let hasExp := 0 <? ttl in
    let expAt := if hasExp then now + ttl else zeroTime in
    match items c !! k with
    | Some el =>
        let e := entryOf c el in
        let '(v', h') := cloneBytes v h in
        let e' := {| key := key e; value := v';
                     expiresAt := expAt; hasExpiry := hasExp |} in
        let c1 := with_nodes (<[el := e']> (nodes c)) c in
        let c2 := with_lru (MoveToFront el (lru c1)) c1 in
        c3 ← evictIfNeededLocked now c2;
        Some (None, h', c3)
    | None =>
        let '(v', h') := cloneBytes v h in
        let e := {| key := k; value := v';
                    expiresAt := expAt; hasExpiry := hasExp |} in
        let el := fresh (dom (nodes c)) in
        let c1 := with_nodes (<[el := e]> (nodes c)) c in
        let c2 := with_lru (PushFront el (lru c1)) c1 in
        let c3 := with_items (<[k := el]> (items c2)) c2 in
        c4 ← evictIfNeededLocked now c3;
        Some (None, h', c4)
    end.

(** What [Get] sees of its key under the read lock. *)
Inductive sighting := Missing | Stale | Fresh.

(** The first critical section of [Get], under the read lock. *)
Definition GetRLocked (k : string) (now : Z) (c : Cache) : sighting :=
  match items c !! k with
  | None => Missing
  | Some el => if expired now (entryOf c el) then Stale else Fresh
  end.

(** The second critical section of [Get], under the write lock, on the
    cache as it is by then: the key is looked up and checked again. *)
Definition GetLocked (s : sighting) (k : string) (now : Z) (h : Heap)
  (c : Cache) : slice * bool * Heap * Cache :=
  match s with
  | Missing => (None, false, h, c)
  | Stale => (None, false, h, (deleteIfExpiredLocked k now c).2)
  | Fresh =>
      match items c !! k with
      | None => (None, false, h, c)
      | Some el2 =>
          let e2 := entryOf c el2 in
          if expired now e2 then (None, false, h, deleteLocked k c)
          else
            let c' := with_lru (MoveToFront el2 (lru c)) c in
            let '(out, h') := cloneBytes (value e2) h in
            (out, true, h', c')
      end
  end.

(** [Get] with no other operation between its two critical sections. *)
Definition Get (k : string) (now : Z) (h : Heap) (c : Cache)
  : slice * bool * Heap * Cache :=
  GetLocked (GetRLocked k now c) k now h c.

Definition Delete (k : string) (c : Cache) : option error * Cache :=
  if closed c then (Some ErrClosed, c) else (None, deleteLocked k c).

Definition Len (c : Cache) : Z := Z.of_nat (size (items c)).

Definition Keys (c : Cache) : list string :=
  (λ el, key (entryOf c el)) <$> lru c.

(** One tick of [expiryLoop]. *)
Definition expiryTick (now : Z) (c : Cache) : Cache :=
  (deleteExpiredLocked now c).2.

(** * Part II: the notions of the statements *)

(** ** The joint invariant of index and recency list *)

Record cache_inv (c : Cache) : Prop := {
  inv_nodup : NoDup (lru c);
  inv_index : ∀ k el, items c !! k = Some el →
      el ∈ lru c ∧ ∃ e, nodes c !! el = Some e ∧ key e = k;
  inv_list : ∀ el, el ∈ lru c →
      ∃ e, nodes c !! el = Some e ∧ items c !! key e = Some el
}.

(** The entry stored under a key, through index and element. *)
Definition lookupEntry (c : Cache) (k : string) : option entry :=
  el ← items c !! k; nodes c !! el.

(** ** Removing elements: what every removal path has in common *)

(** [c'] is [c] with some elements unlinked: the remaining elements keep
    their order and their entries, and the index keeps exactly the keys of
    the remaining elements. *)
Record restricted (c c' : Cache) : Prop := {
  res_max : maxEntries c' = maxEntries c;
  res_closed : closed c' = closed c;
  res_every : cleanupEvery c' = cleanupEvery c;
  res_nodes : nodes c' = nodes c;
  res_lru : lru c' `sublist_of` lru c;
  res_items : ∀ k el,
      items c' !! k = Some el ↔ items c !! k = Some el ∧ el ∈ lru c'
}.

(** *** [deleteExpiredLocked] *)

(** The pairs of [l] whose entry has expired at [now]. *)
Definition deadPairs (now : Z) (nd : gmap loc entry)
  (l : list (string * loc)) : list (string * loc) :=
  filter (λ kv, expired now (default zeroEntry (nd !! kv.2)) = true) l.

(** *** The eviction loop *)

(** One pass through the body of the loop. *)
Definition evictOnce (c : Cache) : Cache :=
  match Back (lru c) with
  | Some el => deleteLocked (key (entryOf c el)) c
  | None => c
  end.

(** The loop is entered and its body changes nothing: the source never
    leaves the loop. *)
Definition evictStuck (c : Cache) : Prop :=
  maxEntries c < Z.of_nat (size (items c)) ∧
  ∃ el, Back (lru c) = Some el ∧ evictOnce c = c.

(** ** The recency list as a list of entries *)

(** The entries of the cache, most recently used first. *)
Definition Entries (c : Cache) : list entry := entryOf c <$> lru c.

(** ** [Set]: the store step and capacity enforcement *)

(** The entry [Set] writes. *)
Definition newEntry (k : string) (v : slice) (ttl now : Z) : entry :=
  {| key := k; value := v;
     expiresAt := if 0 <? ttl then now + ttl else zeroTime;
     hasExpiry := 0 <? ttl |}.

(** The state of an open cache when [Set] reaches [evictIfNeededLocked]. *)
Definition storeLocked (k : string) (v : slice) (ttl now : Z)
  (h : Heap) (c : Cache) : Heap * Cache :=
  let '(v', h') := cloneBytes v h in
  match items c !! k with
  | Some el =>
      let e' := {| key := key (entryOf c el); value := v';
                   expiresAt := if 0 <? ttl then now + ttl else zeroTime;
                   hasExpiry := 0 <? ttl |} in
      let c1 := with_nodes (<[el := e']> (nodes c)) c in
      (h', with_lru (MoveToFront el (lru c1)) c1)
  | None =>
      let e := newEntry k v' ttl now in
      let el := fresh (dom (nodes c)) in
      let c1 := with_nodes (<[el := e]> (nodes c)) c in
      let c2 := with_lru (PushFront el (lru c1)) c1 in
      (h', with_items (<[k := el]> (items c2)) c2)
  end.

(** ** A checker for the invariant *)

Definition cache_invb (c : Cache) : bool :=
  bool_decide (NoDup (lru c))
  && forallb (λ kv : string * loc,
        bool_decide (kv.2 ∈ lru c)
        && match nodes c !! kv.2 with
           | Some e => bool_decide (key e = kv.1)
           | None => false
           end) (map_to_list (items c))
  && forallb (λ el,
        match nodes c !! el with
        | Some e => bool_decide (items c !! key e = Some el)
        | None => false
        end) (lru c).

(** ** Histories of operations *)

Inductive op :=
  | OpSet (k : string) (v : slice) (ttl : Z)
  | OpGet (k : string)
  | OpDelete (k : string)
  | OpLen
  | OpKeys
  | OpClose
  | OpTick
  | OpGetLocked (s : sighting) (k : string).

Inductive result :=
  | RErr (err : option error)
  | RGet (v : slice) (found : bool)
  | RLen (n : Z)
  | RKeys (ks : list string)
  | RDone.

(** One critical section at time [now]: every method but Get is one, under
    the lock from start to end.  [OpTick] is one tick of the maintenance
    worker, which runs only in a cache made with a cleanup interval above
    zero.  A tick may come after [OpClose] in a history: that is the tick
    that takes the lock between the moment Close sets the flag and the
    moment the worker sees the cancellation.  [OpGet] is a Get whose two
    critical sections follow each other; [OpGetLocked s k] is the second
    critical section of a Get whose first one saw [s] earlier in the
    history, other operations having run since (the first one changes
    nothing, so it is no event of its own). *)
Definition step (now : Z) (o : op) (w : Heap * Cache)
  : option (result * (Heap * Cache)) :=
  let '(h, c) := w in
  match o with
  | OpSet k v ttl =>
      '(err, h', c') ← Set_ k v ttl now h c; Some (RErr err, (h', c'))
  | OpGet k =>
      let '(v, found, h', c') := Get k now h c in Some (RGet v found, (h', c'))
  | OpDelete k =>
      let '(err, c') := Delete k c in Some (RErr err, (h, c'))
  | OpLen => Some (RLen (Len c), (h, c))
  | OpKeys => Some (RKeys (Keys c), (h, c))
  | OpClose => let '(err, c') := Close c in Some (RErr err, (h, c'))
  | OpTick =>
      Some (RDone, (h, if 0 <? cleanupEvery c then expiryTick now c else c))
  | OpGetLocked s k =>
      let '(v, found, h', c') := GetLocked s k now h c in
      Some (RGet v found, (h', c'))
  end.

Fixpoint run (evs : list (Z * op)) (w : Heap * Cache)
  : option (list result * (Heap * Cache)) :=
  match evs with
  | [] => Some ([], w)
  | (now, o) :: evs' =>
      '(r, w') ← step now o w;
      '(rs, w'') ← run evs' w';
      Some (r :: rs, w'')
  end.

(** Recency, in the words of the specification: a key is used by a
    successful Set and by a Get that finds it. *)
Definition touched (o : op) (r : result) : option string :=
  match o, r with
  | OpSet k _ _, RErr None => Some k
  | OpGet k, RGet _ true => Some k
  | OpGetLocked _ k, RGet _ true => Some k
  | _, _ => None
  end.

Definition stampStep (st : nat * gmap string nat) (x : op * result)
  : nat * gmap string nat :=
  match touched x.1 x.2 with
  | Some k => (S st.1, <[k := st.1]> st.2)
  | None => (S st.1, st.2)
  end.

(** The position in the history of the last use of each key. *)
Definition lastUse (ops : list op) (rs : list result) : gmap string nat :=
  (fold_left stampStep (zip ops rs) (0%nat, ∅)).2.

(** [k1] was used after [k2]. *)
Definition usedAfter (s : gmap string nat) (k1 k2 : string) : Prop :=
  ∃ t1 t2, s !! k1 = Some t1 ∧ s !! k2 = Some t2 ∧ (t2 < t1)%nat.

(** What an operation does to the order of the keys: a used key moves to
    the front; every other change only removes keys. *)
Definition keysStep (o : op) (r : result) (ks ks' : list string) : Prop :=
  match touched o r with
  | Some k => ∃ tl, ks' = k :: tl ∧ tl `sublist_of` filter (λ k', k' ≠ k) ks
  | None => ks' `sublist_of` ks
  end.

(** ** Recency along a history *)

(** The keys [ks], front first, are in the order of their last use, and
    every stamp was given before position [i]. *)
Definition recencyOrdered (i : nat) (s : gmap string nat) (ks : list string)
  : Prop :=
  (∀ k t, s !! k = Some t → (t < i)%nat) ∧
  Forall (λ k, is_Some (s !! k)) ks ∧
  StronglySorted (usedAfter s) ks.

(** ** Example states *)

Definition demoHeap : Heap := {[ 0%nat := [Byte.x41]; 1%nat := [Byte.x42] ]}.

(** Capacity 2; ["a"] (most recently used) expires at 5, ["b"] never. *)
Definition demoStale : Cache :=
  {| maxEntries := 2;
     items := {[ "a" := 0%nat; "b" := 1%nat ]};
     lru := [0%nat; 1%nat];
     nodes := {[ 0%nat := Entry "a" (Some 0%nat) 5 true;
                 1%nat := Entry "b" (Some 1%nat) 0 false ]};
     cleanupEvery := 0;
     closed := false |}.

(** ** The keys a Get finds *)

Definition found (r : slice * bool * Heap * Cache) : bool := r.1.1.2.

(** ** Filling a cache *)

(** Sets without TTL, one per triple of time, key and value. *)
Definition inserts (l : list (Z * string * slice)) : list (Z * op) :=
  (λ x, (x.1.1, OpSet x.1.2 x.2 0)) <$> l.

Definition insertKeys (l : list (Z * string * slice)) : list string :=
  (λ x, x.1.2) <$> l.

Definition results (r : option (list result * (Heap * Cache)))
  : option (list result) := fst <$> r.

Definition lruExample : list (Z * op) :=
  [(1, OpSet "a" (Some 0%nat) 0); (2, OpSet "b" (Some 1%nat) 0);
   (3, OpGet "a"); (4, OpSet "c" (Some 1%nat) 0);
   (5, OpGet "b"); (6, OpGet "a"); (7, OpGet "c")].

(** Capacity 2, full, no TTLs; ["a"] most recently used. *)
Definition demoFull : Cache :=
  {| maxEntries := 2;
     items := {[ "a" := 0%nat; "b" := 1%nat ]};
     lru := [0%nat; 1%nat];
     nodes := {[ 0%nat := Entry "a" (Some 0%nat) 0 false;
                 1%nat := Entry "b" (Some 1%nat) 0 false ]};
     cleanupEvery := 0;
     closed := false |}.

(** The keys of the cache that a Get at [now] finds. *)
Definition foundKeys (now : Z) (h : Heap) (c : Cache) : list string :=
  filter (λ k, found (Get k now h c) = true) (Keys c).

Definition lenExample : list (Z * op) := [(0, OpSet "k" (Some 0%nat) 30)].

(** ** Callers and their arrays *)

(** What happens in a program that uses the cache: a cache operation, a
    caller making a new array, a caller overwriting an array it holds. *)
Inductive event :=
  | EvOp (now : Z) (o : op)
  | EvMake (bs : list Byte.byte)
  | EvWrite (l : loc) (bs : list Byte.byte).

(** The heap and the cache, with two records kept for the statement of
    isolation only: the arrays callers hold a reference to, and, in the
    words of the specification, the bytes the value had when each key was
    last set. *)
Record world := World {
  held : gset loc;
  written : gmap string (list Byte.byte);
  heapOf : Heap;
  cacheOf : Cache
}.

Definition holds (G : gset loc) (v : slice) : bool :=
  match v with
  | None => true
  | Some b => bool_decide (b ∈ G)
  end.

Definition handOut (G : gset loc) (v : slice) : gset loc :=
  match v with
  | None => G
  | Some r => {[r]} ∪ G
  end.

(** One event.  A caller passes to Set, and writes to, only arrays it
    holds; it comes to hold the arrays it makes and those Get returns.
    [None] for an event no caller can produce. *)
Definition wstep (ev : event) (w : world) : option (result * world) :=
  match ev with
  | EvOp now (OpSet k v ttl) =>
      if holds (held w) v then
        '(err, h', c') ← Set_ k v ttl now (heapOf w) (cacheOf w);
        let wr := match err with
                  | None => <[k := contents (heapOf w) v]> (written w)
                  | Some _ => written w
                  end in
        Some (RErr err, World (held w) wr h' c')
      else None
  | EvOp now (OpGet k) =>
      let '(out, fnd, h', c') := Get k now (heapOf w) (cacheOf w) in
      Some (RGet out fnd, World (handOut (held w) out) (written w) h' c')
  | EvOp now (OpGetLocked s k) =>
      let '(out, fnd, h', c') := GetLocked s k now (heapOf w) (cacheOf w) in
      Some (RGet out fnd, World (handOut (held w) out) (written w) h' c')
  | EvOp now o =>
      '(r, (h', c')) ← step now o (heapOf w, cacheOf w);
      Some (r, World (held w) (written w) h' c')
  | EvMake bs =>
      let l := new_array (heapOf w) in
      Some (RDone, World ({[l]} ∪ held w) (written w)
                     (<[l := bs]> (heapOf w)) (cacheOf w))
  | EvWrite l bs =>
      if bool_decide (l ∈ held w) then
        Some (RDone, World (held w) (written w)
                       (caller_write l bs (heapOf w)) (cacheOf w))
      else None
  end.

Fixpoint wrun (evs : list event) (w : world) : option (list result * world) :=
  match evs with
  | [] => Some ([], w)
  | ev :: evs' =>
      '(r, w') ← wstep ev w;
      '(rs, w'') ← wrun evs' w';
      Some (r :: rs, w'')
  end.

(** A new cache in a program whose callers hold the arrays [G]. *)
Definition newWorld (cfg : Config) (G : gset loc) (h : Heap) : world :=
  World G ∅ h (New cfg).

(** Isolation: the arrays behind the stored values exist, no caller holds
    one of them, and each holds the bytes last set for its key. *)
Record isolated (w : world) : Prop := {
  iso_inv : cache_inv (cacheOf w);
  iso_held : held w ⊆ dom (heapOf w);
  iso_private : ∀ e l, e ∈ Entries (cacheOf w) → value e = Some l →
      l ∈ dom (heapOf w) ∧ l ∉ held w;
  iso_bytes : ∀ e, e ∈ Entries (cacheOf w) →
      written w !! key e = Some (contents (heapOf w) (value e))
}.

Definition isoExample : list event :=
  [EvOp 1 (OpSet "k" (Some 0%nat) 0); EvWrite 0%nat [Byte.x5a];
   EvOp 2 (OpGet "k"); EvWrite 3%nat [Byte.x59]; EvOp 3 (OpGet "k")].

(** ** Histories seen from one key *)

(** The operation is a Set of [k]. *)
Definition setsKey (k : string) (o : op) : bool :=
  match o with
  | OpSet k' _ _ => bool_decide (k' = k)
  | _ => false
  end.

(** The operation is a Get of [k]: both critical sections, or the second
    one alone. *)
Definition getsKey (k : string) (o : op) : bool :=
  match o with
  | OpGet k' | OpGetLocked _ k' => bool_decide (k' = k)
  | _ => false
  end.

(** The operations that call [cloneBytes]. *)
Definition clones (o : op) : bool :=
  match o with
  | OpSet _ _ _ | OpGet _ | OpGetLocked _ _ => true
  | _ => false
  end.

(** The operations that check the closed flag. *)
Definition guarded (o : op) : bool :=
  match o with
  | OpSet _ _ _ | OpDelete _ => true
  | _ => false
  end.

(** The operation names the key [k]. *)
Definition usesKey (k : string) (o : op) : bool :=
  match o with
  | OpSet k' _ _ | OpGet k' | OpDelete k' | OpGetLocked _ k' =>
      bool_decide (k' = k)
  | _ => false
  end.

(** * Part III: properties *)

(** ** Lists of elements *)

Section list_facts.
Context {A : Type} `{EqDecision A}.
Implicit Types (l : list A) (x : A).

Lemma filter_ne_notin x l : x ∉ l → filter (λ y, y ≠ x) l = l.
Proof.
  intros Hx. induction l as [|y l IH]; [done|].
  rewrite filter_cons. apply not_elem_of_cons in Hx as [Hxy Hl].
  rewrite decide_True by done. by rewrite IH.
Qed.

Lemma filter_ne_last x l : NoDup (l ++ [x]) → filter (λ y, y ≠ x) (l ++ [x]) = l.
Proof.
  intros Hnd. apply NoDup_app in Hnd as (_ & Hdis & _).
  rewrite filter_app, filter_ne_notin.
  - rewrite filter_cons, decide_False by (intros ?; done).
    by rewrite filter_nil, app_nil_r.
  - intros Hin. apply (Hdis x Hin). by left.
Qed.

Lemma last_snoc_inv l x : last l = Some x → ∃ l', l = l' ++ [x].
Proof.
  intros Hl. destruct l as [|y l] using rev_ind; [done|].
  rewrite last_snoc in Hl. injection Hl as ->. by eexists.
Qed.

Lemma filter_length_lt x l :
  x ∈ l → (length (filter (λ y, y ≠ x) l) < length l)%nat.
Proof.
  induction 1 as [x l|x y l Hin IH]; rewrite filter_cons; simpl.
  - rewrite decide_False by (intros ?; done).
    pose proof (length_filter (λ y, y ≠ x) l). lia.
  - destruct (decide (y ≠ x)); simpl; lia.
Qed.
End list_facts.

Lemma filter_all {A} (P : A → Prop) `{∀ x, Decision (P x)} (l : list A) :
  (∀ x, x ∈ l → P x) → filter P l = l.
Proof.
  induction l as [|x l IH]; intros HP; [done|].
  rewrite filter_cons, decide_True by (apply HP; by left).
  f_equal. apply IH. intros y Hy. apply HP. by right.
Qed.

Lemma fmap_filter_compat {A B} (f : A → B) (P : A → Prop) (Q : B → Prop)
    `{∀ x, Decision (P x)} `{∀ y, Decision (Q y)} (l : list A) :
  (∀ x, x ∈ l → P x ↔ Q (f x)) →
  f <$> filter P l = filter Q (f <$> l).
Proof.
  induction l as [|x l IH]; intros HPQ; [done|].
  rewrite fmap_cons, !filter_cons.
  assert (P x ↔ Q (f x)) as Hx by (apply HPQ; by left).
  assert (f <$> filter P l = filter Q (f <$> l)) as IH'.
  { apply IH. intros y Hy. apply HPQ. by right. }
  destruct (decide (P x)), (decide (Q (f x))); try tauto.
  by rewrite fmap_cons, IH'.
Qed.

(** ** Consequences of the invariant *)

Section invariant.
Variable c : Cache.
Hypothesis Hinv : cache_inv c.

Lemma inv_entryOf_key k el : items c !! k = Some el → key (entryOf c el) = k.
Proof.
  intros Hk. destruct (inv_index c Hinv k el Hk) as (_ & e & He & <-).
  unfold entryOf. by rewrite He.
Qed.

Lemma inv_list_items el :
  el ∈ lru c → items c !! key (entryOf c el) = Some el.
Proof.
  intros Hel. destruct (inv_list c Hinv el Hel) as (e & He & Hk).
  unfold entryOf. by rewrite He.
Qed.

Lemma inv_items_lru k el : items c !! k = Some el → el ∈ lru c.
Proof. intros Hk. by destruct (inv_index c Hinv k el Hk). Qed.

Lemma inv_key_inj el1 el2 :
  el1 ∈ lru c → el2 ∈ lru c →
  key (entryOf c el1) = key (entryOf c el2) → el1 = el2.
Proof.
  intros H1 H2 Heq. apply inv_list_items in H1, H2.
  rewrite Heq in H1. congruence.
Qed.

Lemma inv_pairs :
  map_to_list (items c) ≡ₚ (λ el, (key (entryOf c el), el)) <$> lru c.
Proof.
  apply NoDup_Permutation.
  - apply NoDup_map_to_list.
  - apply NoDup_fmap_2; [|apply Hinv]. intros x y Hxy. congruence.
  - intros [k el]. rewrite elem_of_map_to_list, list_elem_of_fmap. split.
    + intros Hk. exists el. split; [|by eapply inv_items_lru].
      f_equal. symmetry. by apply inv_entryOf_key.
    + intros (el' & Heq & Hel). injection Heq as -> ->.
      by apply inv_list_items.
Qed.

Lemma inv_size : size (items c) = length (lru c).
Proof.
  rewrite <- length_map_to_list, inv_pairs. by rewrite length_fmap.
Qed.

Lemma inv_Keys_lookup k : k ∈ Keys c ↔ is_Some (items c !! k).
Proof.
  unfold Keys. rewrite list_elem_of_fmap. split.
  - intros (el & -> & Hel). rewrite inv_list_items by done. by eexists.
  - intros [el Hk]. exists el. split.
    + symmetry. by apply inv_entryOf_key.
    + by eapply inv_items_lru.
Qed.

Lemma inv_Keys_NoDup : NoDup (Keys c).
Proof.
  unfold Keys. apply NoDup_fmap_2_strong; [|apply Hinv].
  intros x y Hx Hy. by apply inv_key_inj.
Qed.

Lemma inv_Keys_dom : dom (items c) = list_to_set (Keys c).
Proof.
  apply set_eq. intros k.
  by rewrite elem_of_dom, elem_of_list_to_set, inv_Keys_lookup.
Qed.

Lemma inv_Len : Len c = Z.of_nat (length (Keys c)).
Proof. unfold Len, Keys. by rewrite length_fmap, inv_size. Qed.

Lemma inv_lookupEntry k el :
  items c !! k = Some el → lookupEntry c k = Some (entryOf c el).
Proof.
  intros Hk. unfold lookupEntry, entryOf. rewrite Hk. simpl.
  destruct (inv_index c Hinv k el Hk) as (_ & e & -> & _). done.
Qed.
End invariant.

(** ** Removing elements: what every removal path has in common *)

Lemma restricted_refl c : cache_inv c → restricted c c.
Proof.
  intros Hinv. split; try done.
  intros k el. split; [|tauto]. intros Hk. split; [done|].
  by eapply inv_items_lru.
Qed.

Lemma restricted_trans c1 c2 c3 :
  restricted c1 c2 → restricted c2 c3 → restricted c1 c3.
Proof.
  intros H12 H23. split.
  - by rewrite (res_max _ _ H23), (res_max _ _ H12).
  - by rewrite (res_closed _ _ H23), (res_closed _ _ H12).
  - by rewrite (res_every _ _ H23), (res_every _ _ H12).
  - by rewrite (res_nodes _ _ H23), (res_nodes _ _ H12).
  - etrans; [apply (res_lru _ _ H23)|apply (res_lru _ _ H12)].
  - intros k el. rewrite (res_items _ _ H23), (res_items _ _ H12).
    split; [tauto|]. intros [Hk Hel]. split_and!; try done.
    eapply elem_of_sublist; [done|apply (res_lru _ _ H23)].
Qed.

Lemma restricted_inv c c' : cache_inv c → restricted c c' → cache_inv c'.
Proof.
  intros Hinv Hres. split.
  - eapply sublist_NoDup; [apply Hinv|apply (res_lru _ _ Hres)].
  - intros k el [Hk Hel]%(res_items _ _ Hres). split; [done|].
    rewrite (res_nodes _ _ Hres). by apply (inv_index c Hinv).
  - intros el Hel. rewrite (res_nodes _ _ Hres).
    assert (el ∈ lru c) as Hel' by (eapply elem_of_sublist; [done|apply (res_lru _ _ Hres)]).
    destruct (inv_list c Hinv el Hel') as (e & He & Hk).
    exists e. split; [done|]. by apply (res_items _ _ Hres).
Qed.

Lemma restricted_entryOf c c' el : restricted c c' → entryOf c' el = entryOf c el.
Proof. intros Hres. unfold entryOf. by rewrite (res_nodes _ _ Hres). Qed.

Lemma restricted_expired c c' now el :
  restricted c c' → expired now (entryOf c' el) = expired now (entryOf c el).
Proof. intros Hres. by rewrite (restricted_entryOf c c'). Qed.

Lemma restricted_Keys c c' :
  restricted c c' → Keys c' = (λ el, key (entryOf c el)) <$> lru c'.
Proof.
  intros Hres. unfold Keys. apply list_fmap_ext.
  intros i el _. by rewrite (restricted_entryOf c c').
Qed.

Lemma restricted_Keys_sublist c c' :
  restricted c c' → Keys c' `sublist_of` Keys c.
Proof.
  intros Hres. rewrite (restricted_Keys c c') by done.
  apply fmap_sublist, (res_lru _ _ Hres).
Qed.

Lemma restricted_lookupEntry c c' k e :
  restricted c c' → lookupEntry c' k = Some e → lookupEntry c k = Some e.
Proof.
  intros Hres. unfold lookupEntry.
  destruct (items c' !! k) as [el|] eqn:Hk; [|done]. simpl.
  apply (res_items _ _ Hres) in Hk as [-> _]. simpl.
  by rewrite (res_nodes _ _ Hres).
Qed.

(** Two restrictions of one cache with the same list are the same cache. *)
Lemma restricted_ext c c1 c2 :
  restricted c c1 → restricted c c2 → lru c1 = lru c2 → c1 = c2.
Proof.
  intros H1 H2 Hl. destruct c1 as [m1 i1 l1 n1 e1 b1], c2 as [m2 i2 l2 n2 e2 b2].
  pose proof (res_max _ _ H1). pose proof (res_max _ _ H2).
  pose proof (res_closed _ _ H1). pose proof (res_closed _ _ H2).
  pose proof (res_every _ _ H1). pose proof (res_every _ _ H2).
  pose proof (res_nodes _ _ H1). pose proof (res_nodes _ _ H2).
  pose proof (res_items _ _ H1) as Hi1. pose proof (res_items _ _ H2) as Hi2.
  simpl in *. subst. f_equal.
  apply map_eq. intros k. apply option_eq. intros el.
  by rewrite Hi1, Hi2.
Qed.

(** *** [deleteLocked] *)

Lemma deleteLocked_absent c k : items c !! k = None → deleteLocked k c = c.
Proof. intros Hk. unfold deleteLocked. by rewrite Hk. Qed.

Lemma deleteLocked_present c k el :
  items c !! k = Some el →
  deleteLocked k c =
    with_lru (Remove el (lru c)) (with_items (delete k (items c)) c).
Proof. intros Hk. unfold deleteLocked. by rewrite Hk. Qed.

Lemma unlink_restricted c k el :
  cache_inv c → items c !! k = Some el →
  restricted c
    (with_lru (Remove el (lru c)) (with_items (delete k (items c)) c)).
Proof.
  intros Hinv Hk. split; try done.
  - simpl. apply sublist_filter.
  - intros k' el'. simpl. unfold Remove. rewrite list_elem_of_filter.
    destruct (decide (k' = k)) as [->|Hne].
    + rewrite lookup_delete_eq. split; [done|].
      intros (Hk' & Hne & _). congruence.
    + rewrite lookup_delete_ne by done. split.
      * intros Hk'. split_and!; [done| |by eapply inv_items_lru].
        intros ->. apply Hne.
        by rewrite <- (inv_entryOf_key c Hinv k' el), (inv_entryOf_key c Hinv k el).
      * tauto.
Qed.

Lemma deleteLocked_restricted c k :
  cache_inv c → restricted c (deleteLocked k c).
Proof.
  intros Hinv. unfold deleteLocked.
  destruct (items c !! k) as [el|] eqn:Hk.
  - by apply unlink_restricted.
  - by apply restricted_refl.
Qed.

Lemma deleteLocked_gone c k : items (deleteLocked k c) !! k = None.
Proof.
  unfold deleteLocked. destruct (items c !! k) eqn:Hk; [|done].
  simpl. apply lookup_delete_eq.
Qed.

Lemma deleteLocked_other c k k' :
  k' ≠ k → items (deleteLocked k c) !! k' = items c !! k'.
Proof.
  intros Hne. unfold deleteLocked. destruct (items c !! k) eqn:Hk; [|done].
  simpl. by apply lookup_delete_ne.
Qed.

Lemma deleteLocked_Keys c k :
  cache_inv c → Keys (deleteLocked k c) = filter (λ k', k' ≠ k) (Keys c).
Proof.
  intros Hinv.
  rewrite (restricted_Keys c) by by apply deleteLocked_restricted.
  unfold deleteLocked, Keys. destruct (items c !! k) as [el|] eqn:Hk; simpl.
  - unfold Remove. apply fmap_filter_compat. intros x Hx. split.
    + intros Hne Heq. apply Hne. apply (inv_key_inj c Hinv); try done.
      * by eapply inv_items_lru.
      * by rewrite Heq, (inv_entryOf_key c Hinv k el).
    + intros Hne ->. by rewrite (inv_entryOf_key c Hinv k el) in Hne.
  - symmetry. apply filter_ne_notin. fold (Keys c).
    rewrite inv_Keys_lookup by done. rewrite Hk. by intros [? ?].
Qed.

(** *** [deleteExpiredLocked] *)

Lemma filter_iff_mem {A} (P Q : A → Prop)
    `{∀ x, Decision (P x)} `{∀ x, Decision (Q x)} (l : list A) :
  (∀ x, x ∈ l → P x ↔ Q x) → filter P l = filter Q l.
Proof.
  intros HPQ. rewrite <- (list_fmap_id (filter P l)).
  rewrite (fmap_filter_compat id P Q) by done. by rewrite list_fmap_id.
Qed.

Lemma sweep_fold now l : ∀ n c,
  let r := fold_left (sweepStep now) l (n, c) in
  let dead := deadPairs now (nodes c) l in
  r.1 = (n + length dead)%nat ∧
  maxEntries r.2 = maxEntries c ∧ closed r.2 = closed c ∧
  cleanupEvery r.2 = cleanupEvery c ∧ nodes r.2 = nodes c ∧
  lru r.2 = filter (λ x, x ∉ dead.*2) (lru c) ∧
  ∀ k, items r.2 !! k = if decide (k ∈ dead.*1) then None else items c !! k.
Proof.
  induction l as [|[k0 el0] l IH]; intros n c.
  - simpl. split_and!; try done; try lia.
    symmetry. apply filter_all. intros x _. apply not_elem_of_nil.
  - assert (sweepStep now (n, c) (k0, el0) =
      if expired now (default zeroEntry (nodes c !! el0))
      then (S n, with_lru (Remove el0 (lru c))
                   (with_items (delete k0 (items c)) c))
      else (n, c)) as Hstep by done.
    cbn [fold_left]. rewrite Hstep. clear Hstep.
    unfold deadPairs. rewrite filter_cons. cbn [snd].
    destruct (expired now (default zeroEntry (nodes c !! el0))) eqn:Hex.
    + rewrite decide_True by done.
      specialize (IH (S n)
        (with_lru (Remove el0 (lru c)) (with_items (delete k0 (items c)) c))).
      cbn zeta in IH. cbn [nodes with_lru with_items maxEntries closed
        cleanupEvery lru items] in IH.
      destruct IH as (Hn & Hm & Hc & He & Hnd & Hl & Hi).
      fold (deadPairs now (nodes c) l).
      split_and!; try done.
      * rewrite Hn. simpl. lia.
      * rewrite Hl. unfold Remove. rewrite list_filter_filter.
        apply list_filter_iff. intros x. rewrite fmap_cons. simpl.
        rewrite not_elem_of_cons. tauto.
      * intros k. rewrite Hi, fmap_cons. simpl.
        destruct (decide (k = k0)) as [->|Hne].
        -- rewrite lookup_delete_eq.
           rewrite (decide_True (P := k0 ∈ k0 :: _)) by by left.
           by destruct (decide _).
        -- rewrite lookup_delete_ne by done.
           apply decide_ext. rewrite elem_of_cons. tauto.
    + rewrite decide_False by done.
      specialize (IH n c). cbn zeta in IH.
      by fold (deadPairs now (nodes c) l).
Qed.

Lemma deleteExpiredOver_spec now c order :
  cache_inv c → order ≡ₚ map_to_list (items c) →
  let r := deleteExpiredOver order now c in
  restricted c r.2 ∧
  lru r.2 = filter (λ el, expired now (entryOf c el) = false) (lru c) ∧
  (r.1 + length (lru r.2) = length (lru c))%nat.
Proof.
  intros Hinv Hperm. cbn zeta. unfold deleteExpiredOver.
  destruct (sweep_fold now order 0%nat c) as (Hn & Hm & Hc & He & Hnd & Hl & Hi).
  set (r := fold_left (sweepStep now) order (0%nat, c)) in *.
  set (dead := deadPairs now (nodes c) order) in *.
  assert (∀ k el, (k, el) ∈ order ↔ items c !! k = Some el) as Hord.
  { intros k el. by rewrite Hperm, elem_of_map_to_list. }
  assert (∀ k el, (k, el) ∈ dead ↔
            items c !! k = Some el ∧ expired now (entryOf c el) = true) as Hdead.
  { intros k el. unfold dead, deadPairs. rewrite list_elem_of_filter, Hord.
    unfold entryOf. simpl. tauto. }
  assert (lru r.2 = filter (λ el, expired now (entryOf c el) = false) (lru c))
    as Hlru.
  { rewrite Hl. apply filter_iff_mem. intros el Hel. split.
    - intros Hnot. apply not_true_is_false. intros Hex. apply Hnot.
      apply list_elem_of_fmap. exists (key (entryOf c el), el). split; [done|].
      apply Hdead. split; [|done]. by apply inv_list_items.
    - intros Hlive [[k el'] [Heq Hin]]%list_elem_of_fmap. simpl in Heq. subst el'.
      apply Hdead in Hin as [_ Hex]. congruence. }
  assert (restricted c r.2) as Hres.
  { split; try done.
    - rewrite Hl. apply sublist_filter.
    - intros k el. rewrite Hi, Hlru, list_elem_of_filter. split.
      + destruct (decide _) as [|Hnot]; [done|]. intros Hk.
        split_and!; [done| |by eapply inv_items_lru].
        apply not_true_is_false. intros Hex. apply Hnot.
        apply list_elem_of_fmap. exists (k, el). split; [done|].
        by apply Hdead.
      + intros (Hk & Hlive & _). rewrite decide_False; [done|].
        intros [[k' el'] [Heq Hin]]%list_elem_of_fmap. simpl in Heq. subst k'.
        apply Hdead in Hin as [Hk' Hex]. congruence. }
  split_and!; [done..|].
  rewrite Hn. simpl. rewrite <- (inv_size c Hinv), <- (inv_size r.2).
  - (* the pairs are those of the index: dead and remaining partition them *)
    rewrite <- !length_map_to_list, <- Hperm.
    assert (map_to_list (items r.2) ≡ₚ
            filter (λ kv, ¬ expired now (default zeroEntry (nodes c !! kv.2)) = true) order)
      as ->.
    { apply NoDup_Permutation.
      - apply NoDup_map_to_list.
      - apply NoDup_filter. rewrite Hperm. apply NoDup_map_to_list.
      - intros [k el]. rewrite elem_of_map_to_list, list_elem_of_filter, Hord.
        rewrite (res_items _ _ Hres), Hlru, list_elem_of_filter. simpl.
        fold (entryOf c el). split.
        + intros (Hk & Hlive & _). split; [congruence|done].
        + intros (Hlive & Hk). split_and!; [done| |by eapply inv_items_lru].
          by apply not_true_is_false. }
    unfold dead, deadPairs.
    pose proof (filter_app_complement
      (λ kv : string * loc, expired now (default zeroEntry (nodes c !! kv.2)) = true) order) as Hc'.
    apply Permutation_length in Hc'. rewrite length_app in Hc'. lia.
  - by apply (restricted_inv c).
Qed.

Lemma deleteExpiredLocked_spec now c :
  cache_inv c →
  restricted c (deleteExpiredLocked now c).2 ∧
  lru (deleteExpiredLocked now c).2
    = filter (λ el, expired now (entryOf c el) = false) (lru c) ∧
  ((deleteExpiredLocked now c).1 + length (lru (deleteExpiredLocked now c).2)
    = length (lru c))%nat.
Proof. intros Hinv. by apply deleteExpiredOver_spec. Qed.

(** The result of the sweep does not depend on the order in which the map
    range visits the keys. *)
Lemma deleteExpiredOver_order now c order :
  cache_inv c → order ≡ₚ map_to_list (items c) →
  deleteExpiredOver order now c = deleteExpiredLocked now c.
Proof.
  intros Hinv Hperm.
  destruct (deleteExpiredOver_spec now c order Hinv Hperm) as (Hr1 & Hl1 & Hn1).
  destruct (deleteExpiredLocked_spec now c Hinv) as (Hr2 & Hl2 & Hn2).
  destruct (deleteExpiredOver order now c) as [n1 c1] eqn:E1.
  destruct (deleteExpiredLocked now c) as [n2 c2] eqn:E2.
  simpl in *.
  assert (c1 = c2) as ->.
  { apply (restricted_ext c); try done. by rewrite Hl1, Hl2. }
  f_equal. lia.
Qed.

(** *** The eviction loop *)

Lemma evictLoop_unfold fuel c :
  evictLoop fuel c =
    if maxEntries c <? Z.of_nat (size (items c)) then
      match fuel with
      | O => None
      | S fuel' =>
          match Back (lru c) with
          | None => Some c
          | Some el => evictLoop fuel' (deleteLocked (key (entryOf c el)) c)
          end
      end
    else Some c.
Proof. by destruct fuel. Qed.

(** More fuel does not change a result. *)
Lemma evictLoop_fuel_mono fuel : ∀ fuel' c c',
  evictLoop fuel c = Some c' → (fuel ≤ fuel')%nat → evictLoop fuel' c = Some c'.
Proof.
  induction fuel as [|fuel IH]; intros fuel' c c';
    rewrite (evictLoop_unfold _ c), (evictLoop_unfold fuel' c);
    destruct (maxEntries c <? Z.of_nat (size (items c))); try done.
  intros Hrun Hle. destruct fuel' as [|fuel']; [lia|].
  destruct (Back (lru c)); [|done]. apply IH; [done|lia].
Qed.

Lemma evictLoop_spec fuel : ∀ c,
  cache_inv c → 0 ≤ maxEntries c →
  (length (lru c) ≤ fuel + Z.to_nat (maxEntries c))%nat →
  ∃ c', evictLoop fuel c = Some c' ∧ restricted c c' ∧
        lru c' = take (Z.to_nat (maxEntries c)) (lru c).
Proof.
  induction fuel as [|fuel IH]; intros c Hinv Hmax Hfuel;
    rewrite evictLoop_unfold, (inv_size c Hinv);
    destruct (Z.ltb_spec (maxEntries c) (Z.of_nat (length (lru c))))
      as [Hover|Hfits];
    try (exists c; split_and!;
         [done|by apply restricted_refl|symmetry; apply take_ge; lia]).
  { lia. }
  unfold Back. destruct (last (lru c)) as [el|] eqn:Hlast.
  2:{ exists c. split_and!; [done|by apply restricted_refl|].
      apply last_None in Hlast. rewrite Hlast. by rewrite take_nil. }
  destruct (last_snoc_inv _ _ Hlast) as [l' Hl'].
  assert (el ∈ lru c) as Hel.
  { rewrite Hl'. apply elem_of_app. right. by left. }
  pose proof (inv_list_items c Hinv el Hel) as Hk.
  pose proof (unlink_restricted c _ el Hinv Hk) as Hres.
  rewrite (deleteLocked_present c _ el Hk).
  set (c1 := with_lru _ _) in *.
  assert (lru c1 = l') as Hlru1.
  { unfold c1. simpl. unfold Remove. rewrite Hl'. apply filter_ne_last.
    rewrite <- Hl'. apply Hinv. }
  destruct (IH c1) as (c' & Hrun & Hres' & Hlru').
  - by apply (restricted_inv c).
  - by rewrite (res_max _ _ Hres).
  - rewrite (res_max _ _ Hres), Hlru1. rewrite Hl', length_app in Hfuel.
    simpl in Hfuel. lia.
  - exists c'. split_and!; [done|by eapply restricted_trans|].
    rewrite Hlru', (res_max _ _ Hres), Hlru1, Hl'.
    symmetry. apply take_app_le.
    rewrite Hl', length_app in Hover. simpl in Hover. lia.
Qed.

(** The fuel [size (items c)] is exact: [None] is returned only when the
    loop of the source reaches a state it cannot leave. *)
Lemma evictLoop_None fuel : ∀ c,
  0 ≤ maxEntries c → (size (items c) ≤ fuel)%nat →
  evictLoop fuel c = None →
  ∃ n, evictStuck (Nat.iter n evictOnce c).
Proof.
  induction fuel as [|fuel IH]; intros c Hmax Hfuel; rewrite evictLoop_unfold;
    destruct (Z.ltb_spec (maxEntries c) (Z.of_nat (size (items c))))
      as [Hover|]; try done.
  { lia. }
  destruct (Back (lru c)) as [el|] eqn:Hback; [|done].
  destruct (items c !! key (entryOf c el)) as [el'|] eqn:Hk.
  - intros Hrun. destruct (IH (deleteLocked (key (entryOf c el)) c)) as [n Hn].
    + by rewrite (deleteLocked_present c _ el' Hk).
    + rewrite (deleteLocked_present c _ el' Hk). simpl.
      rewrite map_size_delete_Some by done. lia.
    + done.
    + exists (S n). rewrite Nat.iter_succ_r. unfold evictOnce at 2.
      by rewrite Hback.
  - intros _. exists 0%nat. simpl. split; [done|]. exists el. split; [done|].
    unfold evictOnce. rewrite Hback. by apply deleteLocked_absent.
Qed.

(** Capacity enforcement, under the invariant: nothing when the cache is
    unbounded; otherwise the live elements, in order, cut to the capacity. *)
Lemma evictIfNeededLocked_unbounded now c :
  maxEntries c ≤ 0 → evictIfNeededLocked now c = Some c.
Proof.
  intros Hmax. unfold evictIfNeededLocked.
  by destruct (Z.leb_spec (maxEntries c) 0); [|lia].
Qed.

Lemma evictIfNeededLocked_bounded now c :
  cache_inv c → 0 < maxEntries c →
  ∃ c', evictIfNeededLocked now c = Some c' ∧ restricted c c' ∧
        lru c' = take (Z.to_nat (maxEntries c))
                   (filter (λ el, expired now (entryOf c el) = false) (lru c)).
Proof.
  intros Hinv Hmax. unfold evictIfNeededLocked.
  destruct (Z.leb_spec (maxEntries c) 0); [lia|].
  destruct (deleteExpiredLocked_spec now c Hinv) as (Hres & Hlru & _).
  set (c1 := (deleteExpiredLocked now c).2) in *.
  assert (cache_inv c1) as Hinv1 by by apply (restricted_inv c).
  destruct (evictLoop_spec (size (items c1)) c1) as (c' & Hrun & Hres' & Hlru').
  - done.
  - rewrite (res_max _ _ Hres). lia.
  - rewrite (inv_size c1 Hinv1). lia.
  - exists c'. split_and!; [done|by eapply restricted_trans|].
    by rewrite Hlru', (res_max _ _ Hres), Hlru.
Qed.

(** ** The recency list as a list of entries *)

Lemma Keys_Entries c : Keys c = key <$> Entries c.
Proof. unfold Keys, Entries. by rewrite <- list_fmap_compose. Qed.

Lemma restricted_Entries c c' :
  restricted c c' → Entries c' = entryOf c <$> lru c'.
Proof.
  intros Hres. unfold Entries. apply list_fmap_ext.
  intros i el _. by apply restricted_entryOf.
Qed.

Lemma restricted_Entries_sublist c c' :
  restricted c c' → Entries c' `sublist_of` Entries c.
Proof.
  intros Hres. rewrite (restricted_Entries c c') by done.
  apply fmap_sublist, (res_lru _ _ Hres).
Qed.

Lemma Entries_filter_live now c (l : list loc) :
  entryOf c <$> filter (λ el, expired now (entryOf c el) = false) l
  = filter (λ e, expired now e = false) (entryOf c <$> l).
Proof. by apply fmap_filter_compat. Qed.

Lemma inv_lookupEntry_Entries c k e :
  cache_inv c → lookupEntry c k = Some e ↔ e ∈ Entries c ∧ key e = k.
Proof.
  intros Hinv. unfold Entries. rewrite list_elem_of_fmap. split.
  - unfold lookupEntry. destruct (items c !! k) as [el|] eqn:Hk; [|done].
    simpl. intros He. split.
    + exists el. split; [|by eapply inv_items_lru].
      unfold entryOf. by rewrite He.
    + pose proof (inv_entryOf_key c Hinv k el Hk) as Hkey.
      unfold entryOf in Hkey. by rewrite He in Hkey.
  - intros [(el & -> & Hel) Hkey].
    pose proof (inv_list_items c Hinv el Hel) as Hk. rewrite Hkey in Hk.
    by apply inv_lookupEntry.
Qed.

Lemma inv_Entries_filter_key c k :
  cache_inv c →
  ∀ el, items c !! k = Some el →
  entryOf c <$> filter (λ x, x ≠ el) (lru c)
  = filter (λ e, key e ≠ k) (Entries c).
Proof.
  intros Hinv el Hk. unfold Entries. apply fmap_filter_compat.
  intros x Hx. split.
  - intros Hne Heq. apply Hne. apply (inv_key_inj c Hinv); try done.
    + by eapply inv_items_lru.
    + by rewrite Heq, (inv_entryOf_key c Hinv k el).
  - intros Hne ->. by rewrite (inv_entryOf_key c Hinv k el) in Hne.
Qed.

Lemma inv_Entries_absent c k :
  cache_inv c → items c !! k = None →
  filter (λ e, key e ≠ k) (Entries c) = Entries c.
Proof.
  intros Hinv Hk. apply filter_all. intros e He Heq.
  assert (lookupEntry c k = Some e) as Hl
    by by apply inv_lookupEntry_Entries.
  unfold lookupEntry in Hl. by rewrite Hk in Hl.
Qed.

(** *** The eviction loop, one entry at a time *)

Lemma evictOnce_spec c :
  cache_inv c →
  restricted c (evictOnce c) ∧
  lru (evictOnce c) = removelast (lru c) ∧
  Entries (evictOnce c) = removelast (Entries c).
Proof.
  intros Hinv. unfold evictOnce, Back.
  destruct (last (lru c)) as [el|] eqn:Hlast.
  - destruct (last_snoc_inv _ _ Hlast) as [l' Hl'].
    assert (el ∈ lru c) as Hel.
    { rewrite Hl'. apply elem_of_app. right. by left. }
    pose proof (inv_list_items c Hinv el Hel) as Hk.
    pose proof (unlink_restricted c _ el Hinv Hk) as Hres.
    rewrite (deleteLocked_present c _ el Hk).
    set (c1 := with_lru _ _) in *.
    assert (lru c1 = l') as Hlru1.
    { unfold c1. simpl. unfold Remove. rewrite Hl'. apply filter_ne_last.
      rewrite <- Hl'. apply Hinv. }
    split_and!; [done| |].
    + by rewrite Hlru1, Hl', removelast_last.
    + rewrite (restricted_Entries c c1 Hres), Hlru1. unfold Entries.
      rewrite Hl', fmap_app.
      change (entryOf c <$> [el]) with [entryOf c el].
      by rewrite removelast_last.
  - apply last_None in Hlast. split_and!.
    + by apply restricted_refl.
    + by rewrite Hlast.
    + unfold Entries. by rewrite Hlast.
Qed.

Lemma evictLoop_iter fuel : ∀ c,
  cache_inv c → 0 ≤ maxEntries c →
  (length (lru c) ≤ fuel + Z.to_nat (maxEntries c))%nat →
  evictLoop fuel c
  = Some (Nat.iter (length (lru c) - Z.to_nat (maxEntries c)) evictOnce c).
Proof.
  induction fuel as [|fuel IH]; intros c Hinv Hmax Hfuel;
    rewrite evictLoop_unfold, (inv_size c Hinv);
    destruct (Z.ltb_spec (maxEntries c) (Z.of_nat (length (lru c))))
      as [Hover|Hfits];
    try (replace (length (lru c) - Z.to_nat (maxEntries c))%nat with 0%nat
           by lia; done).
  { lia. }
  destruct (evictOnce_spec c Hinv) as (Hres & Hlru & _).
  assert (evictLoop fuel (evictOnce c)
          = Some (Nat.iter (length (lru (evictOnce c))
                            - Z.to_nat (maxEntries (evictOnce c)))
                    evictOnce (evictOnce c))) as Hrun.
  { apply IH.
    - by apply (restricted_inv c).
    - by rewrite (res_max _ _ Hres).
    - rewrite (res_max _ _ Hres), Hlru.
      destruct (lru c) as [|x l] using rev_ind; [simpl in *; lia|].
      rewrite removelast_last. rewrite length_app in Hfuel. simpl in Hfuel.
      lia. }
  assert (length (lru (evictOnce c)) = length (lru c) - 1)%nat as Hlen.
  { rewrite Hlru. destruct (lru c) as [|x l] using rev_ind; [done|].
    rewrite removelast_last, length_app. simpl. lia. }
  rewrite (res_max _ _ Hres), Hlen in Hrun.
  replace (length (lru c) - Z.to_nat (maxEntries c))%nat
    with (S (length (lru c) - 1 - Z.to_nat (maxEntries c))) by lia.
  rewrite Nat.iter_succ_r, <- Hrun. unfold evictOnce, Back.
  destruct (last (lru c)) as [el|] eqn:Hlast; [done|].
  apply last_None in Hlast. rewrite Hlast in Hover. simpl in Hover. lia.
Qed.

(** ** [Set]: the store step and capacity enforcement *)

Lemma Set_closed k v ttl now h c :
  closed c = true → Set_ k v ttl now h c = Some (Some ErrClosed, h, c).
Proof. intros Hc. unfold Set_. by rewrite Hc. Qed.

Lemma Set_open k v ttl now h c :
  closed c = false →
  Set_ k v ttl now h c =
    c' ← evictIfNeededLocked now (storeLocked k v ttl now h c).2;
    Some (None, (storeLocked k v ttl now h c).1, c').
Proof.
  intros Hc. unfold Set_, storeLocked. rewrite Hc.
  destruct (cloneBytes v h) as [v' h'].
  by destruct (items c !! k).
Qed.

Lemma expired_newEntry k v ttl now : expired now (newEntry k v ttl now) = false.
Proof.
  unfold expired, newEntry. simpl.
  destruct (Z.ltb_spec 0 ttl); [|done]. simpl.
  destruct (Z.ltb_spec now (now + ttl)); [done|lia].
Qed.

Lemma fresh_node_unlinked c :
  cache_inv c → fresh (dom (nodes c)) ∉ lru c.
Proof.
  intros Hinv Hel. destruct (inv_list c Hinv _ Hel) as (e & He & _).
  apply (is_fresh (dom (nodes c))). apply elem_of_dom. by eexists.
Qed.

Lemma storeLocked_spec k v ttl now h c :
  cache_inv c →
  let c1 := (storeLocked k v ttl now h c).2 in
  let e := newEntry k (cloneBytes v h).1 ttl now in
  (storeLocked k v ttl now h c).1 = (cloneBytes v h).2 ∧
  cache_inv c1 ∧
  maxEntries c1 = maxEntries c ∧ closed c1 = closed c ∧
  cleanupEvery c1 = cleanupEvery c ∧
  Entries c1 = e :: filter (λ e', key e' ≠ k) (Entries c).
Proof.
  intros Hinv. cbn zeta. unfold storeLocked.
  destruct (cloneBytes v h) as [v' h']. cbn [fst snd].
  destruct (items c !! k) as [el|] eqn:Hk.
  - (* update in place *)
    pose proof (inv_items_lru c Hinv k el Hk) as Hel.
    pose proof (inv_entryOf_key c Hinv k el Hk) as Hkey.
    rewrite Hkey. fold (newEntry k v' ttl now).
    cbn [fst snd lru with_nodes with_lru]. unfold MoveToFront.
    rewrite decide_True by done.
    split_and!; try done.
    + split; cbn [lru items nodes with_nodes with_lru].
      * apply NoDup_cons. split; [|apply NoDup_filter, Hinv].
        rewrite list_elem_of_filter. tauto.
      * intros k' el' Hk'. split.
        -- destruct (decide (el' = el)) as [->|Hne]; [by left|].
           right. apply list_elem_of_filter. split; [done|].
           by eapply inv_items_lru.
        -- destruct (decide (el' = el)) as [->|Hne].
           ++ rewrite lookup_insert_eq. eexists. split; [done|]. simpl.
              by rewrite <- Hkey, (inv_entryOf_key c Hinv k' el).
           ++ rewrite lookup_insert_ne by done.
              by apply (inv_index c Hinv).
      * intros el' [->|[Hne Hel']%list_elem_of_filter]%elem_of_cons.
        -- rewrite lookup_insert_eq. by eexists.
        -- rewrite lookup_insert_ne by done. by apply (inv_list c Hinv).
    + unfold Entries. cbn [lru with_lru with_nodes]. rewrite fmap_cons.
      f_equal.
      * unfold entryOf. simpl. by rewrite lookup_insert_eq.
      * change (entryOf c <$> lru c) with (Entries c).
        rewrite <- (inv_Entries_filter_key c k Hinv el Hk).
        apply list_fmap_ext. intros i x [Hne _]%list_elem_of_lookup_2%list_elem_of_filter.
        unfold entryOf. simpl. by rewrite lookup_insert_ne.
  - (* a new element at the front *)
    pose proof (fresh_node_unlinked c Hinv) as Hfresh.
    set (el := fresh (dom (nodes c))) in *.
    cbn [fst snd lru items nodes with_nodes with_lru with_items].
    unfold PushFront.
    split_and!; try done.
    + split; cbn [lru items nodes with_nodes with_lru with_items].
      * apply NoDup_cons. split; [done|apply Hinv].
      * intros k' el'. destruct (decide (k' = k)) as [->|Hne].
        -- rewrite lookup_insert_eq. intros [= <-]. split; [by left|].
           rewrite lookup_insert_eq. by eexists.
        -- rewrite lookup_insert_ne by done. intros Hk'.
           pose proof (inv_items_lru c Hinv k' el' Hk') as Hel'.
           split; [by right|]. rewrite lookup_insert_ne by congruence.
           by apply (inv_index c Hinv).
      * intros el' [->|Hel']%elem_of_cons.
        -- rewrite lookup_insert_eq. eexists. split; [done|]. simpl.
           by rewrite lookup_insert_eq.
        -- rewrite lookup_insert_ne by congruence.
           destruct (inv_list c Hinv el' Hel') as (e' & He' & Hk').
           exists e'. split; [done|]. rewrite lookup_insert_ne; [done|].
           intros ->. congruence.
    + unfold Entries. cbn [lru with_lru with_nodes with_items]. rewrite fmap_cons.
      f_equal.
      * unfold entryOf. simpl. by rewrite lookup_insert_eq.
      * change (entryOf c <$> lru c) with (Entries c).
        rewrite inv_Entries_absent by done.
        apply list_fmap_ext. intros i x Hx%list_elem_of_lookup_2.
        unfold entryOf. simpl. rewrite lookup_insert_ne; [done|]. congruence.
Qed.

Lemma evictIfNeededLocked_Entries now c :
  cache_inv c →
  ∃ c', evictIfNeededLocked now c = Some c' ∧ restricted c c' ∧
    Entries c' =
      if maxEntries c <=? 0 then Entries c
      else take (Z.to_nat (maxEntries c))
             (filter (λ e, expired now e = false) (Entries c)).
Proof.
  intros Hinv. destruct (Z.leb_spec (maxEntries c) 0) as [Hle|Hlt].
  - exists c. split_and!; [by apply evictIfNeededLocked_unbounded| |done].
    by apply restricted_refl.
  - destruct (evictIfNeededLocked_bounded now c Hinv Hlt) as (c' & Hrun & Hres & Hl).
    exists c'. split_and!; [done..|].
    rewrite (restricted_Entries c c' Hres), Hl, fmap_take.
    by rewrite Entries_filter_live.
Qed.

(** What a [Set] on an open cache does, on the list of entries. *)
Lemma Set_spec k v ttl now h c :
  cache_inv c → closed c = false →
  let e := newEntry k (cloneBytes v h).1 ttl now in
  let rest := filter (λ e', key e' ≠ k) (Entries c) in
  ∃ c', Set_ k v ttl now h c = Some (None, (cloneBytes v h).2, c') ∧
    cache_inv c' ∧ maxEntries c' = maxEntries c ∧ closed c' = false ∧
    cleanupEvery c' = cleanupEvery c ∧
    Entries c' =
      if maxEntries c <=? 0 then e :: rest
      else e :: take (Z.to_nat (maxEntries c) - 1)
                  (filter (λ e', expired now e' = false) rest).
Proof.
  intros Hinv Hopen. cbn zeta. rewrite Set_open by done.
  destruct (storeLocked_spec k v ttl now h c Hinv)
    as (Hh & Hinv1 & Hm1 & Hc1 & He1 & HE1).
  set (c1 := (storeLocked k v ttl now h c).2) in *.
  destruct (evictIfNeededLocked_Entries now c1 Hinv1) as (c' & Hrun & Hres & HE).
  rewrite Hrun. simpl. rewrite Hh. exists c'.
  split_and!; try done.
  - by apply (restricted_inv c1).
  - by rewrite (res_max _ _ Hres).
  - by rewrite (res_closed _ _ Hres), Hc1.
  - by rewrite (res_every _ _ Hres).
  - rewrite HE, Hm1, HE1. destruct (Z.leb_spec (maxEntries c) 0); [done|].
    rewrite filter_cons, decide_True by apply expired_newEntry.
    replace (Z.to_nat (maxEntries c)) with (S (Z.to_nat (maxEntries c) - 1))
      at 1 by lia.
    done.
Qed.

(** ** [Get], [Delete] and the worker, on the list of entries *)

Lemma moveToFront_spec c k el :
  cache_inv c → items c !! k = Some el →
  let c' := with_lru (MoveToFront el (lru c)) c in
  cache_inv c' ∧
  Entries c' = entryOf c el :: filter (λ e, key e ≠ k) (Entries c).
Proof.
  intros Hinv Hk. cbn zeta.
  pose proof (inv_items_lru c Hinv k el Hk) as Hel.
  unfold MoveToFront. rewrite decide_True by done. split.
  - split; cbn [lru items nodes with_lru].
    + apply NoDup_cons. split; [|apply NoDup_filter, Hinv].
      rewrite list_elem_of_filter. tauto.
    + intros k' el' Hk'. split; [|by apply (inv_index c Hinv)].
      destruct (decide (el' = el)) as [->|Hne]; [by left|].
      right. apply list_elem_of_filter. split; [done|].
      by eapply inv_items_lru.
    + intros el' Hel'. apply (inv_list c Hinv).
      apply elem_of_cons in Hel' as [->|[_ ?]%list_elem_of_filter]; done.
  - unfold Entries at 1. cbn [lru with_lru]. rewrite fmap_cons.
    by rewrite <- (inv_Entries_filter_key c k Hinv el Hk).
Qed.

Lemma deleteLocked_Entries c k :
  cache_inv c →
  Entries (deleteLocked k c) = filter (λ e, key e ≠ k) (Entries c).
Proof.
  intros Hinv.
  rewrite (restricted_Entries c) by by apply deleteLocked_restricted.
  unfold deleteLocked. destruct (items c !! k) as [el|] eqn:Hk.
  - cbn [lru with_lru]. by apply inv_Entries_filter_key.
  - by rewrite inv_Entries_absent.
Qed.

Lemma Get_absent k now h c :
  items c !! k = None → Get k now h c = (None, false, h, c).
Proof. intros Hk. unfold Get, GetRLocked. by rewrite Hk. Qed.

Lemma Get_expired k now h c el :
  items c !! k = Some el → expired now (entryOf c el) = true →
  Get k now h c = (None, false, h, deleteLocked k c).
Proof.
  intros Hk Hex. unfold Get, GetRLocked. rewrite Hk, Hex. simpl.
  unfold deleteIfExpiredLocked. by rewrite Hk, Hex.
Qed.

Lemma Get_live k now h c el :
  items c !! k = Some el → expired now (entryOf c el) = false →
  Get k now h c =
    ((cloneBytes (value (entryOf c el)) h).1, true,
     (cloneBytes (value (entryOf c el)) h).2,
     with_lru (MoveToFront el (lru c)) c).
Proof.
  intros Hk Hex. unfold Get, GetRLocked. rewrite Hk, Hex. simpl.
  rewrite Hk, Hex.
  by destruct (cloneBytes _ h).
Qed.

Lemma Delete_closed k c : closed c = true → Delete k c = (Some ErrClosed, c).
Proof. intros Hc. unfold Delete. by rewrite Hc. Qed.

Lemma Delete_open k c : closed c = false → Delete k c = (None, deleteLocked k c).
Proof. intros Hc. unfold Delete. by rewrite Hc. Qed.

Lemma expiryTick_spec now c :
  cache_inv c →
  restricted c (expiryTick now c) ∧
  Entries (expiryTick now c)
    = filter (λ e, expired now e = false) (Entries c).
Proof.
  intros Hinv. destruct (deleteExpiredLocked_spec now c Hinv) as (Hres & Hl & _).
  split; [done|]. unfold expiryTick.
  by rewrite (restricted_Entries c _ Hres), Hl, Entries_filter_live.
Qed.

(** The second critical section is safe on whatever cache it finds, also
    when other operations ran since the key was seen under the read lock:
    it keeps the invariant; it reports found only for a key that is live in
    the cache as it is now, with a copy of the value stored now; and when it
    reports not-found it has removed at most the entry of its own key. *)
Lemma GetLocked_safe s k now h c :
  cache_inv c →
  let r := GetLocked s k now h c in
  cache_inv r.2 ∧
  (found r = true →
     s = Fresh ∧ ∃ e, lookupEntry c k = Some e ∧ expired now e = false ∧
       r.1 = ((cloneBytes (value e) h).1, true, (cloneBytes (value e) h).2) ∧
       Entries r.2 = e :: filter (λ e', key e' ≠ k) (Entries c)) ∧
  (found r = false →
     r.1 = (None, false, h) ∧ restricted c r.2 ∧
     ∀ k', k' ≠ k → items r.2 !! k' = items c !! k').
Proof.
  intros Hinv. cbn zeta.
  pose proof (deleteLocked_restricted c k Hinv) as Hdel.
  pose proof (restricted_refl c Hinv) as Hrefl.
  destruct s; cbn [GetLocked].
  - by split_and!.
  - unfold deleteIfExpiredLocked. destruct (items c !! k) as [el|] eqn:Hk.
    2:{ by split_and!. }
    destruct (expired now (entryOf c el)); cbn [snd]; [|by split_and!].
    split_and!; [by apply (restricted_inv c)|done|].
    intros _. split_and!; [done..|]. intros k' Hne. by apply deleteLocked_other.
  - destruct (items c !! k) as [el|] eqn:Hk.
    2:{ by split_and!. }
    destruct (expired now (entryOf c el)) eqn:Hex.
    + split_and!; [by apply (restricted_inv c)|done|].
      intros _. split_and!; [done..|]. intros k' Hne. by apply deleteLocked_other.
    + destruct (moveToFront_spec c k el Hinv Hk) as [Hinv' HE].
      destruct (cloneBytes (value (entryOf c el)) h) as [out h'] eqn:Hcl.
      cbn [fst snd]. split_and!; [done| |done].
      intros _. split; [done|]. exists (entryOf c el).
      rewrite Hcl. split_and!; try done. by apply inv_lookupEntry.
Qed.

Lemma GetLocked_flag s k now h c :
  closed (GetLocked s k now h c).2 = closed c.
Proof.
  unfold GetLocked, deleteIfExpiredLocked, deleteLocked.
  destruct s; try done.
  - destruct (items c !! k) as [el|]; [|done].
    by destruct (expired now (entryOf c el)).
  - destruct (items c !! k) as [el|]; [|done].
    destruct (expired now (entryOf c el)); [done|].
    by destruct (cloneBytes _ h).
Qed.

Lemma GetLocked_max s k now h c :
  maxEntries (GetLocked s k now h c).2 = maxEntries c.
Proof.
  unfold GetLocked, deleteIfExpiredLocked, deleteLocked.
  destruct s; try done.
  - destruct (items c !! k) as [el|]; [|done].
    by destruct (expired now (entryOf c el)).
  - destruct (items c !! k) as [el|]; [|done].
    destruct (expired now (entryOf c el)); [done|].
    by destruct (cloneBytes _ h).
Qed.

(** ** A checker for the invariant *)

Lemma cache_invb_sound c : cache_invb c = true → cache_inv c.
Proof.
  unfold cache_invb. rewrite !andb_true_iff, !forallb_forall.
  intros [[Hnd Hidx] Hlst]. apply bool_decide_eq_true in Hnd. split.
  - done.
  - intros k el Hk. specialize (Hidx (k, el)). simpl in Hidx.
    rewrite <- list_elem_of_In, elem_of_map_to_list in Hidx.
    specialize (Hidx Hk). apply andb_true_iff in Hidx as [Hin He].
    apply bool_decide_eq_true in Hin. split; [done|].
    destruct (nodes c !! el) as [e|]; [|done].
    exists e. split; [done|]. by apply bool_decide_eq_true in He.
  - intros el Hel. specialize (Hlst el). rewrite <- list_elem_of_In in Hlst.
    specialize (Hlst Hel). destruct (nodes c !! el) as [e|]; [|done].
    exists e. split; [done|]. by apply bool_decide_eq_true in Hlst.
Qed.

(** ** Every operation keeps the invariant *)

Lemma New_inv cfg : cache_inv (New cfg).
Proof.
  split; simpl.
  - apply NoDup_nil_2.
  - intros k el Hk. by rewrite lookup_empty in Hk.
  - intros el Hel. by apply elem_of_nil in Hel.
Qed.

Lemma with_closed_inv b c : cache_inv c → cache_inv (with_closed b c).
Proof. intros [H1 H2 H3]. by split. Qed.

Lemma Close_spec c :
  (Close c).1 = None ∧ closed (Close c).2 = true ∧
  (Close c).2 = with_closed true c ∧
  (closed c = true → (Close c).2 = c).
Proof.
  unfold Close. destruct c as [m i l n e []]; simpl; split_and!; done.
Qed.

Lemma Keys_rest c k :
  key <$> filter (λ e, key e ≠ k) (Entries c) = filter (λ k', k' ≠ k) (Keys c).
Proof. rewrite Keys_Entries. by apply fmap_filter_compat. Qed.

Lemma step_spec now o h c :
  cache_inv c →
  ∃ r h' c', step now o (h, c) = Some (r, (h', c')) ∧
    cache_inv c' ∧ maxEntries c' = maxEntries c ∧
    (closed c = true → closed c' = true) ∧
    keysStep o r (Keys c) (Keys c').
Proof.
  intros Hinv. destruct o as [k v ttl|k|k| | | | |s k]; cbn [step].
  - (* Set *)
    destruct (closed c) eqn:Hc.
    + rewrite Set_closed by done. simpl. eexists _, _, _.
      split_and!; try done. by unfold keysStep; simpl.
    + destruct (Set_spec k v ttl now h c Hinv Hc)
        as (c' & -> & Hinv' & Hm & Hc' & _ & HE).
      simpl. eexists _, _, _. split_and!; try done.
      unfold keysStep. simpl. rewrite (Keys_Entries c'), HE.
      destruct (maxEntries c <=? 0); rewrite fmap_cons; simpl;
        eexists; (split; [done|]); rewrite <- Keys_rest.
      * done.
      * apply fmap_sublist. etrans; [apply sublist_take|apply sublist_filter].
  - (* Get *)
    destruct (items c !! k) as [el|] eqn:Hk.
    2:{ rewrite Get_absent by done. eexists _, _, _.
        split_and!; try done. by unfold keysStep; simpl. }
    destruct (expired now (entryOf c el)) eqn:Hex.
    + rewrite (Get_expired k now h c el) by done.
      pose proof (deleteLocked_restricted c k Hinv) as Hres.
      eexists _, _, _. split_and!; try done.
      * by apply (restricted_inv c).
      * by rewrite (res_max _ _ Hres).
      * by rewrite (res_closed _ _ Hres).
      * by apply restricted_Keys_sublist.
    + rewrite (Get_live k now h c el) by done.
      destruct (moveToFront_spec c k el Hinv Hk) as [Hinv' HE].
      eexists _, _, _. split_and!; try done.
      unfold keysStep. simpl. eexists. split; [|done].
      rewrite Keys_Entries, HE, fmap_cons, Keys_rest.
      by rewrite (inv_entryOf_key c Hinv k el).
  - (* Delete *)
    destruct (closed c) eqn:Hc.
    + rewrite Delete_closed by done. eexists _, _, _.
      split_and!; try done. by unfold keysStep; simpl.
    + rewrite Delete_open by done.
      pose proof (deleteLocked_restricted c k Hinv) as Hres.
      eexists _, _, _. split_and!; try done.
      * by apply (restricted_inv c).
      * by rewrite (res_max _ _ Hres).
      * by apply restricted_Keys_sublist.
  - eexists _, _, _. split_and!; try done. by unfold keysStep; simpl.
  - eexists _, _, _. split_and!; try done. by unfold keysStep; simpl.
  - (* Close *)
    destruct (Close c) as [err c'] eqn:HC.
    destruct (Close_spec c) as (He & Hc & Hw & _). rewrite HC in *.
    simpl in *. subst. eexists _, _, _. split_and!; try done.
    + by apply with_closed_inv.
    + by unfold keysStep; simpl.
  - (* one tick of the worker *)
    destruct (0 <? cleanupEvery c).
    2:{ eexists _, _, _. split_and!; try done. by unfold keysStep; simpl. }
    destruct (expiryTick_spec now c Hinv) as [Hres _].
    eexists _, _, _. split_and!; try done.
    + by apply (restricted_inv c).
    + by rewrite (res_max _ _ Hres).
    + by rewrite (res_closed _ _ Hres).
    + by apply restricted_Keys_sublist.
  - (* the second critical section of a Get *)
    destruct (GetLocked_safe s k now h c Hinv) as (Hinv' & Hfound & Hnot).
    pose proof (GetLocked_flag s k now h c) as Hflag.
    pose proof (GetLocked_max s k now h c) as Hmax.
    destruct (GetLocked s k now h c) as [[[out fnd] h1] c1].
    unfold found in *. cbn [fst snd] in *.
    eexists _, _, _. split_and!; try done; [congruence|].
    unfold keysStep. destruct fnd; simpl.
    + destruct (Hfound eq_refl) as (_ & e & He & _ & _ & HE).
      eexists. split; [|done].
      rewrite Keys_Entries, HE, fmap_cons, Keys_rest.
      by apply inv_lookupEntry_Entries in He as [_ ->].
    + destruct (Hnot eq_refl) as (_ & Hres & _).
      by apply restricted_Keys_sublist.
Qed.

(** ** Recency along a history *)

Lemma Forall_sublist_of {A} (P : A → Prop) (l1 l2 : list A) :
  l1 `sublist_of` l2 → Forall P l2 → Forall P l1.
Proof.
  rewrite !Forall_forall. intros Hsub HP x Hx.
  apply HP. by eapply elem_of_sublist.
Qed.

Lemma StronglySorted_sublist {A} (R : A → A → Prop) (l1 l2 : list A) :
  l1 `sublist_of` l2 → StronglySorted R l2 → StronglySorted R l1.
Proof.
  induction 1 as [|x l1 l2 Hsub IH|x l1 l2 Hsub IH]; intros Hs.
  - constructor.
  - apply StronglySorted_cons in Hs as [Hall Hs].
    apply StronglySorted_cons. split; [|by apply IH].
    by eapply Forall_sublist_of.
  - apply StronglySorted_cons in Hs as [_ Hs]. by apply IH.
Qed.

Lemma recencyOrdered_sublist i s ks ks' :
  ks' `sublist_of` ks → recencyOrdered i s ks → recencyOrdered (S i) s ks'.
Proof.
  intros Hsub (Hlt & Hall & Hs). split_and!.
  - intros k t Hk. specialize (Hlt k t Hk). lia.
  - by eapply Forall_sublist_of.
  - by eapply StronglySorted_sublist.
Qed.

Lemma recencyOrdered_touch i s ks k tl :
  tl `sublist_of` filter (λ k', k' ≠ k) ks →
  recencyOrdered i s ks → recencyOrdered (S i) (<[k := i]> s) (k :: tl).
Proof.
  intros Hsub (Hlt & Hall & Hs).
  assert (Forall (λ k', k' ≠ k ∧ is_Some (s !! k')) tl) as Htl.
  { eapply Forall_sublist_of; [done|]. apply Forall_forall.
    intros k' [Hne Hin]%list_elem_of_filter. split; [done|].
    by eapply Forall_forall in Hall. }
  split_and!.
  - intros k' t. destruct (decide (k' = k)) as [->|Hne].
    + rewrite lookup_insert_eq. intros [= <-]. lia.
    + rewrite lookup_insert_ne by done. intros Hk. specialize (Hlt k' t Hk). lia.
  - constructor.
    + rewrite lookup_insert_eq. by eexists.
    + eapply Forall_impl; [apply Htl|]. intros k' [Hne Hk']. simpl.
      by rewrite lookup_insert_ne.
  - apply StronglySorted_cons. split.
    + eapply Forall_impl; [apply Htl|]. intros k' [Hne [t Hk']]. simpl.
      exists i, t. rewrite lookup_insert_eq, lookup_insert_ne by done.
      split_and!; [done..|]. by apply (Hlt k').
    + assert (StronglySorted (usedAfter s) tl) as Hs'.
      { eapply StronglySorted_sublist; [done|].
        eapply StronglySorted_sublist; [apply sublist_filter|done]. }
      clear Hsub. induction Hs' as [|k1 tl' Hs' IH Hall']; [constructor|].
      apply Forall_cons in Htl as [[Hne1 _] Htl].
      constructor; [by apply IH|].
      rewrite Forall_forall in Hall', Htl. apply Forall_forall.
      intros k2 Hk2. destruct (Hall' k2 Hk2) as (t1 & t2 & H1 & H2 & Hlt').
      destruct (Htl k2 Hk2) as [Hne2 _].
      exists t1, t2. by rewrite !lookup_insert_ne.
Qed.

Lemma recencyOrdered_step o r i s ks ks' :
  keysStep o r ks ks' → recencyOrdered i s ks →
  recencyOrdered (stampStep (i, s) (o, r)).1 (stampStep (i, s) (o, r)).2 ks'.
Proof.
  unfold keysStep, stampStep. cbn [fst snd].
  destruct (touched o r) as [k|]; cbn [fst snd].
  - intros (tl & -> & Hsub). by apply recencyOrdered_touch.
  - apply recencyOrdered_sublist.
Qed.

(** A history from a state with the invariant runs to its end, keeps the
    invariant, never reopens the cache, and keeps the keys in the order of
    their last use. *)
Lemma run_spec evs : ∀ h c i s,
  cache_inv c → recencyOrdered i s (Keys c) →
  ∃ rs h' c', run evs (h, c) = Some (rs, (h', c')) ∧
    length rs = length evs ∧
    cache_inv c' ∧ maxEntries c' = maxEntries c ∧
    (closed c = true → closed c' = true) ∧
    let st := fold_left stampStep (zip evs.*2 rs) (i, s) in
    recencyOrdered st.1 st.2 (Keys c').
Proof.
  induction evs as [|[now o] evs IH]; intros h c i s Hinv Hrec.
  - exists [], h, c. by split_and!.
  - destruct (step_spec now o h c Hinv)
      as (r & h1 & c1 & Hstep & Hinv1 & Hm1 & Hc1 & Hks).
    pose proof (recencyOrdered_step o r i s _ _ Hks Hrec) as Hrec1.
    destruct (IH h1 c1 _ _ Hinv1 Hrec1)
      as (rs & h' & c' & Hrun & Hlen & Hinv' & Hm' & Hc' & Hrec').
    exists (r :: rs), h', c'. cbn [run]. rewrite Hstep. simpl. rewrite Hrun.
    simpl. split_and!; try done.
    + by rewrite Hlen.
    + by rewrite Hm'.
    + tauto.
    + by destruct (stampStep (i, s) (o, r)).
Qed.

(** ** The tests of the repository, run on the model *)

(** Times are in milliseconds. *)

Example TestLRUEviction :
  results (run lruExample
             (demoHeap, New {| MaxEntries := 2; CleanupInterval := 0 |}))
  = Some [RErr None; RErr None; RGet (Some 4%nat) true; RErr None;
          RGet None false; RGet (Some 6%nat) true; RGet (Some 7%nat) true].
Proof. vm_compute. reflexivity. Qed.

Example TestTTL_LazyExpirationOnGet :
  results (run [(0, OpSet "k" (Some 0%nat) 30); (1, OpGet "k");
                (81, OpGet "k"); (82, OpKeys)]
             (demoHeap, New {| MaxEntries := 10; CleanupInterval := 0 |}))
  = Some [RErr None; RGet (Some 3%nat) true; RGet None false; RKeys []].
Proof. vm_compute. reflexivity. Qed.

Example TestTTL_BackgroundCleanupRemovesWithoutGet :
  results (run [(0, OpSet "ttl" (Some 0%nat) 20); (10, OpTick); (11, OpKeys);
                (20, OpTick); (21, OpKeys)]
             (demoHeap, New {| MaxEntries := 10; CleanupInterval := 10 |}))
  = Some [RErr None; RDone; RKeys ["ttl"]; RDone; RKeys []].
Proof. vm_compute. reflexivity. Qed.

Example TestClose_IdempotentAndPreventsMutation :
  results (run [(0, OpClose); (1, OpClose); (2, OpSet "k" (Some 0%nat) 0);
                (3, OpDelete "k")]
             (demoHeap, New {| MaxEntries := 1; CleanupInterval := 10 |}))
  = Some [RErr None; RErr None; RErr (Some ErrClosed); RErr (Some ErrClosed)].
Proof. vm_compute. reflexivity. Qed.

(** Without a worker a tick is nothing, and an unbounded cache keeps an
    expired entry through a Set. *)
Example unbounded_keeps_expired :
  results (run [(0, OpSet "a" None 1); (10, OpSet "b" None 0); (11, OpTick);
                (12, OpKeys); (12, OpLen)]
             (demoHeap, New {| MaxEntries := 0; CleanupInterval := 0 |}))
  = Some [RErr None; RErr None; RDone; RKeys ["b"; "a"]; RLen 2].
Proof. vm_compute. reflexivity. Qed.

(** ** Capacity enforcement in Set *)

Lemma expired_spec now e :
  expired now e = true ↔ hasExpiry e = true ∧ expiresAt e ≤ now.
Proof.
  unfold expired. rewrite andb_true_iff, negb_true_iff, Z.ltb_ge. done.
Qed.

Lemma expired_false_spec now e :
  expired now e = false ↔ hasExpiry e = false ∨ now < expiresAt e.
Proof.
  unfold expired. rewrite andb_false_iff, negb_false_iff, Z.ltb_lt. done.
Qed.

Lemma length_take_lt {A} (n : nat) (l : list A) x :
  x ∈ l → x ∉ take n l → length (take n l) = n.
Proof.
  intros Hin Hnot. rewrite length_take. 
  destruct (decide (length l ≤ n)%nat) as [Hle|]; [|lia].
  rewrite take_ge in Hnot by done. done.
Qed.

(** C1. On an open cache with [maxEntries > 0] a successful Set runs
    capacity enforcement on the stored state: first the sweep removes every
    expired entry (expiry set and expiry <= now) wherever it stands in the
    recency order, then the loop evicts from the LRU end until at most
    [maxEntries] entries are left.  So after Set the count is at most
    [maxEntries], no expired entry is left, and a live entry is evicted only
    from a cache full of live entries.  With [maxEntries <= 0] Set leaves
    the stored state as it is: no sweep, no eviction.  ([take n] keeps the
    first [n] entries, the most recently used; the loop reaches it by
    removing the last entry, [evictOnce], as many times as there are
    entries above [maxEntries].) *)
Theorem C1_set_capacity_enforcement k v ttl now h c :
  cache_inv c → closed c = false →
  let s := storeLocked k v ttl now h c in
  ∃ c', Set_ k v ttl now h c = Some (None, s.1, c') ∧
    Entries s.2 = newEntry k (cloneBytes v h).1 ttl now
                  :: filter (λ e', key e' ≠ k) (Entries c) ∧
    evictIfNeededLocked now s.2 = Some c' ∧
    (maxEntries c ≤ 0 → c' = s.2) ∧
    (0 < maxEntries c →
       let swept := (deleteExpiredLocked now s.2).2 in
       (∀ e, e ∈ Entries swept ↔
             e ∈ Entries s.2 ∧ ¬ (hasExpiry e = true ∧ expiresAt e ≤ now)) ∧
       Entries swept = filter (λ e, expired now e = false) (Entries s.2) ∧
       evictLoop (size (items swept)) swept = Some c' ∧
       c' = Nat.iter (length (Entries swept) - Z.to_nat (maxEntries c))
              evictOnce swept ∧
       (∀ c0, cache_inv c0 →
              Entries (evictOnce c0) = removelast (Entries c0)) ∧
       Entries c' = take (Z.to_nat (maxEntries c)) (Entries swept) ∧
       Len c' ≤ maxEntries c ∧
       Forall (λ e, ¬ (hasExpiry e = true ∧ expiresAt e ≤ now)) (Entries c') ∧
       (∀ e, e ∈ Entries s.2 → expired now e = false →
             e ∉ Entries c' → Len c' = maxEntries c)).
Proof.
  intros Hinv Hopen s.
  destruct (storeLocked_spec k v ttl now h c Hinv)
    as (Hh & Hinv1 & Hm1 & Hc1 & He1 & HE1).
  fold s in Hh, Hinv1, Hm1, Hc1, He1, HE1.
  rewrite Set_open by done. fold s.
  destruct (Z.leb_spec (maxEntries c) 0) as [Hle|Hlt].
  - exists s.2. rewrite evictIfNeededLocked_unbounded by lia. simpl.
    split_and!; try done. lia.
  - destruct (evictIfNeededLocked_bounded now s.2 Hinv1) as (c' & Hrun & Hres & Hl);
      [lia|].
    destruct (deleteExpiredLocked_spec now s.2 Hinv1) as (Hres1 & Hl1 & _).
    exists c'. rewrite Hrun. simpl. split_and!; try done; [lia|].
    intros _. set (swept := (deleteExpiredLocked now s.2).2) in *.
    assert (Entries swept = filter (λ e, expired now e = false) (Entries s.2))
      as HEs.
    { by rewrite (restricted_Entries s.2 swept Hres1), Hl1, Entries_filter_live. }
    assert (Entries c' = take (Z.to_nat (maxEntries c)) (Entries swept)) as HE'.
    { rewrite (restricted_Entries s.2 c' Hres), Hl, fmap_take.
      by rewrite Entries_filter_live, Hm1, HEs. }
    assert (cache_inv c') as Hinv' by by apply (restricted_inv s.2).
    assert (Len c' = Z.of_nat (length (Entries c'))) as HLen.
    { unfold Len, Entries. by rewrite length_fmap, (inv_size c' Hinv'). }
    split_and!; try done.
    + intros e. rewrite HEs, list_elem_of_filter, <- expired_spec.
      rewrite not_true_iff_false. tauto.
    + unfold evictIfNeededLocked in Hrun.
      destruct (Z.leb_spec (maxEntries s.2) 0); [lia|done].
    + assert (cache_inv swept) as Hinvs by by apply (restricted_inv s.2).
      unfold evictIfNeededLocked in Hrun.
      destruct (Z.leb_spec (maxEntries s.2) 0); [lia|]. fold swept in Hrun.
      rewrite evictLoop_iter in Hrun; try done.
      * injection Hrun as <-. unfold Entries. rewrite length_fmap.
        by rewrite (res_max _ _ Hres1), Hm1.
      * rewrite (res_max _ _ Hres1). lia.
      * rewrite (inv_size swept Hinvs). lia.
    + intros c0 Hinv0. by apply evictOnce_spec.
    + rewrite HLen, HE', length_take. lia.
    + rewrite HE', HEs. apply Forall_forall. intros e He.
      apply elem_of_take in He as (i & He & _).
      apply list_elem_of_lookup_2, list_elem_of_filter in He as [He _].
      rewrite <- expired_spec. by rewrite He.
    + intros e He Hlive Hnot. rewrite HLen, HE'. rewrite HE' in Hnot.
      rewrite (length_take_lt _ _ e); [lia| |done].
      rewrite HEs. by apply list_elem_of_filter.
Qed.

Lemma C1_witness :
  cache_inv demoStale ∧ closed demoStale = false ∧
  ∃ c', Set_ "c" None 0 10 demoHeap demoStale = Some (None, demoHeap, c') ∧
        Keys c' = ["c"; "b"].
Proof.
  assert (cache_inv demoStale) as Hinv
    by (apply cache_invb_sound; vm_compute; reflexivity).
  split; [exact Hinv|]. split; [reflexivity|].
  destruct (C1_set_capacity_enforcement "c" None 0 10 demoHeap demoStale
              Hinv eq_refl) as (c' & HSet & _).
  exists c'. split; [exact HSet|].
  vm_compute in HSet. injection HSet as <-. vm_compute. reflexivity.
Defined.

(** ** Copies of byte slices *)

Lemma cloneBytes_spec b h :
  contents (cloneBytes b h).2 (cloneBytes b h).1 = contents h b ∧
  ((cloneBytes b h).1 = None ↔ b = None) ∧
  (∀ l, (cloneBytes b h).1 = Some l → l ∉ dom h) ∧
  (∀ l, l ∈ dom h → (cloneBytes b h).2 !! l = h !! l).
Proof.
  destruct b as [l0|]; simpl; [|done].
  unfold new_array. pose proof (is_fresh (dom h)) as Hfresh.
  split_and!.
  - by rewrite lookup_insert_eq.
  - done.
  - by intros l [= <-].
  - intros l Hl. rewrite lookup_insert_ne; [done|]. by intros <-.
Qed.

Lemma cloneBytes_nil h : cloneBytes None h = (None, h).
Proof. done. Qed.

(** ** [Get] by cases *)

Lemma lookupEntry_Some c k e :
  lookupEntry c k = Some e →
  ∃ el, items c !! k = Some el ∧ nodes c !! el = Some e ∧ entryOf c el = e.
Proof.
  unfold lookupEntry. destruct (items c !! k) as [el|]; [|done]. simpl.
  intros He. exists el. unfold entryOf. by rewrite He.
Qed.

Lemma inv_lookupEntry_None c k :
  cache_inv c → lookupEntry c k = None ↔ items c !! k = None.
Proof.
  intros Hinv. unfold lookupEntry. destruct (items c !! k) as [el|] eqn:Hk.
  - simpl. destruct (inv_index c Hinv k el Hk) as (_ & e & -> & _). done.
  - done.
Qed.

Lemma Get_found_spec k now h c e :
  cache_inv c → lookupEntry c k = Some e → expired now e = false →
  ∃ c', Get k now h c =
          ((cloneBytes (value e) h).1, true, (cloneBytes (value e) h).2, c') ∧
    cache_inv c' ∧ closed c' = closed c ∧ maxEntries c' = maxEntries c ∧
    items c' = items c ∧ nodes c' = nodes c ∧
    Entries c' = e :: filter (λ e', key e' ≠ k) (Entries c).
Proof.
  intros Hinv (el & Hk & _ & <-)%lookupEntry_Some Hlive.
  rewrite (Get_live k now h c el) by done.
  destruct (moveToFront_spec c k el Hinv Hk) as [Hinv' HE].
  eexists. by split_and!.
Qed.

Lemma Get_stale_spec k now h c e :
  cache_inv c → lookupEntry c k = Some e → expired now e = true →
  ∃ c', Get k now h c = (None, false, h, c') ∧
    cache_inv c' ∧ closed c' = closed c ∧ maxEntries c' = maxEntries c ∧
    items c' !! k = None ∧ nodes c' = nodes c ∧
    Entries c' = filter (λ e', key e' ≠ k) (Entries c).
Proof.
  intros Hinv (el & Hk & _ & <-)%lookupEntry_Some Hex.
  rewrite (Get_expired k now h c el) by done.
  pose proof (deleteLocked_restricted c k Hinv) as Hres.
  eexists. split_and!; try done.
  - by apply (restricted_inv c).
  - by rewrite (res_closed _ _ Hres).
  - by rewrite (res_max _ _ Hres).
  - apply deleteLocked_gone.
  - by rewrite (res_nodes _ _ Hres).
  - by apply deleteLocked_Entries.
Qed.

(** C2. Get of an absent key reports not-found (and changes nothing); Get
    of a key whose entry has an expiry with now >= expiry removes the entry
    and reports not-found; Get of a live key (no expiry, or now < expiry)
    moves its entry to the front of the recency order and returns found
    with a copy of the stored value: the same bytes in an array that did
    not exist before. *)
Theorem C2_get_behaviour k now h c :
  cache_inv c →
  (items c !! k = None → Get k now h c = (None, false, h, c)) ∧
  (∀ e, lookupEntry c k = Some e → hasExpiry e = true → expiresAt e ≤ now →
     ∃ c', Get k now h c = (None, false, h, c') ∧ cache_inv c' ∧
       items c' !! k = None ∧ lookupEntry c' k = None ∧
       Entries c' = filter (λ e', key e' ≠ k) (Entries c)) ∧
  (∀ e, lookupEntry c k = Some e → hasExpiry e = false ∨ now < expiresAt e →
     ∃ out h' c', Get k now h c = (out, true, h', c') ∧ cache_inv c' ∧
       Entries c' = e :: filter (λ e', key e' ≠ k) (Entries c) ∧
       contents h' out = contents h (value e) ∧
       (out = None ↔ value e = None) ∧
       (∀ l, out = Some l → l ∉ dom h) ∧
       (∀ l, l ∈ dom h → h' !! l = h !! l)).
Proof.
  intros Hinv. split_and!.
  - apply Get_absent.
  - intros e He Hhas Hexp.
    destruct (Get_stale_spec k now h c e Hinv He)
      as (c' & HG & Hinv' & _ & _ & Hk & _ & HE).
    { by apply expired_spec. }
    exists c'. split_and!; try done. by apply inv_lookupEntry_None.
  - intros e He Hlive.
    destruct (Get_found_spec k now h c e Hinv He)
      as (c' & HG & Hinv' & _ & _ & _ & _ & HE).
    { by apply expired_false_spec. }
    destruct (cloneBytes_spec (value e) h) as (H1 & H2 & H3 & H4).
    eexists _, _, c'. by split_and!.
Qed.

Lemma C2_witness :
  cache_inv demoStale ∧
  (Get "zz" 10 demoHeap demoStale).1.1.2 = false ∧
  (Get "a" 10 demoHeap demoStale).1.1.2 = false ∧
  Keys (Get "a" 10 demoHeap demoStale).2 = ["b"] ∧
  (Get "b" 10 demoHeap demoStale).1.1.2 = true ∧
  Keys (Get "b" 10 demoHeap demoStale).2 = ["b"; "a"].
Proof.
  assert (cache_inv demoStale) as Hinv
    by (apply cache_invb_sound; vm_compute; reflexivity).
  destruct (C2_get_behaviour "zz" 10 demoHeap demoStale Hinv) as (Habs & _ & _).
  destruct (C2_get_behaviour "a" 10 demoHeap demoStale Hinv) as (_ & Hstale & _).
  destruct (C2_get_behaviour "b" 10 demoHeap demoStale Hinv) as (_ & _ & Hlive).
  destruct (Hstale (Entry "a" (Some 0%nat) 5 true))
    as (c1 & HG1 & _ & _ & _ & HE1); [vm_compute; reflexivity|done|simpl; lia|].
  destruct (Hlive (Entry "b" (Some 1%nat) 0 false))
    as (out & h2 & c2 & HG2 & _ & HE2 & _); [vm_compute; reflexivity|by left|].
  rewrite Habs by (vm_compute; reflexivity). rewrite HG1, HG2. cbn [fst snd].
  rewrite !Keys_Entries, HE1, HE2.
  split_and!; try done; vm_compute; reflexivity.
Defined.

(** ** Entries without expiry *)

Lemma expired_no_expiry now e : hasExpiry e = false → expired now e = false.
Proof. intros He. unfold expired. by rewrite He. Qed.

Lemma Get_keeps_permanent k k' now h c e :
  cache_inv c → lookupEntry c k = Some e → hasExpiry e = false →
  lookupEntry (Get k' now h c).2 k = Some e.
Proof.
  intros Hinv He Hperm.
  pose proof (proj1 (inv_lookupEntry_Entries c k e Hinv) He) as [Hin Hkey].
  destruct (lookupEntry c k') as [e'|] eqn:He'.
  - destruct (expired now e') eqn:Hex.
    + destruct (Get_stale_spec k' now h c e' Hinv He' Hex)
        as (c' & -> & Hinv' & _ & _ & _ & _ & HE).
      cbn [snd]. apply inv_lookupEntry_Entries; [done|]. split; [|done].
      rewrite HE. apply list_elem_of_filter. split; [|done].
      rewrite Hkey. intros ->. rewrite He in He'. injection He' as <-.
      by rewrite expired_no_expiry in Hex.
    + destruct (Get_found_spec k' now h c e' Hinv He' Hex)
        as (c' & -> & Hinv' & _ & _ & _ & _ & HE).
      cbn [snd]. apply inv_lookupEntry_Entries; [done|]. split; [|done].
      rewrite HE. destruct (decide (k = k')) as [->|Hne].
      * rewrite He in He'. injection He' as <-. by left.
      * right. apply list_elem_of_filter. split; [congruence|done].
  - apply inv_lookupEntry_None in He'; [|done].
    by rewrite Get_absent.
Qed.

Lemma deleteIfExpiredLocked_keeps_permanent k k' now c e :
  cache_inv c → lookupEntry c k = Some e → hasExpiry e = false →
  lookupEntry (deleteIfExpiredLocked k' now c).2 k = Some e.
Proof.
  intros Hinv He Hperm. unfold deleteIfExpiredLocked.
  destruct (items c !! k') as [el|] eqn:Hk'; [|done].
  destruct (expired now (entryOf c el)) eqn:Hex; [|done]. cbn [snd].
  pose proof (proj1 (inv_lookupEntry_Entries c k e Hinv) He) as [Hin Hkey].
  apply inv_lookupEntry_Entries.
  { apply (restricted_inv c); [done|]. by apply deleteLocked_restricted. }
  split; [|done]. rewrite deleteLocked_Entries by done.
  apply list_elem_of_filter. split; [|done].
  rewrite Hkey. intros ->.
  rewrite (inv_lookupEntry c Hinv k' el Hk') in He. injection He as <-.
  by rewrite expired_no_expiry in Hex.
Qed.

Lemma sweep_keeps_live k now c e :
  cache_inv c → lookupEntry c k = Some e → expired now e = false →
  lookupEntry (deleteExpiredLocked now c).2 k = Some e.
Proof.
  intros Hinv He Hlive.
  pose proof (proj1 (inv_lookupEntry_Entries c k e Hinv) He) as [Hin Hkey].
  destruct (expiryTick_spec now c Hinv) as [Hres HE]. unfold expiryTick in *.
  apply inv_lookupEntry_Entries; [by apply (restricted_inv c)|].
  split; [|done]. rewrite HE. by apply list_elem_of_filter.
Qed.

(** C3. Set on an open cache stores, at the front of the recency order, the
    entry of the key with a copy of the value, with expiry [now + ttl] when
    [ttl > 0] and with the no-expiry flag when [ttl <= 0]; it is the only
    entry of that key, whether the key had one before or not.  An entry
    without expiry is removed neither by a Get (lazy expiration), nor by
    the sweep of capacity enforcement, nor by a tick of the worker. *)
Theorem C3_set_stores_entry k v ttl now h c :
  cache_inv c →
  (closed c = false →
   ∃ c' e, Set_ k v ttl now h c = Some (None, (cloneBytes v h).2, c') ∧
     cache_inv c' ∧
     head (Entries c') = Some e ∧ lookupEntry c' k = Some e ∧
     key e = k ∧ value e = (cloneBytes v h).1 ∧
     contents (cloneBytes v h).2 (value e) = contents h v ∧
     (0 < ttl → hasExpiry e = true ∧ expiresAt e = now + ttl) ∧
     (ttl ≤ 0 → hasExpiry e = false) ∧
     (∀ e', e' ∈ Entries c' → key e' = k → e' = e) ∧
     Entries c' =
       if maxEntries c <=? 0
       then e :: filter (λ e', key e' ≠ k) (Entries c)
       else e :: take (Z.to_nat (maxEntries c) - 1)
                   (filter (λ e', expired now e' = false)
                      (filter (λ e', key e' ≠ k) (Entries c)))) ∧
  (∀ e, lookupEntry c k = Some e → hasExpiry e = false →
     (∀ k' now' h', lookupEntry (Get k' now' h' c).2 k = Some e) ∧
     (∀ k' now', lookupEntry (deleteIfExpiredLocked k' now' c).2 k = Some e) ∧
     (∀ now', lookupEntry (deleteExpiredLocked now' c).2 k = Some e) ∧
     (∀ now', lookupEntry (expiryTick now' c) k = Some e)).
Proof.
  intros Hinv. split.
  - intros Hopen.
    destruct (Set_spec k v ttl now h c Hinv Hopen)
      as (c' & HS & Hinv' & _ & _ & _ & HE).
    set (e := newEntry k (cloneBytes v h).1 ttl now) in *.
    assert (head (Entries c') = Some e) as Hhead.
    { rewrite HE. by destruct (maxEntries c <=? 0). }
    assert (e ∈ Entries c') as Hin.
    { destruct (Entries c'); [done|]. injection Hhead as ->. by left. }
    assert (lookupEntry c' k = Some e) as Hl
      by by apply inv_lookupEntry_Entries.
    exists c', e. split_and!; try done.
    + unfold e. cbn [value newEntry]. by destruct (cloneBytes_spec v h) as (-> & _).
    + intros Httl. unfold e, newEntry. simpl.
      by destruct (Z.ltb_spec 0 ttl); [|lia].
    + intros Httl. unfold e, newEntry. simpl.
      by destruct (Z.ltb_spec 0 ttl); [lia|].
    + intros e' He' Hk'.
      assert (lookupEntry c' k = Some e') as Hl'
        by by apply inv_lookupEntry_Entries.
      congruence.
  - intros e He Hperm. split_and!.
    + intros k' now' h'. by apply Get_keeps_permanent.
    + intros k' now'. by apply deleteIfExpiredLocked_keeps_permanent.
    + intros now'. apply sweep_keeps_live; [done..|].
      by apply expired_no_expiry.
    + intros now'. apply sweep_keeps_live; [done..|].
      by apply expired_no_expiry.
Qed.

Lemma C3_witness :
  cache_inv demoStale ∧
  ∃ c', Set_ "b" (Some 0%nat) 7 10 demoHeap demoStale
          = Some (None, <[2%nat := [Byte.x41]]> demoHeap, c') ∧
        Entries c' = [Entry "b" (Some 2%nat) 17 true] ∧
        lookupEntry (expiryTick 1000 demoStale) "b"
          = Some (Entry "b" (Some 1%nat) 0 false).
Proof.
  assert (cache_inv demoStale) as Hinv
    by (apply cache_invb_sound; vm_compute; reflexivity).
  split; [exact Hinv|].
  destruct (C3_set_stores_entry "b" (Some 0%nat) 7 10 demoHeap demoStale Hinv)
    as [Hset _].
  destruct (C3_set_stores_entry "b" None 0 0 demoHeap demoStale Hinv)
    as [_ Hperm].
  destruct (Hset eq_refl) as (c' & e & HS & _ & _ & _ & _ & _ & _ & _ & _ & _ & HE).
  destruct (Hperm (Entry "b" (Some 1%nat) 0 false)) as (_ & _ & _ & Htick);
    [vm_compute; reflexivity|done|].
  exists c'. split_and!.
  - rewrite HS. vm_compute. reflexivity.
  - clear HE. vm_compute in HS. injection HS as <-. vm_compute. reflexivity.
  - apply Htick.
Defined.

(** ** LRU eviction: the keys a Get finds *)

Lemma Get_found_iff k now h c :
  cache_inv c →
  found (Get k now h c) = true ↔
  ∃ e, lookupEntry c k = Some e ∧ expired now e = false.
Proof.
  intros Hinv. unfold found. destruct (lookupEntry c k) as [e|] eqn:He.
  - destruct (expired now e) eqn:Hex.
    + destruct (Get_stale_spec k now h c e Hinv He Hex) as (c' & -> & _).
      simpl. split; [done|]. intros (e' & [= <-] & Hlive). congruence.
    + destruct (Get_found_spec k now h c e Hinv He Hex) as (c' & -> & _).
      simpl. split; [|done]. intros _. by exists e.
  - apply inv_lookupEntry_None in He; [|done]. rewrite Get_absent by done.
    simpl. split; [done|]. by intros (e' & [=] & _).
Qed.

Lemma Get_found_permanent k now h c :
  cache_inv c → Forall (λ e, hasExpiry e = false) (Entries c) →
  found (Get k now h c) = true ↔ k ∈ Keys c.
Proof.
  intros Hinv Hperm. rewrite Get_found_iff, inv_Keys_lookup by done. split.
  - intros (e & (el & Hk & _)%lookupEntry_Some & _). by eexists.
  - intros [el Hk]. exists (entryOf c el). split; [by apply inv_lookupEntry|].
    apply expired_no_expiry. rewrite Forall_forall in Hperm. apply Hperm.
    unfold Entries. apply list_elem_of_fmap. exists el. split; [done|].
    by eapply inv_items_lru.
Qed.

(** ** Set of a new key, and of a key already there, with nothing expired *)

Lemma Set_all_live k v ttl now h c :
  cache_inv c → closed c = false →
  Forall (λ e, expired now e = false) (Entries c) →
  let e := newEntry k (cloneBytes v h).1 ttl now in
  let rest := filter (λ e', key e' ≠ k) (Entries c) in
  ∃ c', Set_ k v ttl now h c = Some (None, (cloneBytes v h).2, c') ∧
    cache_inv c' ∧ maxEntries c' = maxEntries c ∧ closed c' = false ∧
    Entries c' =
      if maxEntries c <=? 0 then e :: rest
      else e :: take (Z.to_nat (maxEntries c) - 1) rest.
Proof.
  intros Hinv Hopen Hlive. cbn zeta.
  destruct (Set_spec k v ttl now h c Hinv Hopen)
    as (c' & HS & Hinv' & Hm & Hc & _ & HE).
  exists c'. split_and!; try done. rewrite HE.
  destruct (maxEntries c <=? 0); [done|]. do 2 f_equal.
  apply filter_all. intros e' [_ He']%list_elem_of_filter.
  rewrite Forall_forall in Hlive. by apply Hlive.
Qed.

Lemma Keys_absent c k : cache_inv c → k ∉ Keys c → items c !! k = None.
Proof.
  intros Hinv Hk. rewrite inv_Keys_lookup in Hk by done.
  destruct (items c !! k); [|done]. exfalso. apply Hk. by eexists.
Qed.

Lemma take_pred_snoc {A} (l : list A) x :
  take (length (l ++ [x]) - 1) (l ++ [x]) = l.
Proof.
  rewrite length_app. simpl.
  replace (length l + 1 - 1)%nat with (length l) by lia.
  apply take_app_length.
Qed.

Lemma Entries_length c : length (Entries c) = length (Keys c).
Proof. unfold Entries, Keys. by rewrite !length_fmap. Qed.

Lemma Len_Entries c : cache_inv c → Len c = Z.of_nat (length (Entries c)).
Proof. intros Hinv. by rewrite Entries_length, inv_Len. Qed.

(** ** Filling a cache *)

Lemma run_inserts l : ∀ h c,
  cache_inv c → closed c = false →
  Forall (λ e, hasExpiry e = false) (Entries c) →
  NoDup (insertKeys l ++ Keys c) →
  maxEntries c ≤ 0 ∨ Z.of_nat (length (Keys c) + length l) ≤ maxEntries c →
  ∃ rs h' c', run (inserts l) (h, c) = Some (rs, (h', c')) ∧
    Forall (λ r, r = RErr None) rs ∧
    cache_inv c' ∧ closed c' = false ∧ maxEntries c' = maxEntries c ∧
    Forall (λ e, hasExpiry e = false) (Entries c') ∧
    Keys c' = reverse (insertKeys l) ++ Keys c.
Proof.
  induction l as [|[[now k] v] l IH]; intros h c Hinv Hopen Hperm Hnd Hcap.
  - exists [], h, c. by split_and!.
  - unfold insertKeys in Hnd. rewrite fmap_cons, <- app_comm_cons in Hnd.
    fold (insertKeys l) in Hnd. cbn [fst snd] in Hnd.
    apply NoDup_cons in Hnd as [Hk Hnd].
    assert (k ∉ Keys c) as HkK by (intros ?; apply Hk, elem_of_app; by right).
    assert (Forall (λ e, expired now e = false) (Entries c)) as Hlive.
    { eapply Forall_impl; [done|]. intros e. apply expired_no_expiry. }
    destruct (Set_all_live k v 0 now h c Hinv Hopen Hlive)
      as (c1 & HS & Hinv1 & Hm1 & Hc1 & HE1).
    rewrite (inv_Entries_absent c k Hinv (Keys_absent c k Hinv HkK)) in HE1.
    assert (Entries c1 = newEntry k (cloneBytes v h).1 0 now :: Entries c)
      as HE1'.
    { rewrite HE1. destruct (Z.leb_spec (maxEntries c) 0); [done|].
      f_equal. apply take_ge. rewrite Entries_length. simpl in Hcap. lia. }
    assert (Keys c1 = k :: Keys c) as HK1.
    { by rewrite (Keys_Entries c1), HE1', fmap_cons, <- Keys_Entries. }
    destruct (IH (cloneBytes v h).2 c1) as (rs & h' & c' & Hrun & Hrs & Hinv' & Hc' & Hm' & Hperm' & HK');
      try done.
    + rewrite HE1'. by constructor.
    + rewrite HK1.
      apply NoDup_app in Hnd as (Hnd1 & Hdis & Hnd2).
      apply NoDup_app. split_and!; [done| |].
      * intros x Hx [->|Hx']%elem_of_cons.
        -- apply Hk, elem_of_app. by left.
        -- by apply (Hdis x).
      * by apply NoDup_cons.
    + rewrite Hm1, HK1. simpl in *. lia.
    + exists (RErr None :: rs), h', c'.
      cbn [inserts fmap list_fmap run step fst snd]. rewrite HS. simpl.
      fold (inserts l). rewrite Hrun. simpl.
      split_and!; try done.
      * by constructor.
      * by rewrite Hm'.
      * rewrite HK', HK1. cbn [insertKeys fmap list_fmap fst snd].
        fold (insertKeys l). by rewrite reverse_cons, <- app_assoc.
Qed.

Lemma snoc_inv_length {A} (l : list A) :
  (0 < length l)%nat → ∃ l' x, l = l' ++ [x].
Proof.
  destruct l as [|y l] using rev_ind; [simpl; lia|]. intros _. by eexists _, _.
Qed.

(** C4. The example of the specification runs as stated: with capacity 2
    and no TTLs, Set(a), Set(b), Get(a), Set(c) leaves b not found and a
    and c found.  In general: N distinct keys set into a new cache of
    capacity N are all kept, the last set first; one more key set into a
    full cache without TTLs evicts exactly the key at the LRU end, after
    which every other key and the new one are found and the evicted one is
    not; and both a Get that finds its key and a Set move the key to the
    MRU front and leave the order of the others. *)
Theorem C4_lru_eviction :
  results (run lruExample
             (demoHeap, New {| MaxEntries := 2; CleanupInterval := 0 |}))
    = Some [RErr None; RErr None; RGet (Some 4%nat) true; RErr None;
            RGet None false; RGet (Some 6%nat) true; RGet (Some 7%nat) true] ∧
  (∀ cfg l h,
     0 < MaxEntries cfg → Z.of_nat (length l) = MaxEntries cfg →
     NoDup (insertKeys l) →
     ∃ rs h' c, run (inserts l) (h, New cfg) = Some (rs, (h', c)) ∧
       Forall (λ r, r = RErr None) rs ∧
       cache_inv c ∧ closed c = false ∧ maxEntries c = MaxEntries cfg ∧
       Len c = maxEntries c ∧
       Forall (λ e, hasExpiry e = false) (Entries c) ∧
       Keys c = reverse (insertKeys l)) ∧
  (∀ c k v ttl now h,
     cache_inv c → closed c = false → 0 < maxEntries c →
     Len c = maxEntries c →
     Forall (λ e, hasExpiry e = false) (Entries c) → ttl ≤ 0 → k ∉ Keys c →
     ∃ ks kl h' c', Keys c = ks ++ [kl] ∧
       Set_ k v ttl now h c = Some (None, h', c') ∧ cache_inv c' ∧
       Keys c' = k :: ks ∧ (kl ∉ k :: ks) ∧
       ∀ k' now' h'', found (Get k' now' h'' c') = true ↔ k' ∈ k :: ks) ∧
  (∀ c k now h,
     cache_inv c → Forall (λ e, hasExpiry e = false) (Entries c) →
     k ∈ Keys c →
     found (Get k now h c) = true ∧
     Keys (Get k now h c).2 = k :: filter (λ k', k' ≠ k) (Keys c)) ∧
  (∀ c k v ttl now h,
     cache_inv c → closed c = false → Len c ≤ maxEntries c →
     Forall (λ e, hasExpiry e = false) (Entries c) → k ∈ Keys c →
     ∃ h' c', Set_ k v ttl now h c = Some (None, h', c') ∧
       Keys c' = k :: filter (λ k', k' ≠ k) (Keys c)).
Proof.
  split_and!.
  - vm_compute. reflexivity.
  - intros cfg l h Hpos Hlen Hnd.
    destruct (run_inserts l h (New cfg))
      as (rs & h' & c & Hrun & Hrs & Hinv & Hc & Hm & Hperm & HK).
    + apply New_inv.
    + done.
    + constructor.
    + by rewrite app_nil_r.
    + right. simpl. lia.
    + simpl in HK, Hm. rewrite app_nil_r in HK.
      exists rs, h', c. split_and!; try done.
      rewrite inv_Len, HK, length_reverse by done.
      unfold insertKeys. rewrite length_fmap. lia.
  - intros c k v ttl now h Hinv Hopen Hpos Hfull Hperm Httl Hk.
    assert (Forall (λ e, expired now e = false) (Entries c)) as Hlive.
    { eapply Forall_impl; [done|]. intros e. apply expired_no_expiry. }
    destruct (Set_all_live k v ttl now h c Hinv Hopen Hlive)
      as (c' & HS & Hinv' & Hm' & Hc' & HE).
    rewrite (inv_Entries_absent c k Hinv (Keys_absent c k Hinv Hk)) in HE.
    destruct (Z.leb_spec (maxEntries c) 0); [lia|].
    rewrite Len_Entries in Hfull by done.
    destruct (snoc_inv_length (Entries c)) as (es & el & Hes); [lia|].
    assert (take (Z.to_nat (maxEntries c) - 1) (Entries c) = es) as Htake.
    { rewrite <- Hfull, Nat2Z.id, Hes. apply take_pred_snoc. }
    rewrite Htake in HE.
    assert (Keys c = (key <$> es) ++ [key el]) as HK.
    { by rewrite Keys_Entries, Hes, fmap_app. }
    assert (Keys c' = k :: (key <$> es)) as HK'.
    { by rewrite Keys_Entries, HE, fmap_cons. }
    pose proof (inv_Keys_NoDup c Hinv) as Hnd. rewrite HK in Hnd.
    apply NoDup_app in Hnd as (_ & Hdis & _).
    exists (key <$> es), (key el), (cloneBytes v h).2, c'.
    split_and!; try done.
    + intros [Heq|Hin]%elem_of_cons.
      * apply Hk. rewrite HK, <- Heq. apply elem_of_app. right. by left.
      * apply (Hdis _ Hin). by left.
    + intros k' now' h''. rewrite <- HK'. apply Get_found_permanent; [done|].
      rewrite HE. constructor.
      * unfold newEntry. simpl. by destruct (Z.ltb_spec 0 ttl); [lia|].
      * rewrite Hes in Hperm. by apply Forall_app in Hperm as [? _].
  - intros c k now h Hinv Hperm Hk.
    pose proof (proj2 (Get_found_permanent k now h c Hinv Hperm) Hk) as Hf.
    split; [done|].
    apply Get_found_iff in Hf as (e & He & Hlive); [|done].
    destruct (Get_found_spec k now h c e Hinv He Hlive)
      as (c' & -> & _ & _ & _ & _ & _ & HE).
    cbn [snd]. rewrite Keys_Entries, HE, fmap_cons, Keys_rest.
    by apply inv_lookupEntry_Entries in He as [_ ->].
  - intros c k v ttl now h Hinv Hopen Hcap Hperm Hk.
    assert (Forall (λ e, expired now e = false) (Entries c)) as Hlive.
    { eapply Forall_impl; [done|]. intros e. apply expired_no_expiry. }
    destruct (Set_all_live k v ttl now h c Hinv Hopen Hlive)
      as (c' & HS & Hinv' & Hm' & Hc' & HE).
    exists (cloneBytes v h).2, c'. split; [done|].
    rewrite Keys_Entries, HE.
    destruct (Z.leb_spec (maxEntries c) 0); rewrite fmap_cons; simpl;
      f_equal; [apply Keys_rest|].
    rewrite take_ge; [apply Keys_rest|].
    rewrite Len_Entries in Hcap by done.
    rewrite Keys_Entries in Hk. apply list_elem_of_fmap in Hk as (e & -> & He).
    assert (length (filter (λ e', key e' ≠ key e) (Entries c))
              < length (Entries c))%nat.
    { apply (length_filter_lt _ _ e); [done|]. by intros ?. }
    lia.
Qed.

Lemma C4_witness :
  cache_inv demoFull ∧ closed demoFull = false ∧ ("c" ∉ Keys demoFull) ∧
  ∃ c', Set_ "c" None 0 10 demoHeap demoFull = Some (None, demoHeap, c') ∧
        Keys c' = ["c"; "a"] ∧
        found (Get "b" 11 demoHeap c') = false ∧
        found (Get "a" 11 demoHeap c') = true.
Proof.
  assert (cache_inv demoFull) as Hinv
    by (apply cache_invb_sound; vm_compute; reflexivity).
  assert (Keys demoFull = ["a"; "b"]) as HKd by (vm_compute; reflexivity).
  assert ("c" ∉ Keys demoFull) as Hc.
  { rewrite HKd. by intros [?|[?|?%elem_of_nil]%elem_of_cons]%elem_of_cons. }
  split_and!; [done..|].
  destruct C4_lru_eviction as (_ & _ & Hmore & _).
  destruct (Hmore demoFull "c" None 0 10 demoHeap)
    as (ks & kl & h' & c' & HK & HS & _ & HK' & Hkl & Hfound); try done.
  { repeat constructor. }
  assert (ks = ["a"] ∧ kl = "b") as [-> ->].
  { rewrite HKd in HK. change ["a"; "b"] with (["a"] ++ ["b"]) in HK.
    apply app_inj_tail in HK as [<- <-]. done. }
  exists c'. split_and!.
  - rewrite HS. vm_compute in HS. injection HS as <- _. reflexivity.
  - done.
  - apply not_true_is_false. rewrite Hfound. exact Hkl.
  - apply Hfound. right. by left.
Defined.

(** ** Errors *)

Lemma Set_error_closed k v ttl now h c err h' c' :
  Set_ k v ttl now h c = Some (Some err, h', c') →
  closed c = true ∧ err = ErrClosed ∧ h' = h ∧ c' = c.
Proof.
  destruct (closed c) eqn:Hc.
  - rewrite Set_closed by done. destruct err. intros Heq. by simplify_eq.
  - rewrite Set_open by done.
    by destruct (evictIfNeededLocked now (storeLocked k v ttl now h c).2).
Qed.

Lemma Get_not_found k now h c :
  found (Get k now h c) = false → (Get k now h c).1.1.1 = None.
Proof.
  unfold found, Get, GetRLocked.
  destruct (items c !! k) as [el|] eqn:Hk; [|done].
  destruct (expired now (entryOf c el)) eqn:Hex; [done|]. simpl.
  rewrite Hk, Hex.
  by destruct (cloneBytes _ h).
Qed.

(** C5. Set and Delete return [ErrClosed] exactly when the cache is closed,
    and then change nothing.  On an open cache Delete succeeds whether the
    key is there or not: the key is gone afterwards, the other keys stay,
    and an absent key leaves the cache as it was; Set succeeds.  Get has no
    error result: a key that is absent, expired or evicted gives the one
    outcome [(nil, false)]. *)
Theorem C5_closed_error k v ttl now h c :
  (Set_ k v ttl now h c = Some (Some ErrClosed, h, c) ↔ closed c = true) ∧
  (∀ err h' c', Set_ k v ttl now h c = Some (Some err, h', c') →
     closed c = true ∧ err = ErrClosed ∧ h' = h ∧ c' = c) ∧
  (Delete k c = (Some ErrClosed, c) ↔ closed c = true) ∧
  (∀ err, (Delete k c).1 = Some err → closed c = true ∧ err = ErrClosed) ∧
  (closed c = false →
     (Delete k c).1 = None ∧
     items (Delete k c).2 !! k = None ∧
     (∀ k', k' ≠ k → items (Delete k c).2 !! k' = items c !! k') ∧
     (items c !! k = None → (Delete k c).2 = c) ∧
     (cache_inv c →
        cache_inv (Delete k c).2 ∧
        Entries (Delete k c).2 = filter (λ e, key e ≠ k) (Entries c) ∧
        ∃ c', Set_ k v ttl now h c = Some (None, (cloneBytes v h).2, c'))) ∧
  (found (Get k now h c) = false → (Get k now h c).1.1.1 = None) ∧
  (items c !! k = None → Get k now h c = (None, false, h, c)) ∧
  (cache_inv c → ∀ e, lookupEntry c k = Some e → expired now e = true →
     (Get k now h c).1.1 = (None, false)).
Proof.
  split_and!.
  - split.
    + by intros (? & _)%Set_error_closed.
    + apply Set_closed.
  - intros err h' c'. apply Set_error_closed.
  - split.
    + unfold Delete. by destruct (closed c).
    + apply Delete_closed.
  - intros err. unfold Delete. destruct (closed c); [|done].
    simpl. intros _. by destruct err.
  - intros Hopen. rewrite Delete_open by done. cbn [fst snd].
    split_and!.
    + done.
    + apply deleteLocked_gone.
    + intros k' Hne. by apply deleteLocked_other.
    + apply deleteLocked_absent.
    + intros Hinv. split_and!.
      * apply (restricted_inv c); [done|]. by apply deleteLocked_restricted.
      * by apply deleteLocked_Entries.
      * destruct (Set_spec k v ttl now h c Hinv Hopen) as (c' & HS & _).
        by exists c'.
  - apply Get_not_found.
  - apply Get_absent.
  - intros Hinv e He Hex.
    by destruct (Get_stale_spec k now h c e Hinv He Hex) as (c' & -> & _).
Qed.

Lemma C5_witness :
  closed (with_closed true demoFull) = true ∧
  Set_ "z" None 0 3 demoHeap (with_closed true demoFull)
    = Some (Some ErrClosed, demoHeap, with_closed true demoFull) ∧
  Delete "a" (with_closed true demoFull)
    = (Some ErrClosed, with_closed true demoFull) ∧
  closed demoFull = false ∧
  (Delete "a" demoFull).1 = None ∧ (Delete "zz" demoFull).2 = demoFull.
Proof.
  destruct (C5_closed_error "z" None 0 3 demoHeap (with_closed true demoFull))
    as ([_ HS] & _).
  destruct (C5_closed_error "a" None 0 3 demoHeap (with_closed true demoFull))
    as (_ & _ & [_ HD] & _).
  destruct (C5_closed_error "a" None 0 3 demoHeap demoFull)
    as (_ & _ & _ & _ & Hopen & _).
  destruct (C5_closed_error "zz" None 0 3 demoHeap demoFull)
    as (_ & _ & _ & _ & Hopen' & _).
  destruct (Hopen eq_refl) as (Hnil & _).
  destruct (Hopen' eq_refl) as (_ & _ & _ & Habs & _).
  split_and!; [reflexivity|by apply HS|by apply HD|reflexivity|exact Hnil|].
  apply Habs. vm_compute. reflexivity.
Defined.

(** ** The stamps of a history *)

Lemma stamps_count l :
  (fold_left stampStep l (0%nat, ∅)).1 = length l.
Proof.
  induction l as [|x l IH] using rev_ind; [done|].
  rewrite fold_left_app, length_app. simpl. unfold stampStep at 1.
  destruct (touched x.1 x.2); simpl; rewrite IH; lia.
Qed.

(** The stamp of a key is the position of the last event that used it. *)
Lemma stamps_spec l : ∀ k t,
  (fold_left stampStep l (0%nat, ∅)).2 !! k = Some t ↔
  (∃ x, l !! t = Some x ∧ touched x.1 x.2 = Some k) ∧
  (∀ t' x, (t < t')%nat → l !! t' = Some x → touched x.1 x.2 ≠ Some k).
Proof.
  induction l as [|x l IH] using rev_ind; intros k t.
  { simpl. rewrite lookup_empty. split; [done|]. by intros [(x & Hx & _) _]. }
  rewrite fold_left_app. simpl. unfold stampStep at 1.
  rewrite stamps_count.
  assert (∀ t0, (t0 < length l)%nat → (l ++ [x]) !! t0 = l !! t0) as Hold.
  { intros t0 Ht0. by apply lookup_app_l. }
  assert ((l ++ [x]) !! length l = Some x) as Hlast.
  { rewrite lookup_app_r by lia. by rewrite Nat.sub_diag. }
  assert (∀ t0 y, (l ++ [x]) !! t0 = Some y → (t0 ≤ length l)%nat) as Hrange.
  { intros t0 y Hy. apply lookup_lt_Some in Hy. rewrite length_app in Hy.
    simpl in Hy. lia. }
  assert (touched x.1 x.2 ≠ Some k →
          ((∃ y, (l ++ [x]) !! t = Some y ∧ touched y.1 y.2 = Some k) ∧
           (∀ t' y, (t < t')%nat → (l ++ [x]) !! t' = Some y →
                    touched y.1 y.2 ≠ Some k)) ↔
          ((∃ y, l !! t = Some y ∧ touched y.1 y.2 = Some k) ∧
           (∀ t' y, (t < t')%nat → l !! t' = Some y →
                    touched y.1 y.2 ≠ Some k))) as Hskip.
  { intros Hx. split.
    - intros [(y & Hy & Hk) Hlater]. split.
      + exists y. split; [|done].
        destruct (decide (t < length l)%nat) as [Hlt|Hge].
        * by rewrite <- Hold.
        * assert (t = length l) as -> by (apply Hrange in Hy; lia).
          rewrite Hlast in Hy. by injection Hy as <-.
      + intros t' y' Hlt Hy'. apply (Hlater t' y' Hlt).
        rewrite Hold; [done|]. by apply lookup_lt_Some in Hy'.
    - intros [(y & Hy & Hk) Hlater]. split.
      + exists y. split; [|done]. rewrite Hold; [done|].
        by apply lookup_lt_Some in Hy.
      + intros t' y' Hlt Hy'.
        destruct (decide (t' < length l)%nat) as [Hlt'|Hge].
        * rewrite Hold in Hy' by done. by apply (Hlater t' y').
        * assert (t' = length l) as -> by (apply Hrange in Hy'; lia).
          rewrite Hlast in Hy'. by injection Hy' as <-. }
  destruct (touched x.1 x.2) as [k0|] eqn:Hx; simpl.
  - destruct (decide (k = k0)) as [->|Hne].
    + rewrite lookup_insert_eq. split.
      * intros [= <-]. split; [by exists x|].
        intros t' y Hlt Hy. apply Hrange in Hy. lia.
      * intros [(y & Hy & Hk) Hlater]. f_equal.
        destruct (decide (t = length l)) as [|Hneq]; [done|].
        exfalso. apply (Hlater (length l) x); [|done..].
        apply Hrange in Hy. lia.
    + rewrite lookup_insert_ne by done. rewrite IH. symmetry.
      apply Hskip. congruence.
  - rewrite IH. symmetry. by apply Hskip.
Qed.

Lemma lastUse_spec ops rs k t :
  lastUse ops rs !! k = Some t ↔
  (∃ o r, zip ops rs !! t = Some (o, r) ∧ touched o r = Some k) ∧
  (∀ t' o r, (t < t')%nat → zip ops rs !! t' = Some (o, r) →
             touched o r ≠ Some k).
Proof.
  unfold lastUse. rewrite stamps_spec. split.
  - intros [([o r] & Hx & Hk) Hlater]. split; [by exists o, r|].
    intros t' o' r' Hlt Hx'. by apply (Hlater t' (o', r')).
  - intros [(o & r & Hx & Hk) Hlater]. split; [by exists (o, r)|].
    intros t' [o' r'] Hlt Hx'. by apply (Hlater t' o' r').
Qed.

(** ** The invariant, spelled out *)

Lemma inv_items_iff c k el :
  cache_inv c →
  items c !! k = Some el ↔ el ∈ lru c ∧ key (entryOf c el) = k.
Proof.
  intros Hinv. split.
  - intros Hk. split; [by eapply inv_items_lru|by apply inv_entryOf_key].
  - intros [Hel <-]. by apply inv_list_items.
Qed.

(** C6. After every history of completed operations from a new cache (Set,
    Get, Delete, Len, Keys, Close and ticks of the worker, in any order and
    at any times, a Get being allowed to have other operations between its
    two critical sections) the keys of the index are the keys of the recency
    list, the list holds one element per key, index and list agree element
    by element, and the list is in the order of the last use of each key,
    latest first, the last use of a key being the last event of the history
    that is a successful Set of the key or a Get that found it.  Every
    operation, and each of the internal removal paths (deleteLocked, the
    expiry sweep, capacity enforcement), keeps the invariant of index and
    list. *)
Theorem C6_joint_invariant :
  (∀ cfg, cache_inv (New cfg)) ∧
  (∀ now o h c, cache_inv c →
     ∃ r h' c', step now o (h, c) = Some (r, (h', c')) ∧ cache_inv c') ∧
  (∀ k c, cache_inv c → cache_inv (deleteLocked k c)) ∧
  (∀ now c, cache_inv c → cache_inv (deleteExpiredLocked now c).2) ∧
  (∀ now c, cache_inv c →
     ∃ c', evictIfNeededLocked now c = Some c' ∧ cache_inv c') ∧
  (∀ c, cache_inv c →
     dom (items c) = list_to_set (Keys c) ∧
     NoDup (Keys c) ∧ NoDup (lru c) ∧
     size (items c) = length (lru c) ∧
     ∀ k el, items c !! k = Some el ↔ el ∈ lru c ∧ key (entryOf c el) = k) ∧
  (∀ cfg evs h0,
     ∃ rs h c, run evs (h0, New cfg) = Some (rs, (h, c)) ∧
       cache_inv c ∧
       dom (items c) = list_to_set (Keys c) ∧
       NoDup (Keys c) ∧
       Forall (λ k, is_Some (lastUse evs.*2 rs !! k)) (Keys c) ∧
       StronglySorted (usedAfter (lastUse evs.*2 rs)) (Keys c)) ∧
  (∀ ops rs k t,
     lastUse ops rs !! k = Some t ↔
     (∃ o r, zip ops rs !! t = Some (o, r) ∧ touched o r = Some k) ∧
     (∀ t' o r, (t < t')%nat → zip ops rs !! t' = Some (o, r) →
                touched o r ≠ Some k)).
Proof.
  split_and!.
  - apply New_inv.
  - intros now o h c Hinv.
    destruct (step_spec now o h c Hinv) as (r & h' & c' & Hstep & Hinv' & _).
    by exists r, h', c'.
  - intros k c Hinv. apply (restricted_inv c); [done|].
    by apply deleteLocked_restricted.
  - intros now c Hinv. apply (restricted_inv c); [done|].
    by apply deleteExpiredLocked_spec.
  - intros now c Hinv.
    destruct (evictIfNeededLocked_Entries now c Hinv) as (c' & Hrun & Hres & _).
    exists c'. split; [done|]. by apply (restricted_inv c).
  - intros c Hinv. split_and!.
    + by apply inv_Keys_dom.
    + by apply inv_Keys_NoDup.
    + apply Hinv.
    + by apply inv_size.
    + intros k el. by apply inv_items_iff.
  - intros cfg evs h0.
    destruct (run_spec evs h0 (New cfg) 0%nat ∅ (New_inv cfg))
      as (rs & h & c & Hrun & _ & Hinv & _ & _ & Hrec).
    { split_and!; [|constructor..]. intros k t Hk. by rewrite lookup_empty in Hk. }
    destruct Hrec as (_ & Hall & Hs).
    exists rs, h, c. split_and!; try done.
    + by apply inv_Keys_dom.
    + by apply inv_Keys_NoDup.
  - apply lastUse_spec.
Qed.

Lemma C6_witness :
  ∃ rs h c,
    run lruExample (demoHeap, New {| MaxEntries := 2; CleanupInterval := 0 |})
      = Some (rs, (h, c)) ∧
    Keys c = ["c"; "a"] ∧ cache_inv c ∧ NoDup (Keys c) ∧
    StronglySorted (usedAfter (lastUse lruExample.*2 rs)) (Keys c).
Proof.
  destruct C6_joint_invariant as (_ & _ & _ & _ & _ & _ & Hrun & _).
  destruct (Hrun {| MaxEntries := 2; CleanupInterval := 0 |} lruExample demoHeap)
    as (rs & h & c & HR & Hinv & _ & Hnd & _ & Hs).
  exists rs, h, c. split_and!; try done.
  vm_compute in HR. injection HR as <- <- <-. vm_compute. reflexivity.
Defined.

(** ** Len and the keys a Get finds *)

Lemma filter_bool_split {A} (f : A → bool) (l : list A) :
  length l = (length (filter (λ x, f x = false) l)
              + length (filter (λ x, f x = true) l))%nat.
Proof.
  induction l as [|x l IH]; [done|]. rewrite !filter_cons.
  destruct (f x) eqn:Hx; simpl; lia.
Qed.

Lemma foundKeys_live now h c :
  cache_inv c →
  foundKeys now h c = key <$> filter (λ e, expired now e = false) (Entries c).
Proof.
  intros Hinv. unfold foundKeys. rewrite Keys_Entries. symmetry.
  apply fmap_filter_compat. intros e He.
  rewrite Get_found_iff by done.
  assert (lookupEntry c (key e) = Some e) as Hl
    by by apply inv_lookupEntry_Entries.
  split.
  - intros Hlive. by exists e.
  - intros (e' & He' & Hlive). congruence.
Qed.

(** C7. Len is the number of stored entries, the expired ones that nothing
    has reclaimed yet included, while a Get finds exactly the keys of the
    entries that are not expired: the keys found are never more than Len,
    and fewer as soon as one stored entry is expired.  Such a state is
    reached: after Set with ttl 30 at time 0, at time 80 Len is 1 and no
    key is found. *)
Theorem C7_len_counts_expired now h c :
  cache_inv c →
  Len c = Z.of_nat (length (Entries c)) ∧
  Len c = Z.of_nat (length (filter (λ e, expired now e = false) (Entries c))
                    + length (filter (λ e, expired now e = true) (Entries c))) ∧
  foundKeys now h c = key <$> filter (λ e, expired now e = false) (Entries c) ∧
  (∀ k, found (Get k now h c) = true ↔ k ∈ foundKeys now h c) ∧
  Z.of_nat (length (foundKeys now h c)) ≤ Len c ∧
  (Exists (λ e, expired now e = true) (Entries c) →
   Z.of_nat (length (foundKeys now h c)) < Len c) ∧
  (∃ rs h1 c1,
     run lenExample (demoHeap, New {| MaxEntries := 10; CleanupInterval := 0 |})
       = Some (rs, (h1, c1)) ∧
     Len c1 = 1 ∧ foundKeys 80 h1 c1 = []).
Proof.
  intros Hinv.
  pose proof (Len_Entries c Hinv) as HLen.
  pose proof (foundKeys_live now h c Hinv) as Hf.
  pose proof (filter_bool_split (expired now) (Entries c)) as Hsplit.
  split_and!.
  - done.
  - by rewrite HLen, Hsplit.
  - done.
  - intros k. unfold foundKeys. rewrite list_elem_of_filter. split; [|tauto].
    intros Hfound. split; [done|].
    apply Get_found_iff in Hfound as (e & (el & Hk & _)%lookupEntry_Some & _);
      [|done].
    apply inv_Keys_lookup; [done|]. by eexists.
  - rewrite Hf, length_fmap, HLen. lia.
  - intros Hex. rewrite Hf, length_fmap, HLen, Hsplit.
    apply Exists_exists in Hex as (e & He & Hexp).
    assert (e ∈ filter (λ e, expired now e = true) (Entries c)) as Hin
      by by apply list_elem_of_filter.
    destruct (filter (λ e, expired now e = true) (Entries c)); [|simpl; lia].
    by apply elem_of_nil in Hin.
  - eexists _, _, _. split; [vm_compute; reflexivity|].
    split; vm_compute; reflexivity.
Qed.

Lemma C7_witness :
  cache_inv demoStale ∧
  Len demoStale = 2 ∧ foundKeys 10 demoHeap demoStale = ["b"] ∧
  Z.of_nat (length (foundKeys 10 demoHeap demoStale)) < Len demoStale.
Proof.
  assert (cache_inv demoStale) as Hinv
    by (apply cache_invb_sound; vm_compute; reflexivity).
  destruct (C7_len_counts_expired 10 demoHeap demoStale Hinv)
    as (_ & _ & Hf & _ & _ & Hlt & _).
  split_and!; [done|reflexivity| |].
  - rewrite Hf. vm_compute. reflexivity.
  - apply Hlt. apply Exists_exists. exists (Entry "a" (Some 0%nat) 5 true).
    split; [|reflexivity]. vm_compute. by left.
Defined.

(** ** The closed flag *)

Lemma deleteLocked_closed k c : closed (deleteLocked k c) = closed c.
Proof. unfold deleteLocked. by destruct (items c !! k). Qed.

Lemma deleteExpiredLocked_closed now c :
  closed (deleteExpiredLocked now c).2 = closed c.
Proof.
  unfold deleteExpiredLocked, deleteExpiredOver.
  by destruct (sweep_fold now (map_to_list (items c)) 0%nat c)
    as (_ & _ & ? & _).
Qed.

Lemma evictLoop_closed fuel : ∀ c c',
  evictLoop fuel c = Some c' → closed c' = closed c.
Proof.
  induction fuel as [|fuel IH]; intros c c'; rewrite evictLoop_unfold;
    destruct (maxEntries c <? Z.of_nat (size (items c))); try done;
    try by intros [= <-].
  destruct (Back (lru c)); [|by intros [= <-]].
  intros Hrun. rewrite (IH _ _ Hrun). apply deleteLocked_closed.
Qed.

Lemma evictIfNeededLocked_closed now c c' :
  evictIfNeededLocked now c = Some c' → closed c' = closed c.
Proof.
  unfold evictIfNeededLocked. destruct (maxEntries c <=? 0).
  - by intros [= <-].
  - intros Hrun. rewrite (evictLoop_closed _ _ _ Hrun).
    apply deleteExpiredLocked_closed.
Qed.

Lemma Set_flag k v ttl now h c err h' c' :
  Set_ k v ttl now h c = Some (err, h', c') → closed c' = closed c.
Proof.
  destruct (closed c) eqn:Hc.
  - rewrite Set_closed by done. intros [= _ _ <-]. done.
  - rewrite Set_open by done.
    destruct (evictIfNeededLocked now _) as [c1|] eqn:Hrun; [|done].
    simpl. intros [= _ _ <-]. rewrite (evictIfNeededLocked_closed _ _ _ Hrun).
    rewrite <- Hc. unfold storeLocked. destruct (cloneBytes v h).
    by destruct (items c !! k).
Qed.

Lemma Get_flag k now h c : closed (Get k now h c).2 = closed c.
Proof.
  unfold Get, GetRLocked. destruct (items c !! k) as [el|] eqn:Hk; [|done].
  destruct (expired now (entryOf c el)) eqn:Hex; simpl.
  - unfold deleteIfExpiredLocked. rewrite Hk, Hex. apply deleteLocked_closed.
  - rewrite Hk, Hex. by destruct (cloneBytes _ h).
Qed.

Lemma Delete_flag k c : closed (Delete k c).2 = closed c.
Proof.
  unfold Delete. destruct (closed c) eqn:Hc; [done|]. simpl.
  by rewrite deleteLocked_closed.
Qed.

Lemma step_flag now o h c r h' c' :
  step now o (h, c) = Some (r, (h', c')) →
  closed c' = match o with OpClose => true | _ => closed c end.
Proof.
  destruct o as [k v ttl|k|k| | | | |s k]; cbn [step].
  - destruct (Set_ k v ttl now h c) as [[[err h1] c1]|] eqn:HS; [|done].
    simpl. intros [= _ _ <-]. by eapply Set_flag.
  - pose proof (Get_flag k now h c) as HG.
    destruct (Get k now h c) as [[[out f] h1] c1]. intros [= _ _ <-]. done.
  - pose proof (Delete_flag k c) as HD.
    destruct (Delete k c) as [err c1]. intros [= _ _ <-]. done.
  - by intros [= _ _ <-].
  - by intros [= _ _ <-].
  - destruct (Close_spec c) as (_ & Hc & _).
    destruct (Close c) as [err c1]. intros [= _ _ <-]. done.
  - intros [= _ _ <-]. destruct (0 <? cleanupEvery c); [|done].
    apply deleteExpiredLocked_closed.
  - pose proof (GetLocked_flag s k now h c) as HG.
    destruct (GetLocked s k now h c) as [[[out f] h1] c1].
    intros [= _ _ <-]. done.
Qed.

Lemma run_flag evs : ∀ h c rs h' c',
  run evs (h, c) = Some (rs, (h', c')) →
  closed c = true → closed c' = true.
Proof.
  induction evs as [|[now o] evs IH]; intros h c rs h' c'; cbn [run].
  - by intros [= _ _ <-].
  - destruct (step now o (h, c)) as [[r [h1 c1]]|] eqn:Hstep; [|done]. simpl.
    destruct (run evs (h1, c1)) as [[rs1 [h2 c2]]|] eqn:Hrun; [|done]. simpl.
    intros [= _ _ <-] Hc. apply (IH _ _ _ _ _ Hrun).
    rewrite (step_flag _ _ _ _ _ _ _ Hstep). by destruct o.
Qed.

Lemma run_app evs1 : ∀ evs2 w rs w',
  run (evs1 ++ evs2) w = Some (rs, w') →
  ∃ rs1 w1 rs2, run evs1 w = Some (rs1, w1) ∧
    run evs2 w1 = Some (rs2, w') ∧ rs = rs1 ++ rs2.
Proof.
  induction evs1 as [|[now o] evs1 IH]; intros evs2 w rs w'.
  - simpl. intros Hrun. by exists [], w, rs.
  - rewrite <- app_comm_cons. cbn [run].
    destruct (step now o w) as [[r w1]|]; [|done]. simpl.
    destruct (run (evs1 ++ evs2) w1) as [[rs' w2]|] eqn:Hrun; [|done]. simpl.
    intros [= <- <-].
    destruct (IH _ _ _ _ Hrun) as (rs1 & w1' & rs2 & -> & Hr2 & ->).
    simpl. by exists (r :: rs1), w1', rs2.
Qed.

(** C8. Close on an open cache sets the closed flag, changes nothing else
    and returns nil; Close on a closed cache returns nil and changes
    nothing, so a second Close has no effect.  No operation but Close
    changes the flag, and Close only sets it: along every history a closed
    cache stays closed, so the cache goes from open to closed at most once
    and never back. *)
Theorem C8_close_one_way :
  (∀ c, closed c = false → Close c = (None, with_closed true c)) ∧
  (∀ c, closed c = true → Close c = (None, c)) ∧
  (∀ c, (Close c).1 = None ∧ closed (Close c).2 = true ∧
        Close (Close c).2 = (None, (Close c).2)) ∧
  (∀ now o h c r h' c', step now o (h, c) = Some (r, (h', c')) →
     closed c' = match o with OpClose => true | _ => closed c end) ∧
  (∀ now o h c r h' c', step now o (h, c) = Some (r, (h', c')) →
     closed c = true → closed c' = true) ∧
  (∀ evs1 evs2 h c rs h' c',
     run (evs1 ++ evs2) (h, c) = Some (rs, (h', c')) →
     ∃ rs1 h1 c1, run evs1 (h, c) = Some (rs1, (h1, c1)) ∧
       (closed c1 = true → closed c' = true)).
Proof.
  split_and!.
  - intros c Hc. unfold Close. by rewrite Hc.
  - intros c Hc. unfold Close. by rewrite Hc.
  - intros c. destruct (Close_spec c) as (H1 & H2 & _).
    split_and!; [done..|]. unfold Close at 1. by rewrite H2.
  - apply step_flag.
  - intros now o h c r h' c' Hstep Hc.
    rewrite (step_flag _ _ _ _ _ _ _ Hstep). by destruct o.
  - intros evs1 evs2 h c rs h' c' Hrun.
    destruct (run_app _ _ _ _ _ Hrun) as (rs1 & [h1 c1] & rs2 & H1 & H2 & _).
    exists rs1, h1, c1. split; [done|]. by eapply run_flag.
Qed.

Lemma C8_witness :
  ∃ rs h c,
    run [(1, OpClose); (2, OpSet "k" None 0); (3, OpGet "k"); (4, OpClose);
         (5, OpDelete "k"); (6, OpLen); (7, OpKeys); (8, OpTick)]
        (demoHeap, demoFull) = Some (rs, (h, c)) ∧
    rs = [RErr None; RErr (Some ErrClosed); RGet None false; RErr None;
          RErr (Some ErrClosed); RLen 2; RKeys ["a"; "b"]; RDone] ∧
    closed c = true.
Proof.
  destruct C8_close_one_way as (_ & _ & _ & _ & _ & Hrun).
  destruct (run [(1, OpClose); (2, OpSet "k" None 0); (3, OpGet "k");
                 (4, OpClose); (5, OpDelete "k"); (6, OpLen); (7, OpKeys);
                 (8, OpTick)] (demoHeap, demoFull))
    as [[rs [h c]]|] eqn:HR; [|by vm_compute in HR].
  exists rs, h, c. split; [done|].
  destruct (Hrun [(1, OpClose)] _ _ _ _ _ _ HR) as (rs1 & h1 & c1 & H1 & Hc).
  split.
  - vm_compute in HR. by injection HR as <- _ _.
  - apply Hc. vm_compute in H1. by injection H1 as _ _ <-.
Defined.

(** ** Get on a closed cache *)

Lemma Get_with_closed b k now h c :
  Get k now h (with_closed b c)
  = ((Get k now h c).1, with_closed b (Get k now h c).2).
Proof.
  unfold Get, GetRLocked, GetLocked, deleteIfExpiredLocked, deleteLocked,
    entryOf. simpl.
  destruct (items c !! k) as [el|]; [|done].
  destruct (expired now (default zeroEntry (nodes c !! el))); [done|].
  by destruct (cloneBytes _ h).
Qed.

(** C10. Get does not read the closed flag: its result and its effect are
    those on the same cache with any other value of the flag.  So on a
    closed cache a Get of a live key still returns found with a copy of the
    value and moves the entry to the MRU front, and a Get of an expired key
    still removes the entry, while Set and Delete return [ErrClosed] and
    change nothing. *)
Theorem C10_get_after_close k now h c :
  cache_inv c → closed c = true →
  (∀ b, Get k now h (with_closed b c)
        = ((Get k now h c).1, with_closed b (Get k now h c).2)) ∧
  (∀ e, lookupEntry c k = Some e → hasExpiry e = false ∨ now < expiresAt e →
     ∃ out h' c', Get k now h c = (out, true, h', c') ∧
       closed c' = true ∧ cache_inv c' ∧
       contents h' out = contents h (value e) ∧
       (∀ l, out = Some l → l ∉ dom h) ∧
       Entries c' = e :: filter (λ e', key e' ≠ k) (Entries c)) ∧
  (∀ e, lookupEntry c k = Some e → hasExpiry e = true → expiresAt e ≤ now →
     ∃ c', Get k now h c = (None, false, h, c') ∧
       closed c' = true ∧ cache_inv c' ∧
       lookupEntry c' k = None ∧
       Entries c' = filter (λ e', key e' ≠ k) (Entries c)) ∧
  (∀ v ttl, Set_ k v ttl now h c = Some (Some ErrClosed, h, c)) ∧
  Delete k c = (Some ErrClosed, c).
Proof.
  intros Hinv Hclosed. split_and!.
  - intros b. apply Get_with_closed.
  - intros e He Hlive.
    destruct (Get_found_spec k now h c e Hinv He)
      as (c' & HG & Hinv' & Hc' & _ & _ & _ & HE).
    { by apply expired_false_spec. }
    destruct (cloneBytes_spec (value e) h) as (H1 & _ & H3 & _).
    eexists _, _, c'. split_and!; try done. by rewrite Hc'.
  - intros e He Hhas Hexp.
    destruct (Get_stale_spec k now h c e Hinv He)
      as (c' & HG & Hinv' & Hc' & _ & Hk & _ & HE).
    { by apply expired_spec. }
    exists c'. split_and!; try done.
    + by rewrite Hc'.
    + by apply inv_lookupEntry_None.
  - intros v ttl. by apply Set_closed.
  - by apply Delete_closed.
Qed.

Lemma C10_witness :
  cache_inv (Close demoStale).2 ∧ closed (Close demoStale).2 = true ∧
  found (Get "b" 10 demoHeap (Close demoStale).2) = true ∧
  Keys (Get "b" 10 demoHeap (Close demoStale).2).2 = ["b"; "a"] ∧
  found (Get "a" 10 demoHeap (Close demoStale).2) = false ∧
  Keys (Get "a" 10 demoHeap (Close demoStale).2).2 = ["b"] ∧
  Delete "a" (Close demoStale).2 = (Some ErrClosed, (Close demoStale).2).
Proof.
  assert (cache_inv (Close demoStale).2) as Hinv
    by (apply cache_invb_sound; vm_compute; reflexivity).
  destruct (C10_get_after_close "b" 10 demoHeap _ Hinv eq_refl)
    as (_ & Hlive & _).
  destruct (C10_get_after_close "a" 10 demoHeap _ Hinv eq_refl)
    as (_ & _ & Hstale & _ & HD).
  destruct (Hlive (Entry "b" (Some 1%nat) 0 false))
    as (out & h' & c' & HG & _ & _ & _ & _ & HE);
    [vm_compute; reflexivity|by left|].
  destruct (Hstale (Entry "a" (Some 0%nat) 5 true))
    as (c'' & HG' & _ & _ & _ & HE');
    [vm_compute; reflexivity|done|simpl; lia|].
  rewrite HG, HG'. unfold found. cbn [fst snd].
  rewrite !Keys_Entries, HE, HE'.
  split_and!; try done; vm_compute; reflexivity.
Defined.

(** ** Value isolation *)

Lemma cloneBytes_allocated b h l :
  (cloneBytes b h).1 = Some l → l ∈ dom (cloneBytes b h).2.
Proof.
  destruct b as [l0|]; simpl; [|done]. intros [= <-].
  apply elem_of_dom. rewrite lookup_insert_eq. by eexists.
Qed.

Lemma contents_write_other h l bs v :
  (∀ l', v = Some l' → l' ≠ l) →
  contents (caller_write l bs h) v = contents h v.
Proof.
  intros Hne. destruct v as [l'|]; [|done]. simpl. unfold caller_write.
  rewrite lookup_insert_ne; [done|]. intros ->. by apply (Hne l').
Qed.

Lemma dom_caller_write l bs (h : Heap) l' :
  l' ∈ dom h → l' ∈ dom (caller_write l bs h).
Proof.
  unfold caller_write. rewrite dom_insert_L. set_solver.
Qed.

(** A Get that finds its key hands out a new array with the stored bytes
    and leaves the entry as it is; writing to the array handed out does not
    reach the stored one. *)
Lemma Get_copy k now h c e :
  cache_inv c → lookupEntry c k = Some e → expired now e = false →
  (∀ l, value e = Some l → l ∈ dom h) →
  ∃ out h' c', Get k now h c = (out, true, h', c') ∧
    cache_inv c' ∧ lookupEntry c' k = Some e ∧
    contents h' out = contents h (value e) ∧
    (∀ r, out = Some r → r ∉ dom h) ∧
    contents h' (value e) = contents h (value e) ∧
    (∀ l, value e = Some l → l ∈ dom h') ∧
    (∀ r junk, out = Some r →
       contents (caller_write r junk h') (value e) = contents h (value e) ∧
       (∀ l, value e = Some l → l ∈ dom (caller_write r junk h'))).
Proof.
  intros Hinv He Hlive Halloc.
  destruct (Get_found_spec k now h c e Hinv He Hlive)
    as (c' & HG & Hinv' & _ & _ & Hi & Hn & _).
  destruct (cloneBytes_spec (value e) h) as (H1 & _ & H3 & H4).
  set (h' := (cloneBytes (value e) h).2) in *.
  assert (contents h' (value e) = contents h (value e)) as Hkeep.
  { destruct (value e) as [l|] eqn:Hv; [|done]. simpl.
    by rewrite H4 by by apply Halloc. }
  assert (∀ l, value e = Some l → l ∈ dom h') as Halloc'.
  { intros l Hl. apply elem_of_dom. rewrite H4 by by apply Halloc.
    apply elem_of_dom. by apply Halloc. }
  eexists _, h', c'. split_and!; try done.
  - unfold lookupEntry in *. by rewrite Hi, Hn.
  - intros r junk Hr. split.
    + rewrite contents_write_other; [done|].
      intros l Hl ->. apply (H3 r Hr). by apply Halloc.
    + intros l Hl. by apply dom_caller_write, Halloc'.
Qed.

(** *** Isolation along a history *)

Lemma cloneBytes_dom b (h : Heap) l :
  l ∈ dom h → l ∈ dom (cloneBytes b h).2.
Proof.
  destruct b as [l0|]; simpl; [|done]. rewrite dom_insert_L. set_solver.
Qed.

Lemma contents_frame (h h' : Heap) v :
  (∀ l, v = Some l → h' !! l = h !! l) → contents h' v = contents h v.
Proof. intros Hv. destruct v as [l|]; [|done]. simpl. by rewrite Hv. Qed.

Lemma Set_frame k v ttl now h c :
  cache_inv c → closed c = false →
  ∃ c' tl, Set_ k v ttl now h c = Some (None, (cloneBytes v h).2, c') ∧
    cache_inv c' ∧
    Entries c' = newEntry k (cloneBytes v h).1 ttl now :: tl ∧
    ∀ e, e ∈ tl → e ∈ Entries c ∧ key e ≠ k.
Proof.
  intros Hinv Hopen.
  destruct (Set_spec k v ttl now h c Hinv Hopen)
    as (c' & HS & Hinv' & _ & _ & _ & HE).
  exists c'. destruct (maxEntries c <=? 0); eexists; split_and!; try done.
  - intros e [Hk He]%list_elem_of_filter. done.
  - intros e (i & He & _)%elem_of_take.
    apply list_elem_of_lookup_2, list_elem_of_filter in He as [_ He].
    apply list_elem_of_filter in He as [Hk He]. done.
Qed.

Lemma GetLocked_frame s k now h c :
  cache_inv c →
  cache_inv (GetLocked s k now h c).2 ∧
  (∀ e, e ∈ Entries (GetLocked s k now h c).2 → e ∈ Entries c) ∧
  (found (GetLocked s k now h c) = true →
     ∃ e, lookupEntry c k = Some e ∧
       (GetLocked s k now h c).1
       = ((cloneBytes (value e) h).1, true, (cloneBytes (value e) h).2)) ∧
  (found (GetLocked s k now h c) = false →
     (GetLocked s k now h c).1 = (None, false, h)).
Proof.
  intros Hinv.
  destruct (GetLocked_safe s k now h c Hinv) as (Hinv' & Hfound & Hnot).
  split_and!; try done.
  - intros e He. destruct (found (GetLocked _ k now h c)) eqn:Hf.
    + destruct (Hfound eq_refl) as (_ & e0 & He0 & _ & _ & HE).
      rewrite HE in He. apply elem_of_cons in He as [->|He].
      * by apply inv_lookupEntry_Entries in He0 as [? _].
      * by apply list_elem_of_filter in He as [_ ?].
    + destruct (Hnot eq_refl) as (_ & Hres & _).
      eapply elem_of_sublist; [done|]. by apply restricted_Entries_sublist.
  - intros Hf. destruct (Hfound Hf) as (_ & e & He & _ & Hr & _). by exists e.
  - intros Hf. by destruct (Hnot Hf) as (? & _).
Qed.

Lemma step_other_frame now o h c r h' c' :
  cache_inv c →
  match o with
  | OpSet _ _ _ | OpGet _ | OpGetLocked _ _ => False
  | _ => True
  end →
  step now o (h, c) = Some (r, (h', c')) →
  h' = h ∧ cache_inv c' ∧ ∀ e, e ∈ Entries c' → e ∈ Entries c.
Proof.
  intros Hinv Ho. destruct o as [k v ttl|k|k| | | | |s k]; try done; cbn [step].
  - destruct (closed c) eqn:Hc.
    + rewrite Delete_closed by done. by intros [= _ <- <-].
    + rewrite Delete_open by done. intros [= _ <- <-].
      pose proof (deleteLocked_restricted c k Hinv) as Hres.
      split_and!; [done|by apply (restricted_inv c)|].
      intros e He. eapply elem_of_sublist; [done|].
      by apply restricted_Entries_sublist.
  - by intros [= _ <- <-].
  - by intros [= _ <- <-].
  - destruct (Close_spec c) as (_ & _ & Hw & _).
    destruct (Close c) as [err c1]. simpl in Hw. subst c1.
    intros [= _ <- <-]. split_and!; [done|by apply with_closed_inv|done].
  - intros [= _ <- <-]. destruct (0 <? cleanupEvery c); [|done].
    destruct (expiryTick_spec now c Hinv) as [Hres _].
    split_and!; [done|by apply (restricted_inv c)|].
    intros e He. eapply elem_of_sublist; [done|].
    by apply restricted_Entries_sublist.
Qed.

(** What a step may do to heap, held arrays and cache without breaking
    isolation: keep the arrays no caller holds, hand out only new arrays,
    and keep the entries or store them in new arrays. *)
Lemma isolated_frame w G' wr' (h' : Heap) c' :
  isolated w → cache_inv c' → G' ⊆ dom h' →
  (∀ l, l ∈ dom (heapOf w) → l ∈ dom h') →
  (∀ l, l ∈ dom (heapOf w) → l ∉ held w → h' !! l = heapOf w !! l) →
  (∀ l, l ∈ G' → l ∈ held w ∨ l ∉ dom (heapOf w)) →
  (∀ e, e ∈ Entries c' →
     (e ∈ Entries (cacheOf w) ∧ wr' !! key e = written w !! key e) ∨
     ((∀ l, value e = Some l →
         l ∈ dom h' ∧ (l ∉ dom (heapOf w)) ∧ (l ∉ G')) ∧
      wr' !! key e = Some (contents h' (value e)))) →
  isolated (World G' wr' h' c').
Proof.
  intros [Hinv Hheld Hpriv Hbytes] Hinv' HG' Hdom Hkeep Hnew Hent.
  split; cbn [cacheOf held heapOf written]; try done.
  - intros e l He Hl. destruct (Hent e He) as [[Hold _]|[Hfresh _]].
    + destruct (Hpriv e l Hold Hl) as [Hd Hh]. split; [by apply Hdom|].
      intros HlG. destruct (Hnew l HlG); done.
    + destruct (Hfresh l Hl) as (? & _ & ?). done.
  - intros e He. destruct (Hent e He) as [[Hold Hw]|[_ Hw]]; [|done].
    rewrite Hw, (Hbytes e Hold). f_equal. symmetry.
    apply contents_frame. intros l Hl.
    destruct (Hpriv e l Hold Hl) as [Hd Hh]. by apply Hkeep.
Qed.

Lemma isolated_same_heap w c' :
  isolated w → cache_inv c' →
  (∀ e, e ∈ Entries c' → e ∈ Entries (cacheOf w)) →
  isolated (World (held w) (written w) (heapOf w) c').
Proof.
  intros Hiso Hinv' Hsub. apply (isolated_frame w); try done.
  - apply Hiso.
  - intros l Hl. by left.
  - intros e He. left. split; [by apply Hsub|done].
Qed.

Lemma wstep_isolated ev w r w' :
  isolated w → wstep ev w = Some (r, w') → isolated w'.
Proof.
  intros Hiso. pose proof (iso_inv w Hiso) as Hinv.
  pose proof (iso_held w Hiso) as Hheld.
  destruct ev as [now [k v ttl|k|k| | | | |s k]|bs|l bs]; cbn [wstep].
  - (* Set *)
    destruct (holds (held w) v) eqn:Hv; [|done].
    destruct (closed (cacheOf w)) eqn:Hc.
    { rewrite Set_closed by done. simpl. intros [= _ <-]. by destruct w. }
    destruct (Set_frame k v ttl now (heapOf w) (cacheOf w) Hinv Hc)
      as (c1 & tl & -> & Hinv1 & HE & Htl).
    simpl. intros [= _ <-].
    destruct (cloneBytes_spec v (heapOf w)) as (H1 & _ & H3 & H4).
    apply (isolated_frame w); try done.
    + intros l Hl. by apply cloneBytes_dom, Hheld.
    + intros l Hl. by apply cloneBytes_dom.
    + intros l Hl _. by apply H4.
    + intros l Hl. by left.
    + intros e. rewrite HE. intros [->|He]%elem_of_cons.
      * right. cbn [value key newEntry]. split.
        -- intros l Hl. split_and!.
           ++ by apply cloneBytes_allocated.
           ++ by apply H3.
           ++ intros Hh. by apply (H3 l Hl), Hheld.
        -- by rewrite lookup_insert_eq, H1.
      * left. destruct (Htl e He) as [Hin Hne]. split; [done|].
        by rewrite lookup_insert_ne.
  - (* Get *)
    unfold Get. generalize (GetRLocked k now (cacheOf w)). intros s.
    destruct (GetLocked_frame s k now (heapOf w) (cacheOf w) Hinv)
      as (Hinv1 & Hsub & Hfound & Hnot).
    destruct (GetLocked s k now (heapOf w) (cacheOf w))
      as [[[out fnd] h1] c1] eqn:HG.
    unfold found in *. cbn [fst snd] in *. intros [= _ <-].
    destruct fnd.
    + destruct (Hfound eq_refl) as (e & He & [= -> ->]).
      destruct (cloneBytes_spec (value e) (heapOf w)) as (H1 & _ & H3 & H4).
      apply (isolated_frame w); try done.
      * intros l. unfold handOut.
        destruct (cloneBytes (value e) (heapOf w)).1 as [r0|] eqn:Hr.
        -- intros [->%elem_of_singleton|Hl]%elem_of_union.
           ++ by apply cloneBytes_allocated.
           ++ by apply cloneBytes_dom, Hheld.
        -- intros Hl. by apply cloneBytes_dom, Hheld.
      * intros l Hl. by apply cloneBytes_dom.
      * intros l Hl _. by apply H4.
      * intros l. unfold handOut.
        destruct (cloneBytes (value e) (heapOf w)).1 as [r0|] eqn:Hr.
        -- intros [->%elem_of_singleton|Hl]%elem_of_union; [|by left].
           right. by apply H3.
        -- by left.
      * intros e' He'. left. split; [by apply Hsub|done].
    + pose proof (Hnot eq_refl) as Heq. injection Heq as -> ->. simpl.
      by apply isolated_same_heap.
  - destruct (step now (OpDelete k) (heapOf w, cacheOf w))
      as [[r1 [h1 c1]]|] eqn:Hstep; [|done].
    simpl. intros [= _ <-].
    destruct (step_other_frame now (OpDelete k) _ _ _ _ _ Hinv I Hstep) as (-> & ? & ?).
    by apply isolated_same_heap.
  - simpl. intros [= _ <-]. by destruct w.
  - simpl. intros [= _ <-]. by destruct w.
  - destruct (step now OpClose (heapOf w, cacheOf w))
      as [[r1 [h1 c1]]|] eqn:Hstep; [|done].
    simpl. intros [= _ <-].
    destruct (step_other_frame now OpClose _ _ _ _ _ Hinv I Hstep) as (-> & ? & ?).
    by apply isolated_same_heap.
  - destruct (step now OpTick (heapOf w, cacheOf w))
      as [[r1 [h1 c1]]|] eqn:Hstep; [|done].
    simpl. intros [= _ <-].
    destruct (step_other_frame now OpTick _ _ _ _ _ Hinv I Hstep) as (-> & ? & ?).
    by apply isolated_same_heap.
  - (* the second critical section of a Get *)
    destruct (GetLocked_frame s k now (heapOf w) (cacheOf w) Hinv)
      as (Hinv1 & Hsub & Hfound & Hnot).
    destruct (GetLocked s k now (heapOf w) (cacheOf w))
      as [[[out fnd] h1] c1] eqn:HG.
    unfold found in *. cbn [fst snd] in *. intros [= _ <-].
    destruct fnd.
    + destruct (Hfound eq_refl) as (e & He & [= -> ->]).
      destruct (cloneBytes_spec (value e) (heapOf w)) as (H1 & _ & H3 & H4).
      apply (isolated_frame w); try done.
      * intros l. unfold handOut.
        destruct (cloneBytes (value e) (heapOf w)).1 as [r0|] eqn:Hr.
        -- intros [->%elem_of_singleton|Hl]%elem_of_union.
           ++ by apply cloneBytes_allocated.
           ++ by apply cloneBytes_dom, Hheld.
        -- intros Hl. by apply cloneBytes_dom, Hheld.
      * intros l Hl. by apply cloneBytes_dom.
      * intros l Hl _. by apply H4.
      * intros l. unfold handOut.
        destruct (cloneBytes (value e) (heapOf w)).1 as [r0|] eqn:Hr.
        -- intros [->%elem_of_singleton|Hl]%elem_of_union; [|by left].
           right. by apply H3.
        -- by left.
      * intros e' He'. left. split; [by apply Hsub|done].
    + pose proof (Hnot eq_refl) as Heq. injection Heq as -> ->. simpl.
      by apply isolated_same_heap.
  - (* the caller makes an array *)
    intros [= _ <-]. unfold new_array.
    pose proof (is_fresh (dom (heapOf w))) as Hfresh.
    apply (isolated_frame w); try done.
    + rewrite dom_insert_L. by apply union_mono_l.
    + intros l Hl. rewrite dom_insert_L. apply elem_of_union. by right.
    + intros l Hl _. rewrite lookup_insert_ne; [done|]. by intros <-.
    + intros l [->%elem_of_singleton|Hl]%elem_of_union; [by right|by left].
    + intros e He. by left.
  - (* the caller writes to an array it holds *)
    destruct (bool_decide (l ∈ held w)) eqn:Hl; [|done].
    apply bool_decide_eq_true in Hl. intros [= _ <-]. unfold caller_write.
    apply (isolated_frame w); try done.
    + rewrite dom_insert_L. set_solver.
    + intros l' Hl'. rewrite dom_insert_L. set_solver.
    + intros l' _ Hl'. rewrite lookup_insert_ne; [done|]. by intros <-.
    + intros l' Hl'. by left.
    + intros e He. by left.
Qed.

Lemma wrun_isolated evs : ∀ w rs w',
  isolated w → wrun evs w = Some (rs, w') → isolated w'.
Proof.
  induction evs as [|ev evs IH]; intros w rs w' Hiso; cbn [wrun].
  - by intros [= _ <-].
  - destruct (wstep ev w) as [[r w1]|] eqn:Hstep; [|done]. simpl.
    destruct (wrun evs w1) as [[rs1 w2]|] eqn:Hrun; [|done]. simpl.
    intros [= _ <-]. eapply IH; [|done]. by eapply wstep_isolated.
Qed.

Lemma newWorld_isolated cfg G (h : Heap) :
  G ⊆ dom h → isolated (newWorld cfg G h).
Proof.
  intros HG. split; simpl; try done.
  - apply New_inv.
  - intros e l He. by apply elem_of_nil in He.
  - intros e He. by apply elem_of_nil in He.
Qed.

(** In an isolated world a Get that finds its key returns the bytes last
    set for it, in an array that did not exist before; so does the second
    critical section of a Get that other operations have overtaken. *)
Lemma GetLocked_isolated s now k w out w' :
  isolated w →
  wstep (EvOp now (OpGetLocked s k)) w = Some (RGet out true, w') →
  written w !! k = Some (contents (heapOf w') out) ∧
  ∀ r, out = Some r → r ∉ dom (heapOf w).
Proof.
  intros Hiso. pose proof (iso_inv w Hiso) as Hinv. cbn [wstep].
  destruct (GetLocked_frame s k now (heapOf w) (cacheOf w) Hinv)
    as (_ & _ & Hfound & _).
  destruct (GetLocked s k now (heapOf w) (cacheOf w))
    as [[[out1 fnd] h1] c1] eqn:HG.
  unfold found in *. cbn [fst snd] in *. intros [= -> -> <-].
  destruct (Hfound eq_refl) as (e & He & [= -> ->]). cbn [heapOf].
  destruct (cloneBytes_spec (value e) (heapOf w)) as (H1 & _ & H3 & _).
  apply inv_lookupEntry_Entries in He as [He <-]; [|done].
  split; [|done]. by rewrite (iso_bytes w Hiso e He), H1.
Qed.

Lemma Get_isolated now k w out w' :
  isolated w →
  wstep (EvOp now (OpGet k)) w = Some (RGet out true, w') →
  written w !! k = Some (contents (heapOf w') out) ∧
  ∀ r, out = Some r → r ∉ dom (heapOf w).
Proof.
  intros Hiso Hstep.
  by apply (GetLocked_isolated (GetRLocked k now (cacheOf w)) now k w out w').
Qed.

Example isoExample_runs :
  fst <$> wrun isoExample
            (newWorld {| MaxEntries := 2; CleanupInterval := 0 |}
               {[0%nat; 1%nat]} demoHeap)
  = Some [RErr None; RDone; RGet (Some 3%nat) true; RDone;
          RGet (Some 4%nat) true].
Proof. vm_compute. reflexivity. Qed.

(** The array [2] behind the stored value is not one a caller can write. *)
Example isoExample_private :
  wrun [EvOp 1 (OpSet "k" (Some 0%nat) 0); EvWrite 2%nat [Byte.x5a]]
       (newWorld {| MaxEntries := 2; CleanupInterval := 0 |}
          {[0%nat; 1%nat]} demoHeap)
  = None.
Proof. vm_compute. reflexivity. Qed.

(** The record of the bytes last set changes with a successful Set, and
    with nothing else. *)
Lemma wstep_written ev w r w' :
  wstep ev w = Some (r, w') →
  written w' =
    match ev, r with
    | EvOp _ (OpSet k v _), RErr None =>
        <[k := contents (heapOf w) v]> (written w)
    | _, _ => written w
    end.
Proof.
  destruct ev as [now [k v ttl|k|k| | | | |s k]|bs|l bs]; cbn [wstep].
  - destruct (holds (held w) v); [|done].
    destruct (Set_ k v ttl now (heapOf w) (cacheOf w)) as [[[err h1] c1]|];
      [|done].
    simpl. intros [= <- <-]. by destruct err.
  - destruct (Get k now (heapOf w) (cacheOf w)) as [[[out fnd] h1] c1].
    by intros [= <- <-].
  - destruct (step now (OpDelete k) (heapOf w, cacheOf w)) as [[r1 [h1 c1]]|];
      [|done].
    simpl. by intros [= <- <-].
  - simpl. by intros [= <- <-].
  - simpl. by intros [= <- <-].
  - destruct (step now OpClose (heapOf w, cacheOf w)) as [[r1 [h1 c1]]|];
      [|done].
    simpl. by intros [= <- <-].
  - destruct (step now OpTick (heapOf w, cacheOf w)) as [[r1 [h1 c1]]|];
      [|done].
    simpl. by intros [= <- <-].
  - destruct (GetLocked s k now (heapOf w) (cacheOf w)) as [[[out fnd] h1] c1].
    by intros [= <- <-].
  - by intros [= <- <-].
  - destruct (bool_decide (l ∈ held w)); [|done]. by intros [= <- <-].
Qed.

(** C9. Set stores a copy: the stored array is not the caller's, so
    after the caller overwrites the array it passed to Set, a later Get of
    the key (while the entry is live) still returns the bytes the array had
    when Set was called.  Get returns a copy: the array it hands out is not
    the stored one, so after the caller overwrites it, a further Get still
    returns those same bytes.  And along every history of cache operations
    and of callers making arrays and overwriting the arrays they hold, no
    caller holds an array behind a stored value, a write by a caller leaves
    the bytes of every stored value as they are, and every Get that finds
    its key (also one whose two critical sections other operations have
    come between) returns the bytes that the value passed to the last
    successful Set of that key had when it was set. *)
Theorem C9_value_isolation k v ttl now h c :
  cache_inv c → closed c = false → (∀ b, v = Some b → b ∈ dom h) →
  (∃ h1 c1 e, Set_ k v ttl now h c = Some (None, h1, c1) ∧
    lookupEntry c1 k = Some e ∧
    contents h1 (value e) = contents h v ∧
    (∀ l b, value e = Some l → v = Some b → l ≠ b) ∧
    ∀ h2, h2 = h1 ∨ (∃ b junk, v = Some b ∧ h2 = caller_write b junk h1) →
    ∀ now2, expired now2 e = false →
    ∃ out h3 c2, Get k now2 h2 c1 = (out, true, h3, c2) ∧
      contents h3 out = contents h v ∧
      (∀ r l, out = Some r → value e = Some l → r ≠ l) ∧
      ∀ h4, h4 = h3 ∨ (∃ r junk, out = Some r ∧ h4 = caller_write r junk h3) →
      ∀ now3, expired now3 e = false →
      ∃ out' h5 c3, Get k now3 h4 c2 = (out', true, h5, c3) ∧
        contents h5 out' = contents h v) ∧
  (∀ cfg G (h0 : Heap) evs rs w,
     G ⊆ dom h0 → wrun evs (newWorld cfg G h0) = Some (rs, w) →
     (∀ e l, e ∈ Entries (cacheOf w) → value e = Some l →
        l ∈ dom (heapOf w) ∧ l ∉ held w) ∧
     (∀ ev r w', wstep ev w = Some (r, w') →
        written w' =
          match ev, r with
          | EvOp _ (OpSet k' v' _), RErr None =>
              <[k' := contents (heapOf w) v']> (written w)
          | _, _ => written w
          end) ∧
     (∀ l bs r w', wstep (EvWrite l bs) w = Some (r, w') →
        ∀ e, e ∈ Entries (cacheOf w) →
        contents (heapOf w') (value e) = contents (heapOf w) (value e)) ∧
     (∀ now' k' out w',
        wstep (EvOp now' (OpGet k')) w = Some (RGet out true, w') →
        written w !! k' = Some (contents (heapOf w') out) ∧
        ∀ r, out = Some r → r ∉ dom (heapOf w)) ∧
     (∀ now' s k' out w',
        wstep (EvOp now' (OpGetLocked s k')) w = Some (RGet out true, w') →
        written w !! k' = Some (contents (heapOf w') out) ∧
        ∀ r, out = Some r → r ∉ dom (heapOf w))).
Proof.
  intros Hinv Hopen Hv. split.
  { destruct (Set_spec k v ttl now h c Hinv Hopen)
      as (c1 & HS & Hinv1 & _ & _ & _ & HE).
    set (e := newEntry k (cloneBytes v h).1 ttl now) in *.
    assert (lookupEntry c1 k = Some e) as He.
    { apply inv_lookupEntry_Entries; [done|]. split; [|done].
      rewrite HE. destruct (maxEntries c <=? 0); by left. }
    destruct (cloneBytes_spec v h) as (H1 & _ & H3 & H4).
    assert (∀ l b, value e = Some l → v = Some b → l ≠ b) as Hown.
    { intros l b Hl Hb ->. apply (H3 b Hl). by apply Hv. }
    exists (cloneBytes v h).2, c1, e. split_and!; try done.
    intros h2 Hh2 now2 Hlive2.
    assert (contents h2 (value e) = contents h v ∧
            ∀ l, value e = Some l → l ∈ dom h2) as [Hc2 Ha2].
    { destruct Hh2 as [->|(b & junk & Hb & ->)].
      - split; [done|]. intros l Hl. by apply cloneBytes_allocated.
      - split.
        + rewrite contents_write_other; [done|]. intros l Hl. by eapply Hown.
        + intros l Hl. by apply dom_caller_write, cloneBytes_allocated. }
    destruct (Get_copy k now2 h2 c1 e Hinv1 He Hlive2 Ha2)
      as (out & h3 & c2 & HG & Hinv2 & He2 & Hout & Hfresh & Hk3 & Ha3 & Hwrite).
    exists out, h3, c2. split_and!; try done.
    { by rewrite Hout. }
    { intros r l Hr Hl ->. apply (Hfresh l Hr). by apply Ha2. }
    intros h4 Hh4 now3 Hlive3.
    assert (contents h4 (value e) = contents h v ∧
            ∀ l, value e = Some l → l ∈ dom h4) as [Hc4 Ha4].
    { destruct Hh4 as [->|(r & junk & Hr & ->)].
      - split; [|done]. by rewrite Hk3.
      - destruct (Hwrite r junk Hr) as [Hw1 Hw2]. split; [|done].
        by rewrite Hw1. }
    destruct (Get_copy k now3 h4 c2 e Hinv2 He2 Hlive3 Ha4)
      as (out' & h5 & c3 & HG3 & _ & _ & Hout' & _).
    exists out', h5, c3. split; [done|]. by rewrite Hout'. }
  intros cfg G h0 evs rs w HG Hrun.
  assert (isolated w) as Hiso.
  { eapply wrun_isolated; [|done]. by apply newWorld_isolated. }
  split_and!.
  - apply Hiso.
  - intros ev r w'. apply wstep_written.
  - intros l bs r w' Hstep e He.
    pose proof (wstep_isolated _ _ _ _ Hiso Hstep) as Hiso'.
    pose proof (wstep_written _ _ _ _ Hstep) as Hw. simpl in Hw.
    assert (cacheOf w' = cacheOf w) as Hc.
    { cbn [wstep] in Hstep. destruct (bool_decide (l ∈ held w)); [|done].
      by injection Hstep as _ <-. }
    pose proof (iso_bytes w Hiso e He) as Hb.
    rewrite <- Hc in He. pose proof (iso_bytes w' Hiso' e He) as Hb'.
    rewrite Hw in Hb'. congruence.
  - intros now' k' out w'. by apply Get_isolated.
  - intros now' s k' out w'. by apply GetLocked_isolated.
Qed.

Lemma C9_witness :
  cache_inv demoFull ∧ closed demoFull = false ∧
  ∃ h1 c1,
    Set_ "k" (Some 0%nat) 0 1 demoHeap demoFull = Some (None, h1, c1) ∧
    ∃ out h3 c2,
      Get "k" 2 (caller_write 0%nat [Byte.x5a] h1) c1 = (out, true, h3, c2) ∧
      contents h3 out = [Byte.x41] ∧
      ∃ out' h5 c3,
        Get "k" 3 (caller_write 3%nat [Byte.x59] h3) c2 = (out', true, h5, c3) ∧
        contents h5 out' = [Byte.x41].
Proof.
  assert (cache_inv demoFull) as Hinv
    by (apply cache_invb_sound; vm_compute; reflexivity).
  split; [done|]. split; [done|].
  destruct (C9_value_isolation "k" (Some 0%nat) 0 1 demoHeap demoFull Hinv eq_refl)
    as [(h1 & c1 & e & HS & He & Hc & Hown & Hget) _].
  { intros b [= <-]. apply elem_of_dom. by eexists. }
  assert (e = Entry "k" (Some 2%nat) 0 false) as ->.
  { vm_compute in HS. injection HS as <- <-. vm_compute in He.
    by injection He as <-. }
  exists h1, c1. split; [done|].
  destruct (Hget (caller_write 0%nat [Byte.x5a] h1)) with (now2 := 2)
    as (out & h3 & c2 & HG & Hout & Hne & Hget2).
  { right. by eexists _, _. }
  { done. }
  exists out, h3, c2. split_and!; [done..|].
  assert (out = Some 3%nat) as Ho.
  { vm_compute in HS. injection HS as <- <-. vm_compute in HG.
    by injection HG as <- _ _. }
  destruct (Hget2 (caller_write 3%nat [Byte.x59] h3)) with (now3 := 3)
    as (out' & h5 & c3 & HG3 & Hout').
  { right. by eexists _, _. }
  { done. }
  by exists out', h5, c3.
Defined.


(** * Part IV: further properties of the code *)

(** ** The expiry sweep, [deleteExpiredLocked] *)

(** Two caches with the invariant, the same elements in the same order and
    the same entries are the same cache: the index is determined. *)
Lemma inv_ext c1 c2 :
  cache_inv c1 → cache_inv c2 →
  maxEntries c1 = maxEntries c2 → cleanupEvery c1 = cleanupEvery c2 →
  closed c1 = closed c2 → nodes c1 = nodes c2 → lru c1 = lru c2 →
  c1 = c2.
Proof.
  intros Hinv1 Hinv2 Hm He Hc Hn Hl.
  assert (items c1 = items c2) as Hi.
  { apply map_eq. intros k. apply option_eq. intros el.
    rewrite !inv_items_iff by done. unfold entryOf. by rewrite Hn, Hl. }
  destruct c1, c2. simpl in *. by subst.
Qed.

Lemma expired_mono now1 now2 e :
  now1 ≤ now2 → expired now1 e = true → expired now2 e = true.
Proof. rewrite !expired_spec. intros Hle [Hh Hx]. split; [done|lia]. Qed.

Lemma sweep_count now c :
  cache_inv c →
  (deleteExpiredLocked now c).1
  = length (filter (λ e, expired now e = true) (Entries c)).
Proof.
  intros Hinv.
  destruct (deleteExpiredLocked_spec now c Hinv) as (Hres & Hl & Hn).
  pose proof (filter_bool_split (expired now) (Entries c)) as Hsplit.
  assert (length (lru (deleteExpiredLocked now c).2)
          = length (filter (λ e, expired now e = false) (Entries c))) as Hlive.
  { rewrite Hl. unfold Entries. by rewrite <- Entries_filter_live, length_fmap. }
  unfold Entries in Hsplit at 1. rewrite length_fmap in Hsplit. lia.
Qed.

(** X1. The expiry sweep removes exactly the entries that are expired at
    [now] (expiry set and expiry <= now), wherever they stand, keeps the
    others in their order, and returns the number of entries it removed. *)
Theorem X1_sweep_exact now c :
  cache_inv c →
  cache_inv (deleteExpiredLocked now c).2 ∧
  Entries (deleteExpiredLocked now c).2
    = filter (λ e, ¬ (hasExpiry e = true ∧ expiresAt e ≤ now)) (Entries c) ∧
  (deleteExpiredLocked now c).1
    = length (filter (λ e, hasExpiry e = true ∧ expiresAt e ≤ now) (Entries c)) ∧
  Len (deleteExpiredLocked now c).2
    = Len c - Z.of_nat (deleteExpiredLocked now c).1.
Proof.
  intros Hinv.
  destruct (deleteExpiredLocked_spec now c Hinv) as (Hres & Hl & Hn).
  assert (cache_inv (deleteExpiredLocked now c).2) as Hinv'
    by by apply (restricted_inv c).
  split_and!.
  - done.
  - rewrite (restricted_Entries c _ Hres), Hl, Entries_filter_live.
    apply list_filter_iff. intros e. rewrite <- expired_spec.
    by rewrite not_true_iff_false.
  - rewrite sweep_count by done. f_equal.
    apply list_filter_iff. intros e. by rewrite expired_spec.
  - unfold Len. rewrite (inv_size c Hinv), (inv_size _ Hinv'). lia.
Qed.

Lemma X1_witness :
  cache_inv demoStale ∧
  (deleteExpiredLocked 10 demoStale).1 = 1%nat ∧
  Keys (deleteExpiredLocked 10 demoStale).2 = ["b"] ∧
  Len (deleteExpiredLocked 10 demoStale).2 = 1.
Proof.
  assert (cache_inv demoStale) as Hinv
    by (apply cache_invb_sound; vm_compute; reflexivity).
  destruct (X1_sweep_exact 10 demoStale Hinv) as (_ & HE & Hn & HL).
  split_and!; [done| | |].
  - rewrite Hn. vm_compute. reflexivity.
  - rewrite Keys_Entries, HE. vm_compute. reflexivity.
  - rewrite HL, Hn. vm_compute. reflexivity.
Defined.

(** X2. The result of the sweep, the cache and the count, does not depend
    on the order in which the range over the index map visits the keys. *)
Theorem X2_sweep_any_order now c order :
  cache_inv c → order ≡ₚ map_to_list (items c) →
  deleteExpiredOver order now c = deleteExpiredLocked now c.
Proof. apply deleteExpiredOver_order. Qed.

Lemma X2_witness :
  cache_inv demoStale ∧
  [("b", 1%nat); ("a", 0%nat)] ≡ₚ map_to_list (items demoStale) ∧
  [("a", 0%nat); ("b", 1%nat)] ≡ₚ map_to_list (items demoStale) ∧
  deleteExpiredOver [("b", 1%nat); ("a", 0%nat)] 10 demoStale
  = deleteExpiredOver [("a", 0%nat); ("b", 1%nat)] 10 demoStale.
Proof.
  assert (cache_inv demoStale) as Hinv
    by (apply cache_invb_sound; vm_compute; reflexivity).
  assert ([("b", 1%nat); ("a", 0%nat)] ≡ₚ map_to_list (items demoStale)) as H1.
  { apply (bool_decide_eq_true_1 _). vm_compute. reflexivity. }
  assert ([("a", 0%nat); ("b", 1%nat)] ≡ₚ map_to_list (items demoStale)) as H2.
  { apply (bool_decide_eq_true_1 _). vm_compute. reflexivity. }
  split_and!; [done..|].
  rewrite (X2_sweep_any_order 10 demoStale _ Hinv H1).
  by rewrite (X2_sweep_any_order 10 demoStale _ Hinv H2).
Defined.

(** X3. Sweeps compose: a sweep at a later time after a sweep at an earlier
    one leaves the cache a single sweep at the later time leaves, and the
    two counts add up to the count of that single sweep; so a second sweep
    at the same time removes nothing. *)
Theorem X3_sweep_composes now1 now2 c :
  cache_inv c → now1 ≤ now2 →
  (deleteExpiredLocked now2 (deleteExpiredLocked now1 c).2).2
    = (deleteExpiredLocked now2 c).2 ∧
  ((deleteExpiredLocked now1 c).1
   + (deleteExpiredLocked now2 (deleteExpiredLocked now1 c).2).1
   = (deleteExpiredLocked now2 c).1)%nat ∧
  deleteExpiredLocked now1 (deleteExpiredLocked now1 c).2
    = (0%nat, (deleteExpiredLocked now1 c).2).
Proof.
  intros Hinv Hle.
  destruct (deleteExpiredLocked_spec now1 c Hinv) as (Hres1 & Hl1 & Hn1).
  destruct (deleteExpiredLocked_spec now2 c Hinv) as (Hres2 & Hl2 & Hn2).
  set (c1 := (deleteExpiredLocked now1 c).2) in *.
  assert (cache_inv c1) as Hinv1 by by apply (restricted_inv c).
  assert (∀ now, now1 ≤ now →
            (deleteExpiredLocked now c1).2 = (deleteExpiredLocked now c).2 ∧
            length (lru (deleteExpiredLocked now c1).2)
              = length (lru (deleteExpiredLocked now c).2)) as Hlater.
  { intros now Hnow.
    destruct (deleteExpiredLocked_spec now c1 Hinv1) as (Hres12 & Hl12 & _).
    destruct (deleteExpiredLocked_spec now c Hinv) as (Hres & Hl & _).
    assert (lru (deleteExpiredLocked now c1).2
            = lru (deleteExpiredLocked now c).2) as Heq.
    { rewrite Hl12, Hl, Hl1, list_filter_filter. apply list_filter_iff.
      intros el. rewrite (restricted_entryOf c c1) by done. split; [tauto|].
      intros Hlive. split; [done|]. apply not_true_is_false. intros Hex.
      by rewrite (expired_mono now1 now _ Hnow Hex) in Hlive. }
    split; [|by rewrite Heq].
    apply (restricted_ext c); [by apply (restricted_trans c c1)|done..]. }
  destruct (deleteExpiredLocked_spec now2 c1 Hinv1) as (_ & _ & Hn12).
  destruct (deleteExpiredLocked_spec now1 c1 Hinv1) as (_ & _ & Hn11).
  destruct (Hlater now2 Hle) as [Hs2 Hlen2].
  destruct (Hlater now1 ltac:(lia)) as [Hs1 Hlen1].
  split_and!.
  - done.
  - lia.
  - destruct (deleteExpiredLocked now1 c1) as [n cc] eqn:Hd. simpl in *.
    fold c1 in Hs1. subst cc. f_equal. lia.
Qed.

Lemma X3_witness :
  cache_inv demoStale ∧ 3 ≤ 10 ∧
  (deleteExpiredLocked 10 (deleteExpiredLocked 3 demoStale).2).2
    = (deleteExpiredLocked 10 demoStale).2 ∧
  deleteExpiredLocked 10 (deleteExpiredLocked 10 demoStale).2
    = (0%nat, (deleteExpiredLocked 10 demoStale).2).
Proof.
  assert (cache_inv demoStale) as Hinv
    by (apply cache_invb_sound; vm_compute; reflexivity).
  destruct (X3_sweep_composes 3 10 demoStale Hinv ltac:(lia)) as (H1 & _ & _).
  destruct (X3_sweep_composes 10 10 demoStale Hinv ltac:(lia)) as (_ & _ & H3).
  split_and!; [done|lia|done..].
Defined.

(** ** The worker's tick and Get *)

Lemma filter_swap {A} (P Q : A → Prop)
    `{∀ x, Decision (P x)} `{∀ x, Decision (Q x)} (l : list A) :
  filter P (filter Q l) = filter Q (filter P l).
Proof. rewrite !list_filter_filter. apply list_filter_iff. tauto. Qed.

(** X4. Active and lazy expiration agree: a tick of the worker at time
    [now] changes the result of no Get at that time or later (found flag,
    array returned and heap are the same with and without the tick), and
    tick and Get can be taken in either order with the same cache at the
    end. *)
Theorem X4_sweep_invisible_to_get now now' k h c :
  cache_inv c → now ≤ now' →
  Get k now' h (expiryTick now c)
  = ((Get k now' h c).1, expiryTick now (Get k now' h c).2).
Proof.
  intros Hinv Hle.
  destruct (deleteExpiredLocked_spec now c Hinv) as (Hres & Hl & _).
  fold (expiryTick now c) in Hres, Hl. set (ct := expiryTick now c) in *.
  assert (cache_inv ct) as Hinvt by by apply (restricted_inv c).
  destruct (items c !! k) as [el|] eqn:Hk.
  2:{ assert (items ct !! k = None) as Hkt.
      { destruct (items ct !! k) as [el|] eqn:Hkt; [|done].
        apply (res_items _ _ Hres) in Hkt as [Hkt _]. congruence. }
      by rewrite !Get_absent. }
  pose proof (inv_items_lru c Hinv k el Hk) as Hel.
  assert (∀ now0 c0, restricted c c0 →
            lru (deleteExpiredLocked now0 c0).2
            = filter (λ x, expired now0 (entryOf c x) = false) (lru c0) ∧
            restricted c (deleteExpiredLocked now0 c0).2) as Htick.
  { intros now0 c0 Hres0.
    assert (cache_inv c0) as Hinv0 by by apply (restricted_inv c).
    destruct (deleteExpiredLocked_spec now0 c0 Hinv0) as (Hr & Hlr & _).
    split; [|by apply (restricted_trans c c0)].
    rewrite Hlr. apply list_filter_iff. intros x.
    by rewrite (restricted_entryOf c c0). }
  destruct (expired now' (entryOf c el)) eqn:Hex'.
  - (* expired at the time of the Get *)
    rewrite (Get_expired k now' h c el) by done. cbn [fst snd].
    pose proof (deleteLocked_restricted c k Hinv) as Hresd.
    destruct (Htick now (deleteLocked k c) Hresd) as [Hltd Hrestd].
    fold (expiryTick now (deleteLocked k c)) in Hltd, Hrestd.
    rewrite (deleteLocked_present c k el Hk) in Hltd at 2.
    cbn [lru with_lru] in Hltd. unfold Remove in Hltd.
    destruct (expired now (entryOf c el)) eqn:Hex.
    + assert (items ct !! k = None) as Hkt.
      { destruct (items ct !! k) as [el'|] eqn:Hkt; [|done].
        apply (res_items _ _ Hres) in Hkt as [Hkt Hin].
        assert (el' = el) as -> by congruence.
        rewrite Hl in Hin. apply list_elem_of_filter in Hin as [Hlive _].
        congruence. }
      rewrite Get_absent by done. f_equal.
      apply (restricted_ext c); [done..|].
      rewrite Hl, Hltd, list_filter_filter. apply list_filter_iff.
      intros x. split; [|tauto]. intros Hlive. split; [done|].
      intros ->. congruence.
    + assert (items ct !! k = Some el) as Hkt.
      { apply (res_items _ _ Hres). split; [done|].
        rewrite Hl. by apply list_elem_of_filter. }
      rewrite (Get_expired k now' h ct el); [|done|].
      2:{ by rewrite (restricted_entryOf c ct). }
      f_equal. apply (restricted_ext c).
      * apply (restricted_trans c ct); [done|].
        by apply deleteLocked_restricted.
      * done.
      * rewrite (deleteLocked_present ct k el Hkt). cbn [lru with_lru].
        unfold Remove. rewrite Hl, Hltd. apply filter_swap.
  - (* live at the time of the Get, so live at the time of the tick *)
    assert (expired now (entryOf c el) = false) as Hex.
    { apply not_true_is_false. intros Hex.
      by rewrite (expired_mono now now' _ Hle Hex) in Hex'. }
    assert (items ct !! k = Some el) as Hkt.
    { apply (res_items _ _ Hres). split; [done|].
      rewrite Hl. by apply list_elem_of_filter. }
    assert (el ∈ lru ct) as Helt by by apply (inv_items_lru ct Hinvt k).
    rewrite (Get_live k now' h c el) by done.
    rewrite (Get_live k now' h ct el); [|done|].
    2:{ by rewrite (restricted_entryOf c ct). }
    rewrite (restricted_entryOf c ct) by done. cbn [fst snd]. f_equal.
    destruct (moveToFront_spec c k el Hinv Hk) as [Hinvg _].
    destruct (moveToFront_spec ct k el Hinvt Hkt) as [Hinvtg _].
    set (cg := with_lru (MoveToFront el (lru c)) c) in *.
    destruct (deleteExpiredLocked_spec now cg Hinvg) as (Hresg & Hlg & _).
    fold (expiryTick now cg) in Hresg, Hlg.
    apply inv_ext; try done.
    + by apply (restricted_inv cg).
    + rewrite (res_max _ _ Hresg). cbn. by rewrite (res_max _ _ Hres).
    + rewrite (res_every _ _ Hresg). cbn. by rewrite (res_every _ _ Hres).
    + rewrite (res_closed _ _ Hresg). cbn. by rewrite (res_closed _ _ Hres).
    + rewrite (res_nodes _ _ Hresg). cbn. by rewrite (res_nodes _ _ Hres).
    + rewrite Hlg. cbn [lru with_lru]. unfold cg, MoveToFront.
      cbn [lru with_lru]. rewrite !decide_True by done.
      rewrite filter_cons, decide_True by done.
      rewrite Hl. f_equal. apply filter_swap.
Qed.

Lemma X4_witness :
  cache_inv demoStale ∧ 7 ≤ 10 ∧
  (Get "a" 10 demoHeap (expiryTick 7 demoStale)).1
    = (Get "a" 10 demoHeap demoStale).1 ∧
  (Get "b" 10 demoHeap (expiryTick 7 demoStale)).1
    = (Get "b" 10 demoHeap demoStale).1.
Proof.
  assert (cache_inv demoStale) as Hinv
    by (apply cache_invb_sound; vm_compute; reflexivity).
  split_and!; [done|lia| |].
  - by rewrite (X4_sweep_invisible_to_get 7 10 "a" demoHeap demoStale Hinv
                  ltac:(lia)).
  - by rewrite (X4_sweep_invisible_to_get 7 10 "b" demoHeap demoStale Hinv
                  ltac:(lia)).
Defined.

(** X5. A tick of the worker makes Len exact at its time: after a sweep at
    [now] every key of the cache is found by a Get at [now], so Len is the
    number of keys found, and these are the keys that were found before the
    sweep. *)
Theorem X5_len_exact_after_sweep now h c :
  cache_inv c →
  foundKeys now h (expiryTick now c) = Keys (expiryTick now c) ∧
  Len (expiryTick now c)
    = Z.of_nat (length (foundKeys now h (expiryTick now c))) ∧
  foundKeys now h (expiryTick now c) = foundKeys now h c.
Proof.
  intros Hinv. destruct (expiryTick_spec now c Hinv) as [Hres HE].
  assert (cache_inv (expiryTick now c)) as Hinv' by by apply (restricted_inv c).
  assert (filter (λ e, expired now e = false) (Entries (expiryTick now c))
          = Entries (expiryTick now c)) as Hall.
  { apply filter_all. intros e. rewrite HE.
    by intros [? _]%list_elem_of_filter. }
  assert (foundKeys now h (expiryTick now c) = Keys (expiryTick now c)) as HK.
  { by rewrite foundKeys_live, Hall, Keys_Entries. }
  split_and!.
  - done.
  - by rewrite HK, inv_Len.
  - by rewrite HK, Keys_Entries, HE, foundKeys_live.
Qed.

Lemma X5_witness :
  cache_inv demoStale ∧
  Len demoStale = 2 ∧ Len (expiryTick 10 demoStale) = 1 ∧
  foundKeys 10 demoHeap (expiryTick 10 demoStale) = ["b"].
Proof.
  assert (cache_inv demoStale) as Hinv
    by (apply cache_invb_sound; vm_compute; reflexivity).
  destruct (X5_len_exact_after_sweep 10 demoHeap demoStale Hinv)
    as (HK & HL & _).
  split_and!; [done|reflexivity| |].
  - rewrite HL, HK. vm_compute. reflexivity.
  - rewrite HK. vm_compute. reflexivity.
Defined.

(** ** The capacity along a history *)

Lemma Get_found_len s k now h c :
  cache_inv c → Len (GetLocked s k now h c).2 ≤ Len c.
Proof.
  intros Hinv.
  destruct (GetLocked_safe s k now h c Hinv) as (Hinv' & Hfound & Hnot).
  rewrite !Len_Entries by done.
  destruct (found (GetLocked s k now h c)) eqn:Hf.
  - destruct (Hfound eq_refl) as (_ & e & He & _ & _ & HE). rewrite HE.
    apply inv_lookupEntry_Entries in He as [He Hk]; [|done].
    assert (length (filter (λ e', key e' ≠ k) (Entries c))
            < length (Entries c))%nat.
    { apply (length_filter_lt _ _ e); [done|]. by intros ?. }
    simpl. lia.
  - destruct (Hnot eq_refl) as (_ & Hres & _).
    pose proof (sublist_length _ _ (restricted_Entries_sublist c _ Hres)). lia.
Qed.

Lemma step_len now o h c r h' c' :
  cache_inv c → 0 < maxEntries c → Len c ≤ maxEntries c →
  step now o (h, c) = Some (r, (h', c')) →
  Len c' ≤ maxEntries c ∧ (∀ n, r = RLen n → n = Len c).
Proof.
  intros Hinv Hpos Hlen.
  destruct o as [k v ttl|k|k| | | | |s k]; cbn [step].
  - destruct (closed c) eqn:Hc.
    + rewrite Set_closed by done. simpl. intros [= <- _ <-]. done.
    + destruct (Set_spec k v ttl now h c Hinv Hc)
        as (c1 & -> & Hinv1 & _ & _ & _ & HE).
      simpl. intros [= <- _ <-]. split; [|done].
      rewrite Len_Entries, HE by done.
      destruct (Z.leb_spec (maxEntries c) 0); [lia|].
      simpl. rewrite length_take. lia.
  - pose proof (Get_found_len (GetRLocked k now c) k now h c Hinv) as HL.
    fold (Get k now h c) in HL.
    destruct (Get k now h c) as [[[out f] h1] c1]. intros [= <- _ <-].
    simpl in HL. split; [lia|done].
  - destruct (closed c) eqn:Hc.
    + rewrite Delete_closed by done. by intros [= <- _ <-].
    + rewrite Delete_open by done. intros [= <- _ <-]. split; [|done].
      pose proof (deleteLocked_restricted c k Hinv) as Hres.
      assert (cache_inv (deleteLocked k c)) as Hinv' by by apply (restricted_inv c).
      rewrite Len_Entries by done. rewrite Len_Entries in Hlen by done.
      pose proof (sublist_length _ _ (restricted_Entries_sublist c _ Hres)). lia.
  - intros [= <- _ <-]. split; [done|]. by intros n [= <-].
  - by intros [= <- _ <-].
  - destruct (Close_spec c) as (_ & _ & Hw & _).
    destruct (Close c) as [err c1]. simpl in Hw. subst c1.
    by intros [= <- _ <-].
  - intros [= <- _ <-]. split; [|done].
    destruct (0 <? cleanupEvery c); [|done].
    destruct (expiryTick_spec now c Hinv) as [Hres _].
    assert (cache_inv (expiryTick now c)) as Hinv' by by apply (restricted_inv c).
    rewrite Len_Entries by done. rewrite Len_Entries in Hlen by done.
    pose proof (sublist_length _ _ (restricted_Entries_sublist c _ Hres)). lia.
  - pose proof (Get_found_len s k now h c Hinv) as HL.
    destruct (GetLocked s k now h c) as [[[out f] h1] c1]. intros [= <- _ <-].
    simpl in HL. split; [lia|done].
Qed.

Lemma run_len evs : ∀ h c,
  cache_inv c → 0 < maxEntries c → Len c ≤ maxEntries c →
  ∃ rs h' c', run evs (h, c) = Some (rs, (h', c')) ∧
    cache_inv c' ∧ maxEntries c' = maxEntries c ∧
    Len c' ≤ maxEntries c ∧
    Forall (λ r, match r with RLen n => n ≤ maxEntries c | _ => True end) rs.
Proof.
  induction evs as [|[now o] evs IH]; intros h c Hinv Hpos Hlen.
  - exists [], h, c. by split_and!.
  - destruct (step_spec now o h c Hinv)
      as (r & h1 & c1 & Hstep & Hinv1 & Hm1 & _).
    destruct (step_len _ _ _ _ _ _ _ Hinv Hpos Hlen Hstep) as [Hlen1 Hr].
    destruct (IH h1 c1) as (rs & h' & c' & Hrun & Hinv' & Hm' & Hlen' & Hrs);
      [done|lia|lia|].
    exists (r :: rs), h', c'. cbn [run]. rewrite Hstep. simpl. rewrite Hrun.
    simpl. split_and!; [done|done|lia|lia|].
    constructor.
    + destruct r; try done. rewrite (Hr n eq_refl). done.
    + eapply Forall_impl; [done|]. intros r0. destruct r0; try done.
      rewrite Hm1. done.
Qed.

(** X6. A cache made with [MaxEntries > 0] never holds more entries than
    that: whatever operations and ticks are run on it, in any order and at
    any times (a Get being allowed to be overtaken between its two critical
    sections), the history runs to its end, Len is at most [MaxEntries] at
    the end, and so is every value a Len in the history returned. *)
Theorem X6_capacity_bound cfg evs h0 :
  0 < MaxEntries cfg →
  ∃ rs h c, run evs (h0, New cfg) = Some (rs, (h, c)) ∧
    Len c ≤ MaxEntries cfg ∧
    Z.of_nat (length (Keys c)) ≤ MaxEntries cfg ∧
    Forall (λ r, match r with RLen n => n ≤ MaxEntries cfg | _ => True end) rs.
Proof.
  intros Hpos.
  destruct (run_len evs h0 (New cfg) (New_inv cfg))
    as (rs & h & c & Hrun & Hinv & Hm & Hlen & Hrs); [done| |].
  { unfold Len. cbn [items New maxEntries]. rewrite map_size_empty. lia. }
  exists rs, h, c. simpl in *. split_and!; try done.
  by rewrite <- inv_Len.
Qed.

Lemma X6_witness :
  0 < MaxEntries {| MaxEntries := 2; CleanupInterval := 0 |} ∧
  ∃ rs h c,
    run (lruExample ++ [(8, OpLen)])
        (demoHeap, New {| MaxEntries := 2; CleanupInterval := 0 |})
      = Some (rs, (h, c)) ∧
    Len c = 2 ∧ last rs = Some (RLen 2).
Proof.
  split; [simpl; lia|].
  destruct (X6_capacity_bound {| MaxEntries := 2; CleanupInterval := 0 |}
              (lruExample ++ [(8, OpLen)]) demoHeap)
    as (rs & h & c & Hrun & _); [simpl; lia|].
  exists rs, h, c. split; [done|].
  vm_compute in Hrun. injection Hrun as <- <- <-.
  split; vm_compute; reflexivity.
Defined.

(** ** The two critical sections of Get *)

Lemma GetLocked_fresh_live k now h c e :
  lookupEntry c k = Some e → expired now e = false →
  found (GetLocked Fresh k now h c) = true.
Proof.
  intros (el & Hk & _ & <-)%lookupEntry_Some Hlive.
  unfold found. cbn [GetLocked]. rewrite Hk, Hlive. simpl.
  by destruct (cloneBytes _ h).
Qed.

(** X7. The second critical section of Get looks the key up and checks it
    again, so it is safe whatever the first one saw and whatever ran in
    between: it keeps the invariant of index and list; it reports found
    exactly when the first section saw a live entry and the key is live in
    the cache as it is now, and then returns a copy of the value stored now
    and moves that entry to the front; and when it reports not-found it
    returns nil, leaves the heap alone, and has changed the entry of no
    other key. *)
Theorem X7_get_revalidates s k now h c :
  cache_inv c →
  cache_inv (GetLocked s k now h c).2 ∧
  (found (GetLocked s k now h c) = true ↔
     s = Fresh ∧ ∃ e, lookupEntry c k = Some e ∧ expired now e = false) ∧
  (∀ e, s = Fresh → lookupEntry c k = Some e → expired now e = false →
     (GetLocked s k now h c).1
       = ((cloneBytes (value e) h).1, true, (cloneBytes (value e) h).2) ∧
     Entries (GetLocked s k now h c).2
       = e :: filter (λ e', key e' ≠ k) (Entries c)) ∧
  (found (GetLocked s k now h c) = false →
     (GetLocked s k now h c).1 = (None, false, h) ∧
     (∀ e', e' ∈ Entries (GetLocked s k now h c).2 → e' ∈ Entries c) ∧
     (∀ k', k' ≠ k →
        lookupEntry (GetLocked s k now h c).2 k' = lookupEntry c k')).
Proof.
  intros Hinv.
  destruct (GetLocked_safe s k now h c Hinv) as (Hinv' & Hfound & Hnot).
  assert (∀ e, s = Fresh → lookupEntry c k = Some e → expired now e = false →
            found (GetLocked s k now h c) = true) as Hconv.
  { intros e -> He Hlive. by apply (GetLocked_fresh_live k now h c e). }
  split_and!.
  - done.
  - split.
    + intros Hf. destruct (Hfound Hf) as (Hs & e & He & Hlive & _).
      split; [done|]. by exists e.
    + intros (Hs & e & He & Hlive). by apply (Hconv e).
  - intros e Hs He Hlive.
    destruct (Hfound (Hconv e Hs He Hlive)) as (_ & e' & He' & _ & Hr & HE).
    assert (e' = e) as -> by congruence. done.
  - intros Hf. destruct (Hnot Hf) as (Hr & Hres & Hother).
    split_and!; [done| |].
    + intros e' He'. eapply elem_of_sublist; [done|].
      by apply restricted_Entries_sublist.
    + intros k' Hne. unfold lookupEntry.
      by rewrite (Hother k' Hne), (res_nodes _ _ Hres).
Qed.

Lemma X7_witness :
  cache_inv demoStale ∧
  found (GetLocked Fresh "b" 10 demoHeap demoStale) = true ∧
  found (GetLocked Fresh "a" 10 demoHeap demoStale) = false ∧
  Keys (GetLocked Fresh "a" 10 demoHeap demoStale).2 = ["b"].
Proof.
  assert (cache_inv demoStale) as Hinv
    by (apply cache_invb_sound; vm_compute; reflexivity).
  destruct (X7_get_revalidates Fresh "b" 10 demoHeap demoStale Hinv)
    as (_ & Hiff & _).
  split_and!; [done| |vm_compute; reflexivity..].
  apply Hiff. split; [done|]. eexists. split; vm_compute; reflexivity.
Defined.

(** X8. A Get that another caller's Set overtakes can miss a live key: if
    the first critical section saw the key expired or missing, and a Set of
    that key then stored an entry that is live at the time of the Get, the
    second critical section still reports not-found; it returns nil and
    leaves heap and cache exactly as the Set left them, so the entry the
    Set stored is not deleted. *)
Theorem X8_overtaken_get_misses k now v ttl now1 h c h1 c1 :
  cache_inv c →
  GetRLocked k now c ≠ Fresh →
  Set_ k v ttl now1 h c = Some (None, h1, c1) →
  ttl ≤ 0 ∨ now < now1 + ttl →
  GetLocked (GetRLocked k now c) k now h1 c1 = (None, false, h1, c1) ∧
  found (Get k now h1 c1) = true.
Proof.
  intros Hinv Hs HS Httl.
  assert (closed c = false) as Hopen.
  { destruct (closed c) eqn:Hc; [|done].
    by rewrite Set_closed in HS by done. }
  destruct (Set_spec k v ttl now1 h c Hinv Hopen)
    as (c1' & HS' & Hinv1 & _ & _ & _ & HE).
  rewrite HS in HS'. injection HS' as -> <-.
  set (e := newEntry k (cloneBytes v h).1 ttl now1) in *.
  assert (lookupEntry c1 k = Some e) as He.
  { apply inv_lookupEntry_Entries; [done|]. split; [|done].
    rewrite HE. destruct (maxEntries c <=? 0); by left. }
  assert (expired now e = false) as Hlive.
  { apply expired_false_spec. unfold e, newEntry. simpl.
    destruct (Z.ltb_spec 0 ttl); [right; lia|by left]. }
  split.
  - destruct (lookupEntry_Some _ _ _ He) as (el & Hk & _ & Hel).
    destruct (GetRLocked k now c); [done| |done].
    cbn [GetLocked]. unfold deleteIfExpiredLocked.
    by rewrite Hk, Hel, Hlive.
  - apply Get_found_iff; [done|]. by exists e.
Qed.

Lemma X8_witness :
  cache_inv demoStale ∧
  GetRLocked "a" 10 demoStale = Stale ∧
  ∃ h1 c1,
    Set_ "a" (Some 1%nat) 0 11 demoHeap demoStale = Some (None, h1, c1) ∧
    GetLocked Stale "a" 10 h1 c1 = (None, false, h1, c1) ∧
    Keys c1 = ["a"; "b"].
Proof.
  assert (cache_inv demoStale) as Hinv
    by (apply cache_invb_sound; vm_compute; reflexivity).
  split; [done|]. split; [vm_compute; reflexivity|].
  destruct (Set_ "a" (Some 1%nat) 0 11 demoHeap demoStale)
    as [[[[err|] h1] c1]|] eqn:HS; try (by vm_compute in HS).
  exists h1, c1. split; [done|].
  destruct (X8_overtaken_get_misses "a" 10 (Some 1%nat) 0 11
              demoHeap demoStale h1 c1 Hinv) as [HG _].
  - vm_compute. discriminate.
  - done.
  - left. lia.
  - split.
    + assert (GetRLocked "a" 10 demoStale = Stale) as Hs
        by (vm_compute; reflexivity).
      by rewrite Hs in HG.
    + vm_compute in HS. injection HS as <- <-. vm_compute. reflexivity.
Defined.

(** ** What an operation can do to heap and entries *)

Lemma GetLocked_effect s k now h c out f h' c' :
  cache_inv c → GetLocked s k now h c = (out, f, h', c') →
  cache_inv c' ∧
  (∀ l, l ∈ dom h → h' !! l = h !! l) ∧
  (∀ e, e ∈ Entries c' → e ∈ Entries c) ∧
  (f = false → out = None ∧ h' = h) ∧
  (f = true → k ∈ Keys c).
Proof.
  intros Hinv HG.
  destruct (GetLocked_frame s k now h c Hinv) as (Hinv' & Hsub & Hfound & Hnot).
  unfold found in *. rewrite HG in *. simpl in *.
  split_and!; try done.
  - intros l Hl. destruct f.
    + destruct (Hfound eq_refl) as (e & _ & [= _ ->]).
      by apply cloneBytes_spec.
    + by injection (Hnot eq_refl) as _ <-.
  - intros ->. by injection (Hnot eq_refl) as <- <-.
  - intros ->. destruct (Hfound eq_refl) as (e & He & _).
    apply inv_lookupEntry_Entries in He as [He <-]; [|done].
    rewrite Keys_Entries. by apply list_elem_of_fmap_2.
Qed.

(** Every operation keeps the arrays of the heap as they are; only Set and
    Get allocate; an entry of the cache afterwards was there before, unless
    the operation is a Set of its key on an open cache; and a Get finds only
    a key that is stored. *)
Lemma step_effect now o h c r h' c' :
  cache_inv c → step now o (h, c) = Some (r, (h', c')) →
  cache_inv c' ∧
  (∀ l, l ∈ dom h → h' !! l = h !! l) ∧
  (clones o = false → h' = h) ∧
  (∀ e, e ∈ Entries c' →
     e ∈ Entries c ∨ (setsKey (key e) o = true ∧ closed c = false)) ∧
  (∀ k, getsKey k o = true →
     r = RGet None false ∨ (∃ out, r = RGet out true) ∧ k ∈ Keys c).
Proof.
  intros Hinv.
  destruct o as [k v ttl|k|k| | | | |s k];
    try (match goal with
         | |- step now ?o _ = _ → _ =>
             intros Hstep;
             destruct (step_other_frame now o h c r h' c' Hinv I Hstep)
               as (-> & Hinv' & Hsub)
         end;
         split_and!; [done|done|done|by left; apply Hsub|done]);
    cbn [step].
  - destruct (closed c) eqn:Hc.
    + rewrite Set_closed by done. simpl. intros [= <- <- <-].
      split_and!; try done. by left.
    + destruct (Set_frame k v ttl now h c Hinv Hc)
        as (c1 & tl & -> & Hinv1 & HE & Htl).
      simpl. intros [= <- <- <-]. split_and!; try done.
      * intros l Hl. by apply cloneBytes_spec.
      * intros e. rewrite HE. intros [->|He]%elem_of_cons.
        -- right. simpl. by rewrite bool_decide_eq_true_2.
        -- left. by apply Htl.
  - unfold Get.
    destruct (GetLocked (GetRLocked k now c) k now h c)
      as [[[out f] h1] c1] eqn:HG.
    intros [= <- <- <-].
    destruct (GetLocked_effect _ k now h c out f h1 c1 Hinv HG)
      as (Hinv' & Hh & Hsub & Hnot & Hfound).
    split_and!; try done.
    + intros e He. left. by apply Hsub.
    + intros k' Hk'. apply bool_decide_eq_true in Hk'. subst k'.
      destruct f.
      * right. split; [by eexists|by apply Hfound].
      * left. by destruct (Hnot eq_refl) as [-> _].
  - destruct (GetLocked s k now h c) as [[[out f] h1] c1] eqn:HG.
    intros [= <- <- <-].
    destruct (GetLocked_effect _ k now h c out f h1 c1 Hinv HG)
      as (Hinv' & Hh & Hsub & Hnot & Hfound).
    split_and!; try done.
    + intros e He. left. by apply Hsub.
    + intros k' Hk'. apply bool_decide_eq_true in Hk'. subst k'.
      destruct f.
      * right. split; [by eexists|by apply Hfound].
      * left. by destruct (Hnot eq_refl) as [-> _].
Qed.

(** ** A key that is gone stays gone until it is set *)

Lemma step_absent k now o h c r h' c' :
  cache_inv c → k ∉ Keys c → setsKey k o = false →
  step now o (h, c) = Some (r, (h', c')) →
  cache_inv c' ∧ (k ∉ Keys c') ∧ (getsKey k o = true → r = RGet None false).
Proof.
  intros Hinv Hk Hset Hstep.
  destruct (step_effect now o h c r h' c' Hinv Hstep)
    as (Hinv' & _ & _ & Hsub & Hget).
  split_and!; [done| |].
  - rewrite Keys_Entries. intros (e & -> & He)%list_elem_of_fmap.
    destruct (Hsub e He) as [Hin|[Hs _]]; [|congruence].
    apply Hk. rewrite Keys_Entries. by apply list_elem_of_fmap_2.
  - intros Hg. by destruct (Hget k Hg) as [->|[_ Hin]].
Qed.

(** X9. A key that is not in the cache stays out of it, whatever the other
    operations do, for as long as no Set of that key runs: along every
    history without such a Set the key is not stored at the end, and every
    Get of it on the way returns nil and not-found.  So a key that was
    deleted, evicted or reclaimed after its expiry never comes back by
    itself. *)
Theorem X9_no_resurrection k evs : ∀ h c rs h' c',
  cache_inv c → k ∉ Keys c →
  Forall (λ ev, setsKey k ev.2 = false) evs →
  run evs (h, c) = Some (rs, (h', c')) →
  (k ∉ Keys c') ∧
  Forall (λ x, getsKey k x.1.2 = true → x.2 = RGet None false) (zip evs rs).
Proof.
  induction evs as [|[now o] evs IH]; intros h c rs h' c' Hinv Hk Hsets;
    cbn [run].
  - by intros [= <- _ <-].
  - destruct (step now o (h, c)) as [[r [h1 c1]]|] eqn:Hstep; [|done]. simpl.
    destruct (run evs (h1, c1)) as [[rs1 [h2 c2]]|] eqn:Hrun; [|done]. simpl.
    intros [= <- <- <-]. apply Forall_cons in Hsets as [Hset Hsets].
    destruct (step_absent k now o h c r h1 c1 Hinv Hk Hset Hstep)
      as (Hinv1 & Hk1 & Hr).
    destruct (IH h1 c1 rs1 h2 c2 Hinv1 Hk1 Hsets Hrun) as [Hk2 Hrs].
    split; [done|]. simpl. by apply Forall_cons.
Qed.

Lemma X9_witness :
  ("a" ∉ Keys (Get "a" 10 demoHeap demoStale).2) ∧
  ∃ rs h' c',
    run [(11, OpGet "a"); (12, OpSet "c" (Some 1%nat) 0); (13, OpKeys);
         (14, OpGetLocked Fresh "a")]
      (demoHeap, (Get "a" 10 demoHeap demoStale).2) = Some (rs, (h', c')) ∧
    ("a" ∉ Keys c') ∧
    rs !! 0%nat = Some (RGet None false) ∧ rs !! 3%nat = Some (RGet None false).
Proof.
  assert ("a" ∉ Keys (Get "a" 10 demoHeap demoStale).2) as Hk.
  { assert (Keys (Get "a" 10 demoHeap demoStale).2 = ["b"]) as ->
      by (vm_compute; reflexivity).
    intros [Hab|Hnil%elem_of_nil]%elem_of_cons; [done|done]. }
  split; [done|].
  destruct (run [(11, OpGet "a"); (12, OpSet "c" (Some 1%nat) 0); (13, OpKeys);
                 (14, OpGetLocked Fresh "a")]
              (demoHeap, (Get "a" 10 demoHeap demoStale).2))
    as [[rs [h' c']]|] eqn:Hrun; [|by vm_compute in Hrun].
  exists rs, h', c'. split; [done|].
  assert (cache_inv (Get "a" 10 demoHeap demoStale).2) as Hinv
    by (apply cache_invb_sound; vm_compute; reflexivity).
  assert (Forall (λ ev : Z * op, setsKey "a" ev.2 = false)
            [(11, OpGet "a"); (12, OpSet "c" (Some 1%nat) 0); (13, OpKeys);
             (14, OpGetLocked Fresh "a")]) as Hsets
    by (repeat constructor).
  destruct (X9_no_resurrection "a" _ _ _ rs h' c' Hinv Hk Hsets Hrun)
    as [Hk' _].
  split; [done|].
  vm_compute in Hrun. injection Hrun as <- _ _. done.
Defined.

(** ** Get and the entries *)

(** X10. Get changes no entry.  The entry of every other key is after the
    Get what it was before, expired or not; a Get that finds its key leaves
    the entry of that key as it was, value and expiry alike, so reading a
    key does not extend its time to live; a Get that does not find its key
    leaves no entry under it.  The number of entries goes down by one when
    the key had an expired entry and stays the same otherwise. *)
Theorem X10_get_changes_no_entry k now h c :
  cache_inv c →
  (∀ k', k' ≠ k → lookupEntry (Get k now h c).2 k' = lookupEntry c k') ∧
  (found (Get k now h c) = true →
     lookupEntry (Get k now h c).2 k = lookupEntry c k) ∧
  (found (Get k now h c) = false → lookupEntry (Get k now h c).2 k = None) ∧
  Len (Get k now h c).2 =
    match lookupEntry c k with
    | Some e => if expired now e then Len c - 1 else Len c
    | None => Len c
    end.
Proof.
  intros Hinv. destruct (items c !! k) as [el|] eqn:Hk.
  - destruct (inv_index c Hinv k el Hk) as (_ & e & Hn & _).
    assert (entryOf c el = e) as He by (unfold entryOf; by rewrite Hn).
    assert (lookupEntry c k = Some e) as Hl
      by (unfold lookupEntry; by rewrite Hk).
    rewrite Hl. destruct (expired now e) eqn:Hex.
    + rewrite (Get_expired k now h c el) by (by rewrite ?He).
      assert (nodes (deleteLocked k c) = nodes c) as Hnodes
        by (unfold deleteLocked; by rewrite Hk).
      unfold found. cbn [fst snd]. split_and!.
      * intros k' Hne. unfold lookupEntry.
        by rewrite deleteLocked_other, Hnodes.
      * done.
      * intros _. unfold lookupEntry. by rewrite deleteLocked_gone.
      * unfold Len, deleteLocked. rewrite Hk. cbn [items with_lru with_items].
        rewrite map_size_delete, Hk.
        assert (size (items c) ≠ 0%nat)
          by (apply map_size_ne_0_lookup; by exists k, el).
        lia.
    + rewrite (Get_live k now h c el) by (by rewrite ?He).
      unfold found. cbn [fst snd]. by split_and!.
  - rewrite Get_absent by done.
    assert (lookupEntry c k = None) as Hl
      by (unfold lookupEntry; by rewrite Hk).
    rewrite Hl. by split_and!.
Qed.

Lemma X10_witness :
  lookupEntry (Get "a" 10 demoHeap demoStale).2 "b"
    = Some (Entry "b" (Some 1%nat) 0 false) ∧
  lookupEntry (Get "a" 4 demoHeap demoStale).2 "a"
    = Some (Entry "a" (Some 0%nat) 5 true) ∧
  Len (Get "a" 10 demoHeap demoStale).2 = 1.
Proof.
  assert (cache_inv demoStale) as Hinv
    by (apply cache_invb_sound; vm_compute; reflexivity).
  destruct (X10_get_changes_no_entry "a" 10 demoHeap demoStale Hinv)
    as (Hother & _ & _ & HLen).
  destruct (X10_get_changes_no_entry "a" 4 demoHeap demoStale Hinv)
    as (_ & Hfound & _).
  split_and!.
  - rewrite Hother by done. vm_compute. reflexivity.
  - rewrite Hfound by (vm_compute; reflexivity). vm_compute. reflexivity.
  - rewrite HLen. vm_compute. reflexivity.
Defined.

(** ** Capacity enforcement, run again *)

Lemma sublist_same_length {A} (l1 l2 : list A) :
  l1 `sublist_of` l2 → (length l2 ≤ length l1)%nat → l1 = l2.
Proof.
  induction 1 as [|x l1 l2 Hs IH|x l1 l2 Hs IH]; simpl; intros Hlen.
  - done.
  - f_equal. apply IH. lia.
  - pose proof (sublist_length _ _ Hs). lia.
Qed.

(** X11. Capacity enforcement terminates on every cache whose index and
    list agree, and it reaches a state it leaves alone: run again at the
    same time on its own result, it removes nothing.  What one Set has
    enforced, the next operation finds enforced. *)
Theorem X11_enforcement_idempotent now c :
  cache_inv c →
  ∃ c', evictIfNeededLocked now c = Some c' ∧
    cache_inv c' ∧ evictIfNeededLocked now c' = Some c'.
Proof.
  intros Hinv.
  destruct (evictIfNeededLocked_Entries now c Hinv) as (c' & Hrun & Hres & HE).
  assert (cache_inv c') as Hinv' by by apply (restricted_inv c).
  exists c'. split_and!; [done..|].
  destruct (evictIfNeededLocked_Entries now c' Hinv')
    as (c2 & Hrun2 & Hres2 & HE2).
  rewrite Hrun2. f_equal.
  apply (restricted_ext c' c2 c'); [done|by apply restricted_refl|].
  apply sublist_same_length; [by apply (res_lru _ _ Hres2)|].
  assert (Entries c2 = Entries c') as HEq.
  { rewrite HE2, (res_max _ _ Hres).
    destruct (maxEntries c <=? 0); [done|].
    rewrite HE at 1.
    rewrite (filter_all (λ e, expired now e = false)).
    - by rewrite take_take, Nat.min_id.
    - intros e (i & He & _)%elem_of_take.
      by apply list_elem_of_lookup_2, list_elem_of_filter in He as [? _]. }
  apply (f_equal length) in HEq. unfold Entries in HEq.
  rewrite !length_fmap in HEq. lia.
Qed.

Lemma X11_witness :
  ∃ c', evictIfNeededLocked 10 demoStale = Some c' ∧
    cache_inv c' ∧ evictIfNeededLocked 10 c' = Some c' ∧ Keys c' = ["b"].
Proof.
  assert (cache_inv demoStale) as Hinv
    by (apply cache_invb_sound; vm_compute; reflexivity).
  destruct (X11_enforcement_idempotent 10 demoStale Hinv)
    as (c' & Hrun & Hinv' & Hagain).
  exists c'. split_and!; [done..|].
  vm_compute in Hrun. injection Hrun as <-. vm_compute. reflexivity.
Defined.

(** ** Set, then Get *)

(** X13. A value set on an open cache is read back until its time to live
    is over, whatever the capacity: after [Set k v ttl] at time [now], a
    Get of [k] at time [now'] finds the key exactly when [ttl <= 0] or
    [now' < now + ttl]; what it returns then holds the bytes that were
    passed to Set; and at [now + ttl] or later it returns nil and takes the
    entry out of the cache. *)
Theorem X13_set_get_round_trip k v ttl now now' h c :
  cache_inv c → closed c = false →
  ∃ h1 c1, Set_ k v ttl now h c = Some (None, h1, c1) ∧
    (found (Get k now' h1 c1) = true ↔ ttl ≤ 0 ∨ now' < now + ttl) ∧
    (found (Get k now' h1 c1) = true →
       contents (Get k now' h1 c1).1.2 (Get k now' h1 c1).1.1.1
       = contents h v) ∧
    (found (Get k now' h1 c1) = false →
       (Get k now' h1 c1).1.1.1 = None ∧
       lookupEntry (Get k now' h1 c1).2 k = None).
Proof.
  intros Hinv Hopen.
  destruct (Set_spec k v ttl now h c Hinv Hopen)
    as (c1 & HS & Hinv1 & _ & _ & _ & HE).
  set (e := newEntry k (cloneBytes v h).1 ttl now) in *.
  set (h1 := (cloneBytes v h).2) in *.
  assert (lookupEntry c1 k = Some e) as He.
  { apply inv_lookupEntry_Entries; [done|]. split; [|done].
    rewrite HE. destruct (maxEntries c <=? 0); by left. }
  assert (expired now' e = false ↔ ttl ≤ 0 ∨ now' < now + ttl) as Hlive.
  { rewrite expired_false_spec. unfold e, newEntry. simpl.
    destruct (Z.ltb_spec 0 ttl); intuition (congruence || lia). }
  exists h1, c1. split_and!; [done| | |].
  - rewrite Get_found_iff by done. split.
    + intros (e' & He' & Hex). rewrite He in He'. injection He' as <-.
      by apply Hlive.
    + intros Httl. exists e. split; [done|]. by apply Hlive.
  - intros (e' & He' & Hex)%Get_found_iff; [|done].
    rewrite He in He'. injection He' as <-.
    destruct (Get_found_spec k now' h1 c1 e Hinv1 He Hex) as (c2 & -> & _).
    cbn [fst snd].
    destruct (cloneBytes_spec (value e) h1) as (-> & _).
    unfold e, h1. cbn [value newEntry].
    by destruct (cloneBytes_spec v h) as (-> & _).
  - intros Hf.
    destruct (expired now' e) eqn:Hex.
    + destruct (Get_stale_spec k now' h1 c1 e Hinv1 He Hex)
        as (c2 & -> & _ & _ & _ & Hgone & _).
      cbn [fst snd]. split; [done|]. unfold lookupEntry. by rewrite Hgone.
    + assert (found (Get k now' h1 c1) = true) as Hf'
        by (apply Get_found_iff; [done|]; by exists e).
      congruence.
Qed.

Lemma X13_witness :
  ∃ h1 c1, Set_ "k" (Some 0%nat) 30 100 demoHeap demoStale
             = Some (None, h1, c1) ∧
    found (Get "k" 129 h1 c1) = true ∧
    contents (Get "k" 129 h1 c1).1.2 (Get "k" 129 h1 c1).1.1.1 = [Byte.x41] ∧
    found (Get "k" 130 h1 c1) = false.
Proof.
  assert (cache_inv demoStale) as Hinv
    by (apply cache_invb_sound; vm_compute; reflexivity).
  destruct (X13_set_get_round_trip "k" (Some 0%nat) 30 100 129
              demoHeap demoStale Hinv eq_refl)
    as (h1 & c1 & HS & Hiff & Hbytes & _).
  exists h1, c1.
  assert (found (Get "k" 129 h1 c1) = true) as Hf by (apply Hiff; right; lia).
  split_and!; [done|done|by rewrite (Hbytes Hf)|].
  vm_compute in HS. injection HS as <- <-. vm_compute. reflexivity.
Defined.

(** ** The heap along a history *)

Lemma cloneBytes_size b (h : Heap) :
  (size (cloneBytes b h).2 ≤ S (size h))%nat.
Proof.
  destruct b as [l|]; simpl; [|lia].
  rewrite map_size_insert. destruct (h !! new_array h); simpl; lia.
Qed.

Lemma step_alloc now o h c r h' c' :
  cache_inv c → step now o (h, c) = Some (r, (h', c')) →
  (size h' ≤ size h + (if clones o then 1 else 0))%nat.
Proof.
  intros Hinv Hstep.
  destruct (clones o) eqn:Ho.
  2:{ destruct (step_effect now o h c r h' c' Hinv Hstep)
        as (_ & _ & Hh & _). rewrite (Hh Ho). lia. }
  assert (∀ s k out f, GetLocked s k now h c = (out, f, h', c') →
            (size h' ≤ size h + 1)%nat) as HGet.
  { intros s k out f HG.
    destruct (GetLocked_frame s k now h c Hinv) as (_ & _ & Hfound & Hnot).
    unfold found in *. rewrite HG in *. simpl in *. destruct f.
    - destruct (Hfound eq_refl) as (e & _ & [= _ ->]).
      pose proof (cloneBytes_size (value e) h). lia.
    - injection (Hnot eq_refl) as _ <-. lia. }
  destruct o as [k v ttl|k|k| | | | |s k]; try done; cbn [step] in Hstep.
  - destruct (closed c) eqn:Hc.
    + rewrite Set_closed in Hstep by done. simpl in Hstep.
      injection Hstep as _ <- _. lia.
    + destruct (Set_frame k v ttl now h c Hinv Hc) as (c1 & tl & HS & _).
      rewrite HS in Hstep. simpl in Hstep. injection Hstep as _ <- _.
      pose proof (cloneBytes_size v h). lia.
  - unfold Get in Hstep.
    destruct (GetLocked (GetRLocked k now c) k now h c)
      as [[[out f] h1] c1] eqn:HG.
    injection Hstep as _ <- <-. by apply (HGet _ _ _ _ HG).
  - destruct (GetLocked s k now h c) as [[[out f] h1] c1] eqn:HG.
    injection Hstep as _ <- <-. by apply (HGet _ _ _ _ HG).
Qed.

(** X12. The cache writes into no array that exists.  Along every history
    of operations each array of the heap at the start holds at the end the
    bytes it held at the start, so neither the buffer passed to a Set nor
    the bytes behind a stored value are changed in place; each Set and each
    Get allocates at most one array; and Delete, Len, Keys, Close and the
    ticks of the worker leave the heap as it is. *)
Theorem X12_heap_never_overwritten evs : ∀ h c rs h' c',
  cache_inv c → run evs (h, c) = Some (rs, (h', c')) →
  (∀ l, l ∈ dom h → h' !! l = h !! l) ∧
  (size h' ≤ size h + length (filter (λ ev, clones ev.2 = true) evs))%nat ∧
  (Forall (λ ev, clones ev.2 = false) evs → h' = h).
Proof.
  induction evs as [|[now o] evs IH]; intros h c rs h' c' Hinv; cbn [run].
  - intros [= _ <- _]. split_and!; [done|simpl; lia|done].
  - destruct (step now o (h, c)) as [[r [h1 c1]]|] eqn:Hstep; [|done]. simpl.
    destruct (run evs (h1, c1)) as [[rs1 [h2 c2]]|] eqn:Hrun; [|done]. simpl.
    intros [= _ <- <-].
    destruct (step_effect now o h c r h1 c1 Hinv Hstep)
      as (Hinv1 & Hh1 & Hsame & _).
    pose proof (step_alloc now o h c r h1 c1 Hinv Hstep) as Hsize.
    destruct (IH h1 c1 rs1 h2 c2 Hinv1 Hrun) as (Hh2 & Hsize2 & Hsame2).
    split_and!.
    + intros l Hl. rewrite <- (Hh1 l Hl). apply Hh2.
      apply elem_of_dom. rewrite (Hh1 l Hl). by apply elem_of_dom.
    + rewrite filter_cons. simpl. destruct (clones o) eqn:Ho.
      * rewrite decide_True by done. simpl. lia.
      * rewrite decide_False by done. lia.
    + intros [Ho Hevs]%Forall_cons. simpl in Ho.
      by rewrite (Hsame2 Hevs), (Hsame Ho).
Qed.

Lemma X12_witness :
  ∃ rs h' c',
    run [(1, OpSet "c" (Some 0%nat) 0); (2, OpGet "c"); (3, OpDelete "b");
         (20, OpTick)] (demoHeap, demoStale) = Some (rs, (h', c')) ∧
    h' !! 0%nat = Some [Byte.x41] ∧ h' !! 1%nat = Some [Byte.x42] ∧
    (size h' ≤ 4)%nat.
Proof.
  assert (cache_inv demoStale) as Hinv
    by (apply cache_invb_sound; vm_compute; reflexivity).
  destruct (run [(1, OpSet "c" (Some 0%nat) 0); (2, OpGet "c");
                 (3, OpDelete "b"); (20, OpTick)] (demoHeap, demoStale))
    as [[rs [h' c']]|] eqn:Hrun; [|by vm_compute in Hrun].
  exists rs, h', c'. split; [done|].
  destruct (X12_heap_never_overwritten _ _ _ rs h' c' Hinv Hrun)
    as (Hsame & Hsize & _).
  split_and!.
  - rewrite Hsame; [done|]. apply elem_of_dom. by eexists.
  - rewrite Hsame; [done|]. apply elem_of_dom. by eexists.
  - etrans; [exact Hsize|]. apply Nat.leb_le. vm_compute. reflexivity.
Defined.

(** ** A closed cache *)

Lemma step_closed now o h c r h' c' :
  cache_inv c → closed c = true → step now o (h, c) = Some (r, (h', c')) →
  cache_inv c' ∧ closed c' = true ∧
  (∀ e, e ∈ Entries c' → e ∈ Entries c) ∧
  (guarded o = true → r = RErr (Some ErrClosed)).
Proof.
  intros Hinv Hc Hstep.
  destruct (step_effect now o h c r h' c' Hinv Hstep)
    as (Hinv' & _ & _ & Hsub & _).
  split_and!; [done| | |].
  - rewrite (step_flag _ _ _ _ _ _ _ Hstep). by destruct o.
  - intros e He. destruct (Hsub e He) as [Hin|[_ Hopen]]; [done|congruence].
  - destruct o as [k v ttl|k|k| | | | |s k]; try done; cbn [step] in Hstep;
      intros _.
    + rewrite Set_closed in Hstep by done. simpl in Hstep.
      by injection Hstep as <- _ _.
    + rewrite Delete_closed in Hstep by done.
      by injection Hstep as <- _ _.
Qed.

(** X14. A closed cache only shrinks.  Along every history that starts on a
    closed cache, every Set and every Delete returns [ErrClosed], the cache
    stays closed, and every entry it holds at the end it held at the start
    with the same value and expiry, so its length has not grown; entries
    can still go, since Get and the sweep remove expired ones. *)
Theorem X14_closed_only_shrinks evs : ∀ h c rs h' c',
  cache_inv c → closed c = true →
  run evs (h, c) = Some (rs, (h', c')) →
  cache_inv c' ∧ closed c' = true ∧
  (∀ e, e ∈ Entries c' → e ∈ Entries c) ∧
  Len c' ≤ Len c ∧
  Forall (λ x, guarded x.1.2 = true → x.2 = RErr (Some ErrClosed))
    (zip evs rs).
Proof.
  assert (∀ c c', cache_inv c → cache_inv c' →
            (∀ e, e ∈ Entries c' → e ∈ Entries c) → Len c' ≤ Len c) as HLen.
  { intros c c' Hinv Hinv' Hsub. rewrite !Len_Entries by done.
    apply inj_le, submseteq_length, NoDup_submseteq; [|done].
    apply (NoDup_fmap_1 key). rewrite <- Keys_Entries.
    by apply inv_Keys_NoDup. }
  induction evs as [|[now o] evs IH]; intros h c rs h' c' Hinv Hc; cbn [run].
  - intros [= <- _ <-]. split_and!; try done; lia.
  - destruct (step now o (h, c)) as [[r [h1 c1]]|] eqn:Hstep; [|done]. simpl.
    destruct (run evs (h1, c1)) as [[rs1 [h2 c2]]|] eqn:Hrun; [|done]. simpl.
    intros [= <- <- <-].
    destruct (step_closed now o h c r h1 c1 Hinv Hc Hstep)
      as (Hinv1 & Hc1 & Hsub1 & Hr).
    destruct (IH h1 c1 rs1 h2 c2 Hinv1 Hc1 Hrun)
      as (Hinv2 & Hc2 & Hsub2 & _ & Hrs).
    assert (∀ e, e ∈ Entries c2 → e ∈ Entries c) as Hsub
      by (intros e He; by apply Hsub1, Hsub2).
    split_and!; [done|done|done|by apply HLen|].
    simpl. by apply Forall_cons.
Qed.

Lemma X14_witness :
  ∃ rs h' c',
    run [(10, OpSet "c" (Some 0%nat) 0); (11, OpGet "a"); (12, OpDelete "b");
         (13, OpGet "b")] (demoHeap, (Close demoStale).2)
      = Some (rs, (h', c')) ∧
    Keys c' = ["b"] ∧ closed c' = true ∧
    rs !! 0%nat = Some (RErr (Some ErrClosed)) ∧
    rs !! 2%nat = Some (RErr (Some ErrClosed)).
Proof.
  assert (cache_inv (Close demoStale).2) as Hinv
    by (apply cache_invb_sound; vm_compute; reflexivity).
  destruct (run [(10, OpSet "c" (Some 0%nat) 0); (11, OpGet "a");
                 (12, OpDelete "b"); (13, OpGet "b")]
              (demoHeap, (Close demoStale).2))
    as [[rs [h' c']]|] eqn:Hrun; [|by vm_compute in Hrun].
  exists rs, h', c'. split; [done|].
  destruct (X14_closed_only_shrinks _ _ _ rs h' c' Hinv eq_refl Hrun)
    as (_ & Hc' & _).
  vm_compute in Hrun. injection Hrun as <- _ <-.
  split_and!; [vm_compute; reflexivity|done|done|done].
Defined.

(** ** Entries nobody asks for *)

Lemma deleteLocked_lookup_other c k k' :
  k' ≠ k → lookupEntry (deleteLocked k c) k' = lookupEntry c k'.
Proof.
  intros Hne. unfold lookupEntry. rewrite deleteLocked_other by done.
  unfold deleteLocked. by destruct (items c !! k).
Qed.

Lemma GetLocked_lookup_other s k k' now h c :
  k' ≠ k → lookupEntry (GetLocked s k now h c).2 k' = lookupEntry c k'.
Proof.
  intros Hne. unfold GetLocked, deleteIfExpiredLocked. destruct s; [done|..].
  - destruct (items c !! k) as [el|]; [|done].
    destruct (expired now (entryOf c el)); [|done].
    by apply deleteLocked_lookup_other.
  - destruct (items c !! k) as [el|]; [|done].
    destruct (expired now (entryOf c el)).
    + by apply deleteLocked_lookup_other.
    + by destruct (cloneBytes _ h).
Qed.

Lemma GetLocked_every s k now h c :
  cleanupEvery (GetLocked s k now h c).2 = cleanupEvery c.
Proof.
  unfold GetLocked, deleteIfExpiredLocked, deleteLocked.
  destruct s; try done.
  - destruct (items c !! k) as [el|]; [|done].
    by destruct (expired now (entryOf c el)).
  - destruct (items c !! k) as [el|]; [|done].
    destruct (expired now (entryOf c el)); [done|].
    by destruct (cloneBytes _ h).
Qed.

Lemma step_lingers k e now o h c r h' c' :
  cache_inv c → maxEntries c ≤ 0 → cleanupEvery c ≤ 0 →
  lookupEntry c k = Some e → usesKey k o = false →
  step now o (h, c) = Some (r, (h', c')) →
  cache_inv c' ∧ maxEntries c' ≤ 0 ∧ cleanupEvery c' ≤ 0 ∧
  lookupEntry c' k = Some e.
Proof.
  intros Hinv Hmax Hevery He Ho.
  assert (∀ s k', k' ≠ k →
            cache_inv (GetLocked s k' now h c).2 ∧
            maxEntries (GetLocked s k' now h c).2 ≤ 0 ∧
            cleanupEvery (GetLocked s k' now h c).2 ≤ 0 ∧
            lookupEntry (GetLocked s k' now h c).2 k = Some e) as HGet.
  { intros s k' Hne. rewrite GetLocked_max, GetLocked_every.
    rewrite GetLocked_lookup_other by done.
    by destruct (GetLocked_safe s k' now h c Hinv) as (? & _). }
  destruct o as [k' v ttl|k'|k'| | | | |s k']; cbn [step]; simpl in Ho;
    try apply bool_decide_eq_false in Ho.
  - destruct (closed c) eqn:Hc.
    + rewrite Set_closed by done. simpl. by intros [= _ _ <-].
    + destruct (Set_spec k' v ttl now h c Hinv Hc)
        as (c1 & -> & Hinv1 & Hm1 & _ & He1 & HE).
      simpl. intros [= _ _ <-]. rewrite Hm1, He1. split_and!; try done.
      apply inv_lookupEntry_Entries in He as [Hin Hkey]; [|done].
      apply inv_lookupEntry_Entries; [done|]. split; [|done].
      rewrite HE. destruct (Z.leb_spec (maxEntries c) 0); [|lia].
      right. apply list_elem_of_filter. split; [|done]. congruence.
  - specialize (HGet (GetRLocked k' now c) k' Ho). fold (Get k' now h c) in HGet.
    destruct (Get k' now h c) as [[[out f] h1] c1]. by intros [= _ _ <-].
  - destruct (closed c) eqn:Hc.
    + rewrite Delete_closed by done. by intros [= _ _ <-].
    + rewrite Delete_open by done. intros [= _ _ <-].
      pose proof (deleteLocked_restricted c k' Hinv) as Hres.
      rewrite (res_max _ _ Hres), (res_every _ _ Hres).
      rewrite deleteLocked_lookup_other by done.
      split_and!; try done. by apply (restricted_inv c).
  - by intros [= _ _ <-].
  - by intros [= _ _ <-].
  - destruct (Close_spec c) as (_ & _ & Hw & _).
    destruct (Close c) as [err c1]. simpl in Hw. subst c1.
    intros [= _ _ <-]. split_and!; try done. by apply with_closed_inv.
  - intros [= _ _ <-]. by destruct (Z.ltb_spec 0 (cleanupEvery c)); [lia|].
  - specialize (HGet s k' Ho).
    destruct (GetLocked s k' now h c) as [[[out f] h1] c1].
    by intros [= _ _ <-].
Qed.

(** X15. Without a capacity and without the worker, an entry that nobody
    asks for stays in the cache for ever, expired or not: when
    [maxEntries <= 0] and [cleanupEvery <= 0], every history that has no
    Set, Get or Delete of a key leaves the entry of that key as it was,
    whatever the times of the operations.  Lazy expiration alone removes an
    expired entry only when its own key is read. *)
Theorem X15_dead_entries_linger k e evs : ∀ h c rs h' c',
  cache_inv c → maxEntries c ≤ 0 → cleanupEvery c ≤ 0 →
  lookupEntry c k = Some e →
  Forall (λ ev, usesKey k ev.2 = false) evs →
  run evs (h, c) = Some (rs, (h', c')) →
  lookupEntry c' k = Some e ∧ k ∈ Keys c' ∧ 1 ≤ Len c'.
Proof.
  induction evs as [|[now o] evs IH];
    intros h c rs h' c' Hinv Hmax Hevery He Hevs; cbn [run].
  - intros [= _ _ <-].
    assert (k ∈ Keys c) as Hk.
    { apply inv_lookupEntry_Entries in He as [Hin <-]; [|done].
      rewrite Keys_Entries. by apply list_elem_of_fmap_2. }
    split_and!; [done..|].
    rewrite inv_Len by done. destruct (Keys c); [by apply elem_of_nil in Hk|].
    simpl. lia.
  - destruct (step now o (h, c)) as [[r [h1 c1]]|] eqn:Hstep; [|done]. simpl.
    destruct (run evs (h1, c1)) as [[rs1 [h2 c2]]|] eqn:Hrun; [|done]. simpl.
    intros [= _ _ <-]. apply Forall_cons in Hevs as [Ho Hevs].
    destruct (step_lingers k e now o h c r h1 c1 Hinv Hmax Hevery He Ho Hstep)
      as (Hinv1 & Hmax1 & Hevery1 & He1).
    by apply (IH h1 c1 rs1 h2 c2).
Qed.

Lemma X15_witness :
  ∃ rs h' c',
    run [(100, OpSet "c" None 0); (200, OpGet "b"); (300, OpTick);
         (400, OpDelete "b")]
      (demoHeap,
       MkCache 0 (items demoStale) (lru demoStale) (nodes demoStale) 0 false)
      = Some (rs, (h', c')) ∧
    lookupEntry c' "a" = Some (Entry "a" (Some 0%nat) 5 true) ∧
    Keys c' = ["c"; "a"].
Proof.
  set (c := MkCache 0 (items demoStale) (lru demoStale) (nodes demoStale)
              0 false).
  assert (cache_inv c) as Hinv
    by (apply cache_invb_sound; vm_compute; reflexivity).
  assert (maxEntries c ≤ 0) as Hmax by (simpl; lia).
  assert (cleanupEvery c ≤ 0) as Hevery by (simpl; lia).
  assert (lookupEntry c "a" = Some (Entry "a" (Some 0%nat) 5 true)) as He
    by (vm_compute; reflexivity).
  assert (Forall (λ ev : Z * op, usesKey "a" ev.2 = false)
            [(100, OpSet "c" None 0); (200, OpGet "b"); (300, OpTick);
             (400, OpDelete "b")]) as Hevs
    by (repeat constructor).
  destruct (run [(100, OpSet "c" None 0); (200, OpGet "b"); (300, OpTick);
                 (400, OpDelete "b")] (demoHeap, c))
    as [[rs [h' c']]|] eqn:Hrun; [|by vm_compute in Hrun].
  exists rs, h', c'. split; [done|].
  destruct (X15_dead_entries_linger _ _ _ _ _ rs h' c'
              Hinv Hmax Hevery He Hevs Hrun) as (He' & _).
  split; [done|].
  vm_compute in Hrun. injection Hrun as _ _ <-. vm_compute. reflexivity.
Defined.

(** ** The key just read *)

(** X16. The key a Get has just found is not the one the next Set evicts.
    On an open cache whose capacity is not 1, after a Get that finds [k],
    a Set of another key [k'] at a time when the entry of [k] has not
    expired keeps that entry as it was, and the recency order then starts
    with [k'] and [k]. *)
Theorem X16_recently_read_survives k k' v ttl now now' h c e :
  cache_inv c → closed c = false → k' ≠ k → maxEntries c ≠ 1 →
  lookupEntry c k = Some e →
  expired now e = false → expired now' e = false →
  found (Get k now h c) = true ∧
  ∃ h2 c2,
    Set_ k' v ttl now' (Get k now h c).1.2 (Get k now h c).2
      = Some (None, h2, c2) ∧
    lookupEntry c2 k = Some e ∧
    take 2 (Keys c2) = [k'; k].
Proof.
  intros Hinv Hopen Hne Hcap He Hlive Hlive'.
  destruct (Get_found_spec k now h c e Hinv He Hlive)
    as (c1 & HG & Hinv1 & Hc1 & Hm1 & _ & _ & HE1).
  rewrite HG. unfold found. cbn [fst snd]. split; [done|].
  rewrite Hopen in Hc1.
  destruct (Set_spec k' v ttl now' (cloneBytes (value e) h).2 c1 Hinv1 Hc1)
    as (c2 & HS & Hinv2 & _ & _ & _ & HE2).
  eexists _, c2. split; [exact HS|].
  assert (key e = k) as Hkey
    by by apply inv_lookupEntry_Entries in He as [_ ?].
  assert (∃ e' tl, Entries c2 = e' :: e :: tl ∧ key e' = k') as
    (e' & tl & HE & Hkey').
  { rewrite HE2, HE1, Hm1.
    rewrite (filter_cons (λ e', key e' ≠ k')).
    rewrite decide_True by congruence.
    destruct (Z.leb_spec (maxEntries c) 0); [by eexists _, _|].
    rewrite (filter_cons (λ e', expired now' e' = false)).
    rewrite decide_True by done.
    destruct (Z.to_nat (maxEntries c) - 1)%nat as [|n] eqn:Hn; [lia|].
    simpl. by eexists _, _. }
  split.
  - apply inv_lookupEntry_Entries; [done|]. split; [|done].
    rewrite HE. right. by left.
  - rewrite Keys_Entries, HE. simpl. by rewrite Hkey, Hkey'.
Qed.

Lemma X16_witness :
  found (Get "b" 1 demoHeap demoStale) = true ∧
  ∃ h2 c2,
    Set_ "c" None 0 2 (Get "b" 1 demoHeap demoStale).1.2
      (Get "b" 1 demoHeap demoStale).2 = Some (None, h2, c2) ∧
    lookupEntry c2 "b" = Some (Entry "b" (Some 1%nat) 0 false) ∧
    Keys c2 = ["c"; "b"].
Proof.
  assert (cache_inv demoStale) as Hinv
    by (apply cache_invb_sound; vm_compute; reflexivity).
  destruct (X16_recently_read_survives "b" "c" None 0 1 2 demoHeap demoStale
              (Entry "b" (Some 1%nat) 0 false) Hinv)
    as (Hf & h2 & c2 & HS & He & _);
    [reflexivity|done|simpl; lia|vm_compute; reflexivity|reflexivity..|].
  split; [done|]. exists h2, c2. split_and!; [done..|].
  vm_compute in HS. injection HS as _ <-. vm_compute. reflexivity.
Defined.
